(** * FlowRunner: a shallow embedding of the replay engine

  The development follows the repository's files:
  - [Js]       the JavaScript values the code manipulates (JSON documents,
               steps, thrown errors, truthiness);
  - [Parser]   src/lib/parser.js   (class RecorderParser);
  - [Storage]  src/lib/storage.js  (addLog, setTaskSchedule, and the
               local time of [Date] that the schedule reads);
  - [Executor] src/content/executor.js (findElement, the step handlers,
               executeStep, executeSteps);
  - [Types]    src/lib/types.js (createLog, createTask);
  - [TaskStore] the rest of src/lib/storage.js (tasks, log queries);
  - [ServiceWorker] src/background/service-worker.js.

  The program comes first, module by module; then the vocabulary the
  statements use ([ParserSpec], [StorageSpec], [ExecutorSpec],
  [NormalizerSpec], [TaskStoreSpec], [ResolverSpec], [RunnerSpec],
  [ServiceWorkerSpec]); then the properties of each file, in modules
  named alike ([ParserFacts] to [ServiceWorkerFacts]). *)

From stdpp Require Import gmap strings list pretty sorting.
From Equations Require Import Equations.
From Equations.Prop Require Import Logic.
From Stdlib Require Import ZArith Lia Ascii.

#[local] Set Warnings "-register-all".
#[local] Open Scope Z_scope.

(* ===================================================================== *)
(** ** JavaScript values *)
(* ===================================================================== *)

Module Js.

(** A JSON-shaped JavaScript value.  [JUndefined] is what reading a
    missing property gives; it never occurs inside a parsed document but
    may be stored in an object the code builds ([transformed.url =
    step.url]).  Numbers are carried as integers: the code tests them
    for truthiness, passes them on, or compares them with a number of
    milliseconds; a number with a fractional part cannot be written.
    An object is a finite map from property names to values. *)
Inductive JsValue :=
| JUndefined
| JNull
| JBool (b : bool)
| JNum (n : Z)
| JStr (s : string)
| JArr (l : list JsValue)
| JObj (m : gmap string JsValue).

(** A thrown [Error] object; the code only ever reads its [message]. *)
Record JsError := Error { message : string }.

(** Completion of a computation that may throw. *)
Inductive Exc (A : Type) :=
| Ok (a : A)
| Throw (e : JsError).
Arguments Ok {A} a.
Arguments Throw {A} e.

(** [!!v] in JavaScript. *)
Definition truthy (v : JsValue) : bool :=
  match v with
  | JUndefined | JNull => false
  | JBool b => b
  | JNum n => negb (n =? 0)
  | JStr s => negb (String.eqb s EmptyString)
  | JArr _ | JObj _ => true
  end.

(** [typeof v === 'object'] (true of [null] as well). *)
Definition typeof_object (v : JsValue) : bool :=
  match v with
  | JNull | JArr _ | JObj _ => true
  | _ => false
  end.

(** [v === undefined] and [v == null]. *)
Definition is_undefined (v : JsValue) : bool :=
  match v with JUndefined => true | _ => false end.

Definition nullish (v : JsValue) : bool :=
  match v with JUndefined | JNull => true | _ => false end.

(** [Array.isArray(v)]. *)
Definition isArray (v : JsValue) : bool :=
  match v with JArr _ => true | _ => false end.

(** [v.k] for a value that is neither [null] nor [undefined], and a
    property name [k] that no prototype defines (all the names the
    code reads: type, steps, title, url, selectors, ...).  Objects
    answer from their own properties; arrays, strings, numbers and
    booleans have no such property. *)
Definition prop (v : JsValue) (k : string) : JsValue :=
  match v with
  | JObj m => default JUndefined (m !! k)
  | _ => JUndefined
  end.

(** What V8 throws for [v.k] when [v] is [null] or [undefined]. *)
Definition kindName (v : JsValue) : string :=
  match v with JNull => "null" | _ => "undefined" end.

Definition cannotRead (v : JsValue) (k : string) : JsError :=
  Error ("Cannot read properties of " +:+ kindName v +:+
         " (reading '" +:+ k +:+ "')").

(** [v.k] in general. *)
Definition getProp (v : JsValue) (k : string) : Exc JsValue :=
  if nullish v then Throw (cannotRead v k) else Ok (prop v k).

(** [a || b]. *)
Definition or_else (a b : JsValue) : JsValue :=
  if truthy a then a else b.

(** [v === 'lit']. *)
Definition is_str (lit : string) (v : JsValue) : bool :=
  match v with JStr s => String.eqb s lit | _ => false end.

(** Whether [String(v)] (a template literal, a comparison with a
    number) returns.  A parsed object inherits [toString] and [valueOf]
    from [Object.prototype] unless it has an own property of that name,
    and an own property of a parsed object is never a function: with an
    own [toString] the inherited [valueOf] returns the object itself,
    an own [valueOf] is skipped, and the conversion throws a TypeError.
    An array is joined, so it converts when its elements do ([null] and
    [undefined] are skipped by [join]); primitives always convert. *)
Fixpoint printable (v : JsValue) : bool :=
  match v with
  | JObj m => negb (bool_decide (is_Some (m !! "toString")))
  | JArr l => forallb printable l
  | _ => true
  end.

Definition notPrimitive : JsError :=
  Error "Cannot convert object to primitive value".

(** The one-character strings of [s], as the string iterator yields
    them (per byte here, which is exact on ASCII text). *)
Fixpoint chars (s : string) : list string :=
  match s with
  | EmptyString => []
  | String c s' => String c EmptyString :: chars s'
  end.

(** The own enumerable properties [Object.assign] copies from a source
    value: those of an object, the indexed elements of an array or of a
    string, nothing for the other primitives. *)
Definition indexed (l : list JsValue) : gmap string JsValue :=
  list_to_map (imap (fun (i : nat) v => (pretty i, v)) l).

Definition ownProps (v : JsValue) : gmap string JsValue :=
  match v with
  | JObj m => m
  | JArr l => indexed l
  | JStr s => indexed (JStr <$> chars s)
  | _ => ∅
  end.

(** [s.replace(pat, '')] for a string pattern: the first occurrence of
    [pat] is removed. *)
Fixpoint dropn (n : nat) (s : string) : string :=
  match n, s with
  | S n', String _ s' => dropn n' s'
  | _, _ => s
  end.

Fixpoint removeFirst (pat s : string) : string :=
  if String.prefix pat s then dropn (String.length pat) s
  else match s with
       | EmptyString => EmptyString
       | String c s' => String c (removeFirst pat s')
       end.

(** [Number(s)] on the strings a time field holds: a run of decimal
    digits, or the empty string (which is 0).  [None] stands for every
    other string: [NaN], and the notations (signs, spaces, fractions,
    exponents, hex) this model does not interpret. *)
Definition digit (c : Ascii.ascii) : option Z :=
  let n := Z.of_N (Ascii.N_of_ascii c) in
  if (48 <=? n) && (n <=? 57) then Some (n - 48) else None.

Fixpoint digits (acc : Z) (s : string) : option Z :=
  match s with
  | EmptyString => Some acc
  | String c s' =>
      match digit c with
      | Some d => digits (10 * acc + d) s'
      | None => None
      end
  end.

Definition Number (s : string) : option Z := digits 0 s.

(** [s.split(sep)] for a one-character separator. *)
Fixpoint split_go (sep : Ascii.ascii) (cur : string) (s : string) : list string :=
  match s with
  | EmptyString => [String.rev cur]
  | String c s' =>
      if Ascii.eqb c sep then String.rev cur :: split_go sep EmptyString s'
      else split_go sep (String c cur) s'
  end.

Definition split (sep : Ascii.ascii) (s : string) : list string :=
  split_go sep EmptyString s.

End Js.

Export Js.

(* ===================================================================== *)
(** ** src/lib/parser.js *)
(* ===================================================================== *)

Module Parser.

(** [RecorderParser.SUPPORTED_TYPES]. *)
Definition SUPPORTED_TYPES : list string :=
  [ "navigate"; "click"; "doubleClick"; "change"; "keyDown"; "keyUp";
    "scroll"; "hover"; "waitForElement"; "waitForExpression"; "setViewport" ].

(** The record [validate] returns: [{ valid: true }] or
    [{ valid: false, error }]. *)
Inductive Validation :=
| Valid
| Invalid (error : string).

(** [RecorderParser.SUPPORTED_TYPES.includes(type)]: the value is one
    of the strings of the list. *)
Definition includes (types : list string) (type : JsValue) : bool :=
  existsb (fun s => is_str s type) types.
Arguments includes : simpl never.

(** The [for] loop of [validate] over [json.steps], from index [i] on.
    [step.type] throws when the entry is [null]; a falsy [type] is the
    missing-type error, numbered from 1.  For an unsupported type the
    warning is built with a template literal, which converts the type
    to a string and throws when that conversion does; what the warning
    writes to the console is not modelled. *)
Fixpoint validateSteps (i : nat) (steps : list JsValue) : Exc Validation :=
  match steps with
  | [] => Ok Valid
  | step :: rest =>
      match getProp step "type" with
      | Throw e => Throw e
      | Ok ty =>
          if negb (truthy ty)
          then Ok (Invalid ("步骤 " +:+ pretty (S i) +:+ " 缺少 type 属性"))
          else if negb (includes SUPPORTED_TYPES ty) && negb (printable ty)
          then Throw notPrimitive
          else validateSteps (S i) rest
      end
  end.

(** [validate(json)]. *)
Definition validate (json : JsValue) : Exc Validation :=
  if negb (truthy json) || negb (typeof_object json)
  then Ok (Invalid "无效的 JSON 格式")
  else
    match prop json "steps" with
    | JArr steps =>
        if (length steps =? 0)%nat
        then Ok (Invalid "steps 数组为空")
        else validateSteps 0 steps
    | _ => Ok (Invalid "缺少 steps 数组")
    end.

(** [normalizeSelectors(selectors)]: anything that is not an array
    becomes the empty list; a group that is not an array is wrapped. *)
Definition normalizeSelectors (selectors : JsValue) : JsValue :=
  match selectors with
  | JArr groups =>
      JArr ((fun selectorGroup =>
               if isArray selectorGroup then selectorGroup
               else JArr [selectorGroup]) <$> groups)
  | _ => JArr []
  end.

(** The [switch] of [transformStep]: the properties copied for each
    type, written onto [transformed]. *)
Definition copyByType (step : JsValue) (transformed : gmap string JsValue)
  : gmap string JsValue :=
  let ty := prop step "type" in
  if is_str "navigate" ty then
    <["url" := prop step "url"]> transformed
  else if is_str "click" ty || is_str "doubleClick" ty || is_str "hover" ty then
    <["button" := prop step "button"]>
      (<["offsetY" := prop step "offsetY"]>
         (<["offsetX" := prop step "offsetX"]>
            (<["selectors" := normalizeSelectors (prop step "selectors")]> transformed)))
  else if is_str "change" ty then
    <["value" := prop step "value"]>
      (<["selectors" := normalizeSelectors (prop step "selectors")]> transformed)
  else if is_str "keyDown" ty || is_str "keyUp" ty then
    <["key" := prop step "key"]> transformed
  else if is_str "scroll" ty then
    <["selectors" := if truthy (prop step "selectors")
                     then normalizeSelectors (prop step "selectors")
                     else JNull]>
      (<["y" := prop step "y"]> (<["x" := prop step "x"]> transformed))
  else if is_str "waitForElement" ty then
    <["visible" := prop step "visible"]>
      (<["timeout" := prop step "timeout"]>
         (<["selectors" := normalizeSelectors (prop step "selectors")]> transformed))
  else if is_str "waitForExpression" ty then
    <["timeout" := prop step "timeout"]>
      (<["expression" := prop step "expression"]> transformed)
  else if is_str "setViewport" ty then
    <["isMobile" := prop step "isMobile"]>
      (<["deviceScaleFactor" := prop step "deviceScaleFactor"]>
         (<["height" := prop step "height"]>
            (<["width" := prop step "width"]> transformed)))
  else
    (* Object.assign(transformed, step): the source's properties win.
       The assignment of a source property named __proto__ goes to the
       setter of Object.prototype: it may change what the step
       inherits, and adds no property to the step itself.  Nothing in
       the code reads an inherited property of a step. *)
    delete "__proto__" (ownProps step) ∪ transformed.

(** [transformStep(step, index)].  Reading [step.type] throws on a
    [null] entry; after that no property read can. *)
Definition transformStep (step : JsValue) (index : nat) : Exc JsValue :=
  match getProp step "type" with
  | Throw e => Throw e
  | Ok ty =>
      let transformed : gmap string JsValue :=
        <["index" := JNum (Z.of_nat index)]> (<["type" := ty]> ∅) in
      let transformed := copyByType step transformed in
      let transformed :=
        if negb (is_undefined (prop step "timeout"))
        then <["timeout" := prop step "timeout"]> transformed
        else transformed in
      let transformed :=
        if truthy (prop step "assertedEvents")
        then <["assertedEvents" := prop step "assertedEvents"]> transformed
        else transformed in
      Ok (JObj transformed)
  end.

(** [steps.find(s => s.type === 'navigate')] followed by
    [navigateStep?.url || null]. *)
Definition isNavigate (s : JsValue) : bool := is_str "navigate" (prop s "type").

Definition extractStartUrl (steps : list JsValue) : JsValue :=
  match List.find isNavigate steps with
  | Some navigateStep => or_else (prop navigateStep "url") JNull
  | None => JNull
  end.

(** [array.map((step, index) => this.transformStep(step, index))]; the
    first callback that throws aborts the map. *)
Fixpoint mapSteps (index : nat) (steps : list JsValue) : Exc (list JsValue) :=
  match steps with
  | [] => Ok []
  | step :: rest =>
      match transformStep step index with
      | Throw e => Throw e
      | Ok t =>
          match mapSteps (S index) rest with
          | Throw e => Throw e
          | Ok ts => Ok (t :: ts)
          end
      end
  end.

(** The object [transform] returns. *)
Record ParsedData := {
  title : JsValue;
  startUrl : JsValue;
  steps : list JsValue;
  originalJson : JsValue
}.

(** [transform(json)].  [json.steps.map] throws unless [json.steps] is an
    array. *)
Definition transform (json : JsValue) : Exc ParsedData :=
  match getProp json "title" with
  | Throw e => Throw e
  | Ok t =>
      let title := or_else t (JStr EmptyString) in
      match prop json "steps" with
      | JArr raw =>
          match mapSteps 0 raw with
          | Throw e => Throw e
          | Ok steps =>
              Ok {| title := title;
                    startUrl := extractStartUrl steps;
                    steps := steps;
                    originalJson := json |}
          end
      | other =>
          Throw (if nullish other then cannotRead other "map"
                 else Error "json.steps.map is not a function")
      end
  end.

(** The record [parse] returns: [{ success: true, data }] or
    [{ success: false, error }]. *)
Record ParseResult := {
  success : bool;
  data : option ParsedData;
  error : option string
}.

Definition parseFailure (msg : string) : ParseResult :=
  {| success := false; data := None; error := Some msg |}.

(** [try { body } catch (error) { handler(error) }]. *)
Definition tryCatch {A} (body : Exc A) (handler : JsError -> Exc A) : Exc A :=
  match body with
  | Ok a => Ok a
  | Throw e => handler e
  end.

Section Parse.

(** [JSON.parse] is the host's: it either returns the decoded value or
    throws a [SyntaxError]. *)
Variable JSON_parse : string -> Exc JsValue.

(** [parse(jsonString)]: the three calls sit inside one [try]; the
    handler builds the failure record from the caught error's message. *)
Definition parse (jsonString : string) : Exc ParseResult :=
  tryCatch
    (match JSON_parse jsonString with
     | Throw e => Throw e
     | Ok json =>
         match validate json with
         | Throw e => Throw e
         | Ok (Invalid err) => Ok (parseFailure err)
         | Ok Valid =>
             match transform json with
             | Throw e => Throw e
             | Ok d => Ok {| success := true; data := Some d; error := None |}
             end
         end
     end)
    (fun error => Ok (parseFailure ("JSON 解析失败: " +:+ message error))).

End Parse.

End Parser.

(* ===================================================================== *)
(** ** src/lib/storage.js *)
(* ===================================================================== *)

Module Storage.

(** [DefaultSettings] of src/lib/types.js. *)
Record Settings := {
  maxLogs : Z;
  stepDelay : Z;
  elementTimeout : Z;
  notifyOnComplete : bool
}.

Definition DefaultSettings : Settings :=
  {| maxLogs := 100; stepDelay := 500; elementTimeout := 10000;
     notifyOnComplete := true |}.

(** The object [createLog] builds (src/lib/types.js). *)
Record LogEntry := {
  id : string;
  taskId : string;
  taskName : string;
  status : string;
  message : string;
  duration : Z;
  executedAt : Z
}.

(** The two keys of [chrome.storage.local] that [addLog] reads; a key that
    was never written is absent. *)
Record Store := {
  logs : option (list LogEntry);
  settings : option Settings
}.

(** [array.slice(0, end)] for an integer [end]: a negative [end] counts
    from the back, and the result never exceeds the array. *)
Definition slice0 {A} (e : Z) (l : list A) : list A :=
  let len := Z.of_nat (length l) in
  let final := if e <? 0 then Z.max (len + e) 0 else Z.min e len in
  take (Z.to_nat final) l.

(** [addLog(log)]: [logs.unshift(log)], then [logs.slice(0,
    settings.maxLogs)] is written back.  The settings key is left as it
    was. *)
Definition addLog (log : LogEntry) (st : Store) : Store :=
  let logs0 := default [] (logs st) in
  let settings0 := default DefaultSettings (settings st) in
  let logs1 := log :: logs0 in
  let trimmedLogs := slice0 (maxLogs settings0) logs1 in
  {| logs := Some trimmedLogs; settings := settings st |}.

(** *** Scheduling *)

(** [task.schedule]. *)
Record Schedule := {
  enabled : bool;
  time : string;
  days : list Z
}.

(** The argument of [chrome.alarms.create]. *)
Record Alarm := {
  when : Z;
  periodInMinutes : Z
}.

(** What [setTaskSchedule] resolves to: [{ success: true }] with
    [nextRun] present once an alarm was created. *)
Record ScheduleResult := {
  sr_success : bool;
  nextRun : option Z
}.

(** Instants are time values: milliseconds since the epoch, as
    [Date.getTime] gives them.  A [Date] holds a time value or is
    invalid ([NaN]); [None] stands for the invalid date. *)
Definition msPerMinute : Z := 60000.
Definition msPerHour : Z := 3600000.
Definition msPerDay : Z := 86400000.

(** The time zone of the host, as the language sees it: the offset of
    local time from UTC in force at an instant ([LocalTZA(t, true)]),
    and the offset with which a local time is read as an instant
    ([LocalTZA(t, false)]).  Where the clocks change, the offset of one
    day is not that of the next, and a local time the change skips or
    repeats is read with the offset the zone chooses. *)
Record Zone := {
  offsetAt : Z -> Z;
  offsetOfLocal : Z -> Z
}.

(** [TimeClip]: a time value further than 8.64e15 ms from the epoch is
    no date. *)
Definition maxTime : Z := 8640000000000000.

Definition TimeClip (t : Z) : option Z :=
  if Z.abs t <=? maxTime then Some t else None.

(** [MakeTime(hour, min, sec, ms)] on integers. *)
Definition MakeTime (h m s ms : Z) : Z :=
  h * msPerHour + m * msPerMinute + s * 1000 + ms.

Section LocalTime.

Variable zone : Zone.

(** [LocalTime(t)] and [UTC(t)]. *)
Definition LocalTime (t : Z) : Z := t + offsetAt zone t.
Definition UTC (local : Z) : Z := local - offsetOfLocal zone local.

(** The local day number of an instant, and the time within that day
    ([Day] and [TimeWithinDay] of the local time). *)
Definition localDay (t : Z) : Z := LocalTime t / msPerDay.
Definition timeInDay (t : Z) : Z := LocalTime t mod msPerDay.

(** [date.getHours()], [getMinutes()], [getSeconds()],
    [getMilliseconds()]. *)
Definition getHours (t : Z) : Z := timeInDay t / msPerHour.
Definition getMinutes (t : Z) : Z := (timeInDay t mod msPerHour) / msPerMinute.

(** [date.setHours(h, m, s, ms)]: [MakeDate] of the local day and the
    new time within it (values out of range carry over into the
    neighbouring days), read as an instant by the zone and clipped. *)
Definition setHours (t h m s ms : Z) : option Z :=
  TimeClip (UTC (localDay t * msPerDay + MakeTime h m s ms)).

(** [date.setDate(date.getDate() + 1)]: [MakeDay] of the local year,
    month and date plus one is the day after the local day (a date
    past the end of the month carries over), and the time within the
    day is kept: the local time moves on by one day of the clock, and
    the zone reads the result as an instant.  Across a clock change
    that instant is not 24 hours later. *)
Definition nextDate (t : Z) : option Z :=
  TimeClip (UTC (LocalTime t + msPerDay)).

(** [schedule.time.split(':').map(Number)] destructured into [hours,
    minutes]: the first two fields, both of which must be numbers. *)
Definition parseTime (time : string) : option (Z * Z) :=
  match Number <$> split ":"%char time with
  | Some hours :: Some minutes :: _ => Some (hours, minutes)
  | _ => None
  end.

(** [setTaskSchedule(taskId, schedule)] at the instant [now] (the two
    [new Date()] of the code read the same instant), on the alarm table
    of [chrome.alarms] (creating an alarm under a name that is taken
    replaces it).  The result is [None] when the time string does not
    yield two numbers or the date leaves the range of [Date]: the date
    is then invalid, and what the alarm API does with it is outside
    this model. *)
Definition alarmName (taskId : string) : string := "task_" +:+ taskId.

Definition setTaskSchedule (now : Z) (taskId : string) (schedule : Schedule)
    (alarms : gmap string Alarm) : option (gmap string Alarm * ScheduleResult) :=
  if negb (enabled schedule) then
    Some (delete (alarmName taskId) alarms,
          {| sr_success := true; nextRun := None |})
  else
    match parseTime (time schedule) with
    | None => None
    | Some (hours, minutes) =>
        match setHours now hours minutes 0 0 with
        | None => None
        | Some next =>
            match (if next <=? now then nextDate next else Some next) with
            | None => None
            | Some next =>
                Some (<[alarmName taskId :=
                          {| when := next; periodInMinutes := 24 * 60 |}]> alarms,
                      {| sr_success := true; nextRun := Some next |})
            end
        end
    end.

End LocalTime.

End Storage.

(* ===================================================================== *)
(** ** src/content/executor.js *)
(* ===================================================================== *)

Module Executor.

Inductive ExecutionStatus := SUCCESS | FAILED | PARTIAL.

(** The [Config] object. *)
Module Config.
Definition stepDelay : Z := 500.
Definition elementTimeout : Z := 10000.
Definition retryCount : Z := 3.
End Config.

(** A DOM node, by handle. *)
Definition Element := nat.

(** A step is an object, as [transformStep] builds it and as the message
    from the service worker carries it. *)
Abbreviation Step := (gmap string JsValue).

Definition field (step : Step) (k : string) : JsValue :=
  default JUndefined (step !! k).

(** Everything the content script does that can be observed from
    outside, in the order it happens: what it writes to the console in
    [executeSteps], the message it sends back, the timers it waits on,
    and what it asks of or does to the page. *)
Inductive Event :=
| LogStart (total : nat) (errorPolicy : string)
| LogStep (i total : nat) (type : JsValue)
| WarnStepIgnored (i : nat) (msg : string)
| ErrorStepFailed (i : nat) (msg : string)
| SendResult (taskId taskName : string) (status : ExecutionStatus)
             (msg : string) (duration : Z)
| Delay (ms : Z)
| QuerySelector (css : string)
| XPathEvaluate (xpath : string)
| WarnSelectorFailed (selector : JsValue)
| ScrollIntoView (el : Element)
| Click (el : Element)
| DispatchEvent (el : Element) (name : string)
| KeyboardEvent (el : Element) (name : string) (key : JsValue)
| Focus (el : Element)
| SetValue (el : Element) (v : JsValue)
| ElementScrollTo (el : Element) (x y : JsValue)
| WindowScrollTo (x y : JsValue)
| RunExpression (expression : JsValue)
| Log (msg : string).

(** The state a run threads through: the clock [Date.now()] reads, and
    the events so far, oldest first.  The clock moves while the script
    waits on a timer: [delay(ms)] resolves [ms] later or later still.
    The time the script's own work takes is not counted apart: the
    script reads the clock at the start of a search and after a timer,
    so that time shows as lateness of the timer that follows. *)
Record World := {
  now : Z;
  trace : list Event
}.

(** The page the script runs in, and the browser around it.  What a
    query finds may depend on the time and on everything done so far.
    A query yields a node or none, or throws (a selector the engine
    rejects).  [overrun w ms] is how much later than asked a timer of
    [ms] milliseconds set in the state [w] fires: [setTimeout] gives a
    lower bound only.  [numberOfString s] is [Number(s)] as a
    comparison with an integer sees it: the least integer that is not
    below it, or none for [NaN]; a string that converts to [Infinity]
    is outside this model. *)
Record Page := {
  querySelector : World -> string -> Exc (option Element);
  xpathFirstNode : World -> string -> Exc (option Element);
  activeElement : World -> option Element;
  runExpression : World -> JsValue -> Exc bool;
  overrun : World -> Z -> N;
  numberOfString : string -> option Z
}.

(** *** Effects *)

(** A computation on the world that returns or throws. *)
Definition Act (A : Type) : Type := World -> World * Exc A.

#[global] Instance Act_ret : MRet Act := fun A a w => (w, Ok a).

#[global] Instance Act_bind : MBind Act := fun A B f m w =>
  match m w with
  | (w1, Ok a) => f a w1
  | (w1, Throw e) => (w1, Throw e)
  end.

Definition throw {A} (e : JsError) : Act A := fun w => (w, Throw e).

Definition emit (e : Event) (w : World) : World :=
  {| now := now w; trace := trace w ++ [e] |}.

Definition do (e : Event) : Act unit := fun w => (emit e w, Ok tt).

Section WithPage.

Variable page : Page.

(** The wait on a timer of [ms] milliseconds: when the script goes on,
    the clock shows [ms] more, and the timer's overrun. *)
Definition tick (ms : Z) (w : World) : World :=
  {| now := now w + ms + Z.of_N (overrun page w ms); trace := trace w ++ [Delay ms] |}.

(** [await delay(ms)]. *)
Definition delay (ms : Z) : Act unit := fun w => (tick ms w, Ok tt).

(** [document.querySelector(css)]. *)
Definition query (css : string) : Act (option Element) :=
  fun w => (emit (QuerySelector css) w, querySelector page w css).

(** [document.evaluate(xpath, document, null, FIRST_ORDERED_NODE_TYPE,
    null).singleNodeValue]. *)
Definition evaluate (xpath : string) : Act (option Element) :=
  fun w => (emit (XPathEvaluate xpath) w, xpathFirstNode page w xpath).

(** *** findElement *)

Definition dq : string := String (Ascii false true false false false true false false) EmptyString.

(** [Array.isArray(selectorGroup) ? selectorGroup[0] : selectorGroup]. *)
Definition primary (selectorGroup : JsValue) : JsValue :=
  match selectorGroup with
  | JArr alternatives => default JUndefined (head alternatives)
  | other => other
  end.

(** The body of the [try] block for one selector: dispatch on the
    prefix.  [selector.startsWith] throws when the selector is not a
    string. *)
Definition locate (selector : JsValue) : Act (option Element) :=
  match selector with
  | JStr s =>
      if String.prefix "xpath/" s then
        evaluate (removeFirst "xpath/" s)
      else if String.prefix "aria/" s then
        let ariaLabel := removeFirst "aria/" s in
        first ← query ("[aria-label=" +:+ dq +:+ ariaLabel +:+ dq +:+ "]");
        match first with
        | Some el => mret (Some el)
        | None => query ("[aria-labelledby=" +:+ dq +:+ ariaLabel +:+ dq +:+ "]")
        end
      else if String.prefix "pierce/" s then
        query (removeFirst "pierce/" s)
      else
        query s
  | JUndefined | JNull => throw (cannotRead selector "startsWith")
  | _ => throw (Error "selector.startsWith is not a function")
  end.

(** One pass of [for (const selectorGroup of selectors)]: the first
    selector that yields a node ends the pass; a selector that throws is
    reported on the console and the pass goes on. *)
Fixpoint pollGroups (groups : list JsValue) (w : World) : World * option Element :=
  match groups with
  | [] => (w, None)
  | selectorGroup :: rest =>
      let selector := primary selectorGroup in
      match locate selector w with
      | (w1, Ok (Some element)) => (w1, Some element)
      | (w1, Ok None) => pollGroups rest w1
      | (w1, Throw _) => pollGroups rest (emit (WarnSelectorFailed selector) w1)
      end
  end.

(** [while (Date.now() - startTime < timeout) { for ...; await
    delay(100) }].  Each pass that finds nothing moves the clock on by
    100 ms, so the time left shrinks. *)
Equations? findLoop (groups : list JsValue) (startTime timeout : Z) (w : World)
  : World * option Element
  by wf (Z.to_nat (timeout - (now w - startTime))) lt :=
findLoop groups startTime timeout w with Z_lt_dec (now w - startTime) timeout => {
  | left _ with inspect (pollGroups groups w) => {
    | exist _ (w1, Some element) _ => (w1, Some element)
    | exist _ (w1, None) _ => findLoop groups startTime timeout (tick 100 w1) }
  | right _ => (w, None) }.
Proof.
  assert (Hclock : forall gs w0, now (pollGroups gs w0).1 = now w0).
  { clear. induction gs as [|g gs IH]; intros w0; simpl; [done|].
    assert (Hloc : forall sel w2, now (locate sel w2).1 = now w2).
    { clear. intros sel w2. destruct sel as [| | | |s| |]; simpl; try done.
      repeat case_match; simpl; try done.
      unfold mbind, Act_bind, query; simpl.
      repeat case_match; simpl; done. }
    specialize (Hloc (primary g) w0).
    destruct (locate (primary g) w0) as [w1 [[el|]|e]]; simpl in *;
      rewrite ?IH; simpl; done. }
  specialize (Hclock groups w). rewrite e in Hclock. simpl in *.
  pose proof (N2Z.is_nonneg (overrun page w1 100)). lia.
Qed.

(** [selectors.length]: arrays and strings have one; an object only if
    it carries a property of that name. *)
Definition lengthOf (v : JsValue) : JsValue :=
  match v with
  | JArr l => JNum (Z.of_nat (length l))
  | JStr s => JNum (Z.of_nat (String.length s))
  | other => prop other "length"
  end.

Definition isZero (v : JsValue) : bool :=
  match v with JNum n => n =? 0 | _ => false end.

(** The values [for ... of] iterates over: the elements of an array, the
    characters of a string; anything else is not iterable. *)
Definition iterate (v : JsValue) : option (list JsValue) :=
  match v with
  | JArr l => Some l
  | JStr s => Some (JStr <$> chars s)
  | _ => None
  end.

(** [findElement(selectors, timeout)].  A falsy or empty [selectors]
    returns [null] before the clock is read.  Selectors that cannot be
    iterated make the first pass of the loop throw. *)
Definition findElement (selectors : JsValue) (timeout : Z) : Act (option Element) :=
  fun w =>
    if negb (truthy selectors) || isZero (lengthOf selectors) then (w, Ok None)
    else
      let startTime := now w in
      match iterate selectors with
      | Some groups =>
          let '(w1, r) := findLoop groups startTime timeout w in
          (w1, Ok r)
      | None =>
          if now w - startTime <? timeout
          then (w, Throw (Error "selectors is not iterable"))
          else (w, Ok None)
      end.

(** *** Step handlers *)

Definition handleNavigate (step : Step) : Act unit :=
  do (Log "Navigate step (handled by service worker)").

Definition handleClick (step : Step) : Act unit :=
  element ← findElement (field step "selectors") Config.elementTimeout;
  match element with
  | None => throw (Error "找不到点击目标元素")
  | Some el =>
      do (ScrollIntoView el);;
      delay 200;;
      do (Click el);;
      do (Log "Clicked element")
  end.

Definition handleDoubleClick (step : Step) : Act unit :=
  element ← findElement (field step "selectors") Config.elementTimeout;
  match element with
  | None => throw (Error "找不到双击目标元素")
  | Some el =>
      do (ScrollIntoView el);;
      delay 200;;
      do (DispatchEvent el "dblclick");;
      do (Log "Double-clicked element")
  end.

Definition handleChange (step : Step) : Act unit :=
  element ← findElement (field step "selectors") Config.elementTimeout;
  match element with
  | None => throw (Error "找不到输入目标元素")
  | Some el =>
      do (ScrollIntoView el);;
      delay 200;;
      do (Focus el);;
      do (SetValue el (JStr EmptyString));;
      do (SetValue el (field step "value"));;
      do (DispatchEvent el "input");;
      do (DispatchEvent el "change");;
      do (Log "Changed input value")
  end.

(** [document.activeElement.dispatchEvent(event)], which throws when no
    element has the focus. *)
Definition dispatchKey (name : string) (key : JsValue) : Act unit :=
  fun w =>
    match activeElement page w with
    | Some el => (emit (KeyboardEvent el name key) w, Ok tt)
    | None => (w, Throw (cannotRead JNull "dispatchEvent"))
    end.

Definition handleKeyDown (step : Step) : Act unit :=
  dispatchKey "keydown" (field step "key");;
  do (Log "KeyDown").

Definition handleKeyUp (step : Step) : Act unit :=
  dispatchKey "keyup" (field step "key");;
  do (Log "KeyUp").

Definition handleScroll (step : Step) : Act unit :=
  let x := or_else (field step "x") (JNum 0) in
  let y := or_else (field step "y") (JNum 0) in
  (if truthy (field step "selectors") then
     element ← findElement (field step "selectors") Config.elementTimeout;
     match element with
     | Some el => do (ElementScrollTo el x y)
     | None => mret tt
     end
   else do (WindowScrollTo x y));;
  do (Log "Scrolled to").

Definition handleHover (step : Step) : Act unit :=
  element ← findElement (field step "selectors") Config.elementTimeout;
  match element with
  | None => throw (Error "找不到悬停目标元素")
  | Some el =>
      do (DispatchEvent el "mouseover");;
      do (Log "Hovered element")
  end.

(** The result of [findElement] is awaited and dropped, and the timeout
    passed is the configured one. *)
Definition handleWaitForElement (step : Step) : Act unit :=
  findElement (field step "selectors") Config.elementTimeout;;
  do (Log "Element found").

(** The number a value stands for in the comparison [elapsed <
    timeout], [None] being [NaN], which makes the comparison false.
    An array or an object is first made a primitive: an array through
    [join], so the empty array is the empty string (0), an array of one
    element is what that element is as a string ([null] and
    [undefined] being the empty string), and a longer one holds a
    comma and is no number; an object is [NaN] unless the conversion
    throws. *)
Fixpoint numberOfElement (v : JsValue) : option Z :=
  match v with
  | JUndefined | JNull => Some 0
  | JBool _ => None
  | JNum n => Some n
  | JStr s => if String.eqb s EmptyString then Some 0 else numberOfString page s
  | JArr [] => Some 0
  | JArr [x] => numberOfElement x
  | JArr _ => None
  | JObj _ => None
  end.

Definition toNumber (v : JsValue) : Exc (option Z) :=
  match v with
  | JUndefined => Ok None
  | JNull => Ok (Some 0)
  | JBool b => Ok (Some (if b then 1 else 0))
  | JNum n => Ok (Some n)
  | JStr s => Ok (if String.eqb s EmptyString then Some 0 else numberOfString page s)
  | JArr _ | JObj _ => if printable v then Ok (numberOfElement v) else Throw notPrimitive
  end.

(** The loop of [handleWaitForExpression]: evaluate the expression; a
    truthy result returns, a falsy one or an exception waits 100 ms and
    tries again until the time is up. *)
Equations? expressionLoop (expression : JsValue) (startTime timeout : Z) (w : World)
  : World * Exc unit
  by wf (Z.to_nat (timeout - (now w - startTime))) lt :=
expressionLoop expression startTime timeout w with Z_lt_dec (now w - startTime) timeout => {
  | left _ with runExpression page w expression => {
    | Ok true =>
        (emit (Log "Expression evaluated to true") (emit (RunExpression expression) w), Ok tt)
    | _ =>
        expressionLoop expression startTime timeout
          (tick 100 (emit (RunExpression expression) w)) }
  | right _ => (w, Throw (Error "等待表达式超时")) }.
Proof.
  all: simpl;
    pose proof (N2Z.is_nonneg (overrun page (emit (RunExpression expression) w) 100));
    lia.
Qed.

(** [handleWaitForExpression(step)].  The timeout is converted when the
    loop first compares it; a conversion that throws ends the step with
    that exception. *)
Definition handleWaitForExpression (step : Step) : Act unit :=
  fun w =>
    let timeout := or_else (field step "timeout") (JNum Config.elementTimeout) in
    let startTime := now w in
    match toNumber timeout with
    | Throw e => (w, Throw e)
    | Ok (Some limit) => expressionLoop (field step "expression") startTime limit w
    | Ok None => (w, Throw (Error "等待表达式超时"))
    end.

(** [executeStep(step)]: the [switch] on [step.type]. *)
Definition executeStep (step : Step) : Act unit :=
  let type := field step "type" in
  if is_str "navigate" type then handleNavigate step
  else if is_str "click" type then handleClick step
  else if is_str "doubleClick" type then handleDoubleClick step
  else if is_str "change" type then handleChange step
  else if is_str "keyDown" type then handleKeyDown step
  else if is_str "keyUp" type then handleKeyUp step
  else if is_str "scroll" type then handleScroll step
  else if is_str "hover" type then handleHover step
  else if is_str "waitForElement" type then handleWaitForElement step
  else if is_str "waitForExpression" type then handleWaitForExpression step
  else if is_str "setViewport" type then do (Log "Skipping setViewport step")
  else do (Log "Unknown step type").

(** *** executeSteps *)

(** The three variables the loop updates. *)
Record LoopState := {
  completed : nat;
  lastError : option JsError;
  hasFailedSteps : bool
}.

(** The [for] loop, at index [i] with [steps] still to run, out of
    [total].  A step that returns is counted and, unless it is the last,
    followed by the pacing delay.  A step that throws is recorded: under
    the [continue] policy the loop moves on to the next index at once,
    under any other it ends. *)
Fixpoint runLoop (errorPolicy : string) (total i : nat) (steps : list Step)
    (st : LoopState) (w : World) : LoopState * World :=
  match steps with
  | [] => (st, w)
  | step :: rest =>
      let w := emit (LogStep i total (field step "type")) w in
      match executeStep step w with
      | (w, Ok _) =>
          let st := {| completed := S (completed st);
                       lastError := lastError st;
                       hasFailedSteps := hasFailedSteps st |} in
          let w := if (i <? total - 1)%nat then tick Config.stepDelay w else w in
          runLoop errorPolicy total (S i) rest st w
      | (w, Throw error) =>
          if String.eqb errorPolicy "continue" then
            let w := emit (WarnStepIgnored i (message error)) w in
            let st := {| completed := completed st;
                         lastError := Some error;
                         hasFailedSteps := true |} in
            runLoop errorPolicy total (S i) rest st w
          else
            let w := emit (ErrorStepFailed i (message error)) w in
            ({| completed := completed st;
                lastError := Some error;
                hasFailedSteps := hasFailedSteps st |}, w)
      end
  end.

(** The result object. *)
Record RunOutcome := {
  success : bool;
  status : ExecutionStatus;
  completedSteps : nat;
  totalSteps : nat;
  duration : Z;
  message : string
}.

Definition isSuccess (s : ExecutionStatus) : bool :=
  match s with SUCCESS => true | _ => false end.

(** [executeSteps(steps, taskId, taskName, errorPolicy)].  The outer
    [catch] has no path here: it is reached only by a fault outside a
    step's own [try] (a [null] entry in the list, a closed message
    port), which the types of this model leave out. *)
Definition executeSteps (steps : list Step) (taskId taskName errorPolicy : string)
    (w : World) : World * RunOutcome :=
  let startTime := now w in
  let w := emit (LogStart (length steps) errorPolicy) w in
  let '(st, w) :=
    runLoop errorPolicy (length steps) 0 steps
      {| completed := 0; lastError := None; hasFailedSteps := false |} w in
  let duration := now w - startTime in
  let status :=
    if bool_decide (is_Some (lastError st)) && String.eqb errorPolicy "stop" then FAILED
    else if hasFailedSteps st then PARTIAL
    else if (completed st <? length steps)%nat then PARTIAL
    else SUCCESS in
  let message :=
    match lastError st with
    | Some e => Js.message e
    | None => "执行完成"
    end in
  let w := emit (SendResult taskId taskName status message duration) w in
  (w, {| success := isSuccess status;
         status := status;
         completedSteps := completed st;
         totalSteps := length steps;
         duration := duration;
         message := message |}).

End WithPage.

End Executor.

(* ===================================================================== *)
(** ** src/lib/types.js *)
(* ===================================================================== *)

Module Types.

Import Storage.

(** [createLog({ taskId, taskName, status, message, duration })] at the
    instant [now].  [generateId()] draws on the clock and on
    [Math.random]; the identifier it returns is an input here.  A
    [message] or [duration] left out (or falsy) is replaced by the empty
    string and by 0. *)
Definition createLog (id : string) (now : Z) (taskId taskName status : string)
    (message : option string) (duration : option Z) : LogEntry :=
  {| Storage.id := id;
     Storage.taskId := taskId;
     Storage.taskName := taskName;
     Storage.status := status;
     Storage.message := default EmptyString message;
     Storage.duration := default 0 duration;
     Storage.executedAt := now |}.

(** [createTask({ name, url, steps, originalJson })] at the instant
    [now], with the identifier [generateId()] returned. *)
Definition createTask (id : string) (now : Z) (name url steps originalJson : JsValue)
  : gmap string JsValue :=
  <["id" := JStr id]>
  (<["name" := or_else name (JStr "未命名任务")]>
  (<["url" := or_else url (JStr EmptyString)]>
  (<["steps" := or_else steps (JArr [])]>
  (<["originalJson" := or_else originalJson JNull]>
  (<["enabled" := JBool true]>
  (<["errorPolicy" := JStr "stop"]>
  (<["schedule" :=
       JObj (<["enabled" := JBool false]>
            (<["time" := JStr "09:00"]>
            (<["days" := JArr [JNum 1; JNum 2; JNum 3; JNum 4; JNum 5]]> ∅)))]>
  (<["createdAt" := JNum now]>
  (<["updatedAt" := JNum now]>
  (<["lastExecutedAt" := JNull]>
  (<["lastStatus" := JNull]> ∅))))))))))).

End Types.

(* ===================================================================== *)
(** ** src/lib/storage.js: tasks and the log queries *)
(* ===================================================================== *)

Module TaskStore.

Import Storage.

(** A stored task is an object. *)
Abbreviation Task := (gmap string JsValue).

(** The state the storage manager works on: the tasks key of
    [chrome.storage.local], its two other keys, and the alarm table of
    [chrome.alarms]. *)
Record Db := {
  tasks : option (list Task);
  store : Store;
  alarms : gmap string Alarm
}.

(** The object the task operations resolve to: [{ success: true, task? }]
    or [{ success: false, error }]. *)
Record Reply := {
  success : bool;
  error : option string;
  task : option Task
}.

Definition hasId (taskId : string) (t : Task) : bool :=
  is_str taskId (default JUndefined (t !! "id")).

(** [array.findIndex(p)], with [None] for -1. *)
Fixpoint findIndex {A} (p : A -> bool) (l : list A) : option nat :=
  match l with
  | [] => None
  | x :: l' => if p x then Some 0%nat else S <$> findIndex p l'
  end.

(** [initialize()]: every key that holds nothing gets its default. *)
Definition initialize (db : Db) : Db :=
  {| tasks := Some (default [] (tasks db));
     store := {| logs := Some (default [] (logs (store db)));
                 settings := Some (default DefaultSettings (settings (store db))) |};
     alarms := alarms db |}.

(** [getAllTasks()]. *)
Definition getAllTasks (db : Db) : list Task := default [] (tasks db).

(** [getTask(taskId)]: the first task with that id, or [null]. *)
Definition getTask (taskId : string) (db : Db) : option Task :=
  List.find (hasId taskId) (getAllTasks db).

(** [saveTask(task)]: the task is pushed at the end. *)
Definition saveTask (t : Task) (db : Db) : Db * Reply :=
  ({| tasks := Some (getAllTasks db ++ [t]); store := store db; alarms := alarms db |},
   {| success := true; error := None; task := Some t |}).

(** [updateTask(taskId, updates)] at the instant [now]: the first task
    with that id is replaced by [{ ...task, ...updates, updatedAt }]. *)
Definition updateTask (now : Z) (taskId : string) (updates : gmap string JsValue)
    (db : Db) : Db * Reply :=
  let all := getAllTasks db in
  match findIndex (hasId taskId) all with
  | None => (db, {| success := false; error := Some "任务不存在"; task := None |})
  | Some index =>
      let merged : Task :=
        <["updatedAt" := JNum now]> (updates ∪ default ∅ (all !! index)) in
      ({| tasks := Some (<[index := merged]> all); store := store db; alarms := alarms db |},
       {| success := true; error := None; task := Some merged |})
  end.

(** [deleteTask(taskId)]: every task with that id goes, and with it the
    task's alarm; when no task has the id nothing is written. *)
Definition deleteTask (taskId : string) (db : Db) : Db * Reply :=
  let all := getAllTasks db in
  let filteredTasks := List.filter (fun t => negb (hasId taskId t)) all in
  if (length filteredTasks =? length all)%nat then
    (db, {| success := false; error := Some "任务不存在"; task := None |})
  else
    ({| tasks := Some filteredTasks; store := store db;
        alarms := delete (alarmName taskId) (alarms db) |},
     {| success := true; error := None; task := None |}).

(** [array.sort(compare)]: the sort is stable, so for a comparator that
    orders consistently its result is the stable arrangement, built here
    by insertion from the right ([x] goes before the first [y] with
    [compare(x, y) <= 0]). *)
Fixpoint insertBy {A} (compare : A -> A -> Z) (x : A) (l : list A) : list A :=
  match l with
  | [] => [x]
  | y :: l' => if compare x y <=? 0 then x :: y :: l' else y :: insertBy compare x l'
  end.

Fixpoint sortBy {A} (compare : A -> A -> Z) (l : list A) : list A :=
  match l with
  | [] => []
  | x :: l' => insertBy compare x (sortBy compare l')
  end.

Definition byTask (taskId : string) (l : LogEntry) : bool :=
  String.eqb (Storage.taskId l) taskId.

(** [getLogs(taskId = null, limit = 50)]: a truthy [taskId] filters, the
    logs are sorted by [b.executedAt - a.executedAt], and the first
    [limit] are returned.  Nothing is written. *)
Definition getLogs (taskId : option string) (limit : Z) (db : Db) : list LogEntry :=
  let all := default [] (logs (store db)) in
  let selected :=
    match taskId with
    | Some i => if String.eqb i EmptyString then all else List.filter (byTask i) all
    | None => all
    end in
  slice0 limit (sortBy (fun a b => executedAt b - executedAt a) selected).

(** [clearTaskLogs(taskId)]. *)
Definition clearTaskLogs (taskId : string) (db : Db) : Db :=
  let all := default [] (logs (store db)) in
  {| tasks := tasks db;
     store := {| logs := Some (List.filter (fun l => negb (byTask taskId l)) all);
                 settings := settings (store db) |};
     alarms := alarms db |}.

(** The properties an update of the settings may carry; one that is
    left out keeps its value. *)
Record SettingsUpdate := {
  setMaxLogs : option Z;
  setStepDelay : option Z;
  setElementTimeout : option Z;
  setNotifyOnComplete : option bool
}.

(** [getSettings()]: [{ ...DefaultSettings, ...stored }].  What is
    stored is always a whole settings object ([initialize] and
    [updateSettings] write nothing else), so the spread yields it. *)
Definition getSettings (st : Store) : Settings :=
  default DefaultSettings (settings st).

(** [updateSettings(updates)]: [{ ...settings, ...updates }] is stored
    and returned; the logs key is not written. *)
Definition updateSettings (updates : SettingsUpdate) (st : Store) : Store * Settings :=
  let settings0 := getSettings st in
  let newSettings :=
    {| maxLogs := default (maxLogs settings0) (setMaxLogs updates);
       stepDelay := default (stepDelay settings0) (setStepDelay updates);
       elementTimeout := default (elementTimeout settings0) (setElementTimeout updates);
       notifyOnComplete :=
         default (notifyOnComplete settings0) (setNotifyOnComplete updates) |} in
  ({| logs := logs st; settings := Some newSettings |}, newSettings).

(** [addLog] and [setTaskSchedule] on the whole state. *)
Definition addLogDb (log : LogEntry) (db : Db) : Db :=
  {| tasks := tasks db; store := addLog log (store db); alarms := alarms db |}.

Definition setTaskScheduleDb (zone : Zone) (now : Z) (taskId : string) (schedule : Schedule)
    (db : Db) : option Db :=
  match setTaskSchedule zone now taskId schedule (alarms db) with
  | Some (alarms', _) => Some {| tasks := tasks db; store := store db; alarms := alarms' |}
  | None => None
  end.

End TaskStore.

(* ===================================================================== *)
(** ** src/background/service-worker.js *)
(* ===================================================================== *)

Module ServiceWorker.

Import Storage TaskStore.

(** [getStartUrl(steps)]: [null] for a falsy or empty [steps]; otherwise
    the [url] of the first step whose [type] is navigate, or [null].
    [steps.find] exists on arrays only, and its callback throws on a
    [null] entry. *)
Fixpoint findNavigate (steps : list JsValue) : Exc (option JsValue) :=
  match steps with
  | [] => Ok None
  | s :: rest =>
      match getProp s "type" with
      | Throw e => Throw e
      | Ok ty => if is_str "navigate" ty then Ok (Some s) else findNavigate rest
      end
  end.

Definition getStartUrl (steps : JsValue) : Exc JsValue :=
  if negb (truthy steps) || Executor.isZero (Executor.lengthOf steps) then Ok JNull
  else
    match steps with
    | JArr l =>
        match findNavigate l with
        | Throw e => Throw e
        | Ok (Some navigateStep) => Ok (or_else (prop navigateStep "url") JNull)
        | Ok None => Ok JNull
        end
    | _ => Throw (Error "steps.find is not a function")
    end.

(** What [executeTask] resolves to: the content script's response, or
    [{ success: false, error }]. *)
Inductive TaskResult (Response : Type) :=
| Responded (r : Response)
| Failed (error : string).
Arguments Responded {Response} r.
Arguments Failed {Response} error.

Section Coordinator.

Variable Response : Type.

(** Opening the tab at the start URL, waiting for it to load and sending
    it the steps ([chrome.tabs.create], [waitForTabLoad],
    [chrome.tabs.sendMessage]) is the browser's part: it yields the
    content script's response or throws (no tab, load timeout, no
    receiver). *)
Variable runInTab : JsValue -> Task -> Exc Response.

(** The body of the [try] in [executeTask]. *)
Definition attempt (taskId : string) (db : Db) : Exc Response :=
  match List.find (hasId taskId) (getAllTasks db) with
  | None => Throw (Error "任务不存在")
  | Some t =>
      let url := default JUndefined (t !! "url") in
      let startUrl :=
        if truthy url then Ok url
        else getStartUrl (default JUndefined (t !! "steps")) in
      match startUrl with
      | Throw e => Throw e
      | Ok startUrl =>
          if negb (truthy startUrl) then Throw (Error "无法确定起始 URL")
          else runInTab startUrl t
      end
  end.

(** [executeTask(taskId)] at the instant [now]; [logId] is the identifier
    [generateId()] gives the failure log.  The [catch] records every
    failure under the task name "未知任务". *)
Definition executeTask (logId : string) (now : Z) (taskId : string) (db : Db)
  : Db * TaskResult Response :=
  match attempt taskId db with
  | Ok response => (db, Responded response)
  | Throw error =>
      (addLogDb (Types.createLog logId now taskId "未知任务" "failed"
                   (Some (Js.message error)) None) db,
       Failed (Js.message error))
  end.

End Coordinator.

(** The EXECUTION_RESULT message. *)
Record ResultMessage := {
  taskId : string;
  taskName : string;
  status : string;
  message : string;
  duration : Z
}.

(** The state [handleExecutionResult] works on: the storage, and the
    notifications shown so far (title and text), oldest first. *)
Record Host := {
  db : Db;
  notifications : list (string * string)
}.

(** [handleExecutionResult(message)] at the instant [now]: the log is
    added, the task's last status updated, and a notification shown for
    a success or a failure. *)
Definition handleExecutionResult (logId : string) (now : Z) (m : ResultMessage)
    (h : Host) : Host :=
  let db1 :=
    addLogDb (Types.createLog logId now (taskId m) (taskName m) (status m)
                (Some (message m)) (Some (duration m))) (db h) in
  let db2 :=
    (updateTask now (taskId m)
       (<["lastExecutedAt" := JNum now]> (<["lastStatus" := JStr (status m)]> ∅)) db1).1 in
  let shown :=
    if String.eqb (status m) "success" then
      [("执行成功", taskName m +:+ " 任务已完成")]
    else if String.eqb (status m) "failed" then
      [("执行失败", taskName m +:+ " 执行失败: " +:+ message m)]
    else [] in
  {| db := db2; notifications := notifications h ++ shown |}.

(** The alarm listener: a name that starts with [task_] names the task
    whose id is the name with the first [task_] removed. *)
Definition alarmTaskId (name : string) : option string :=
  if String.prefix "task_" name then Some (removeFirst "task_" name) else None.

(** The status strings of [ExecutionStatus] in the content script, and
    the message [executeSteps] sends with [chrome.runtime.sendMessage]. *)
Definition statusName (s : Executor.ExecutionStatus) : string :=
  match s with
  | Executor.SUCCESS => "success"
  | Executor.FAILED => "failed"
  | Executor.PARTIAL => "partial"
  end.

Definition sentMessage (e : Executor.Event) : option ResultMessage :=
  match e with
  | Executor.SendResult taskId taskName status msg duration =>
      Some {| taskId := taskId; taskName := taskName; status := statusName status;
              message := msg; duration := duration |}
  | _ => None
  end.

End ServiceWorker.

(* ===================================================================== *)
(** ** Vocabulary of the properties *)
(* ===================================================================== *)

(** The notions the statements below are phrased in.  None of them is
    part of the program. *)

Module ParserSpec.

Import Parser.

(** The three ways a document is malformed. *)
Definition notRecord (json : JsValue) : Prop :=
  truthy json = false \/ typeof_object json = false.

Definition lacksStepsArray (json : JsValue) : Prop :=
  isArray (prop json "steps") = false.

Definition emptySteps (json : JsValue) : Prop :=
  prop json "steps" = JArr [].

Definition malformedMessages : list string :=
  [ "无效的 JSON 格式"; "缺少 steps 数组"; "steps 数组为空" ].

Definition missingType (i : nat) : string :=
  "步骤 " +:+ pretty (S i) +:+ " 缺少 type 属性".

(** An action has a kind when it is not [null] and its [type] is truthy. *)
Definition hasKind (step : JsValue) : bool :=
  negb (nullish step) && truthy (prop step "type").

(** The warning about an action can be written when there is none to
    write (the type is a supported one) or when the type converts to a
    string. *)
Definition nameable (step : JsValue) : bool :=
  includes SUPPORTED_TYPES (prop step "type") || printable (prop step "type").

(** The actions [validate] goes past. *)
Definition passable (step : JsValue) : bool := hasKind step && nameable step.

End ParserSpec.

Module StorageSpec.

Import Storage.

(** The store lists entries newest first when their times of execution
    never increase along it. *)
Definition newestFirst (l : list LogEntry) : Prop :=
  StronglySorted (fun a b => executedAt b <= executedAt a) l.

Definition entryAt (t : Z) : LogEntry :=
  {| id := "e"; taskId := "t"; taskName := "n"; status := "success";
     message := EmptyString; duration := 0; executedAt := t |}.





(** A local time that the zone reads back: as an instant it shows that
    local time again.  It fails for a local time that a clock change
    skips. *)
Definition readsBack (zone : Zone) (local : Z) : Prop :=
  LocalTime zone (UTC zone local) = local.

(** A zone whose clocks never change. *)
Definition fixedZone (offset : Z) : Zone :=
  {| offsetAt := fun _ => offset; offsetOfLocal := fun _ => offset |}.

(** New York around the 10th of March 2024: five hours behind UTC until
    02:00 local time on that day (07:00 UTC), four hours behind from
    then on; the local times of the skipped hour are read with the
    earlier offset. *)
Definition newYork2024 : Zone :=
  {| offsetAt := fun t =>
       if t <? 1710054000000 then -5 * msPerHour else -4 * msPerHour;
     offsetOfLocal := fun local =>
       if local <? 1710039600000 then -5 * msPerHour else -4 * msPerHour |}.

End StorageSpec.

Module ExecutorSpec.

Import Executor.

(** The indices of the steps the loop began, and of those it recorded
    as failed, in the order of the trace. *)
Definition attempted (evs : list Event) : list nat :=
  omap (fun e => match e with LogStep i _ _ => Some i | _ => None end) evs.

Definition failures (evs : list Event) : list nat :=
  omap (fun e => match e with
                 | WarnStepIgnored i _ | ErrorStepFailed i _ => Some i
                 | _ => None
                 end) evs.

(** The events the loop of [executeSteps] itself produces: its console
    lines and the pacing delay. *)
Definition isRunner (e : Event) : bool :=
  match e with
  | LogStep _ _ _ | WarnStepIgnored _ _ | ErrorStepFailed _ _ => true
  | Delay ms => ms =? Config.stepDelay
  | _ => false
  end.

Definition runnerView (evs : list Event) : list Event := filter (fun e => isRunner e = true) evs.

(** The events a step handler produces: page queries and actions, its
    own console lines, and the short waits of 100 and 200 ms. *)
Definition inner (e : Event) : bool :=
  match e with
  | LogStart _ _ | LogStep _ _ _ | WarnStepIgnored _ _ | ErrorStepFailed _ _
  | SendResult _ _ _ _ _ => false
  | Delay ms => negb (ms =? Config.stepDelay)
  | _ => true
  end.

(** [w'] continues [w] by handler events only. *)
Definition extends (w w' : World) : Prop :=
  exists evs, trace w' = trace w ++ evs /\ Forall (fun e => inner e = true) evs.

(** A computation whose every run only adds handler events. *)
Definition Quiet {A} (m : Act A) : Prop := forall w, extends w (m w).1.

(** What [executeStep] did for one step of the run. *)
Inductive Outcome :=
| Returned
| Threw (e : JsError).

(** What the loop writes after a step: the pacing delay after a step
    that returned, unless it was the last; the console line after a step
    that threw, and nothing else. *)
Definition afterStep (errorPolicy : string) (total i : nat) (o : Outcome) : list Event :=
  match o with
  | Returned => if (i <? total - 1)%nat then [Delay Config.stepDelay] else []
  | Threw e =>
      if String.eqb errorPolicy "continue"
      then [WarnStepIgnored i (Js.message e)]
      else [ErrorStepFailed i (Js.message e)]
  end.

(** The loop's own events for the steps from index [i] on, given what
    each attempted step did. *)
Fixpoint blocks (errorPolicy : string) (total i : nat) (steps : list Step)
    (outs : list Outcome) : list Event :=
  match steps, outs with
  | step :: steps', o :: outs' =>
      LogStep i total (field step "type")
        :: afterStep errorPolicy total i o ++ blocks errorPolicy total (S i) steps' outs'
  | _, _ => []
  end.

(** The outcomes a run of [steps] can have: one per step, except that
    under a policy other than [continue] the first step that throws is
    the last one attempted. *)
Fixpoint fits (errorPolicy : string) (steps : list Step) (outs : list Outcome) : Prop :=
  match steps, outs with
  | [], [] => True
  | _ :: steps', Returned :: outs' => fits errorPolicy steps' outs'
  | _ :: steps', Threw _ :: outs' =>
      if String.eqb errorPolicy "continue" then fits errorPolicy steps' outs'
      else outs' = []
  | _, _ => False
  end.

(** The loop variables after the outcomes [outs]. *)
Definition record (errorPolicy : string) (st : LoopState) (o : Outcome) : LoopState :=
  match o with
  | Returned =>
      {| completed := S (completed st); lastError := lastError st;
         hasFailedSteps := hasFailedSteps st |}
  | Threw e =>
      {| completed := completed st; lastError := Some e;
         hasFailedSteps := String.eqb errorPolicy "continue" || hasFailedSteps st |}
  end.

Definition didThrow (o : Outcome) : bool :=
  match o with Threw _ => true | Returned => false end.

(** The indices, from [i] on, of the outcomes that threw. *)
Fixpoint failedAt (i : nat) (outs : list Outcome) : list nat :=
  match outs with
  | [] => []
  | Returned :: outs' => failedAt (S i) outs'
  | Threw _ :: outs' => i :: failedAt (S i) outs'
  end.

Definition anyFailed (i : nat) (outs : list Outcome) : bool :=
  match failedAt i outs with [] => false | _ :: _ => true end.

Definition initial : LoopState :=
  {| completed := 0; lastError := None; hasFailedSteps := false |}.

(** *** The steps of a run *)

(** One attempt: a step of the list, its index, and the state in which
    [executeStep] is called on it. *)
Record Attempt := {
  position : nat;
  stepOf : Step;
  before : World
}.

Section Attempts.

Variable page : Page.

(** What [executeStep] makes of the attempt: the state it leaves, and
    whether it returned or threw. *)
Definition result (a : Attempt) : World * Exc unit :=
  executeStep page (stepOf a) (before a).

Definition after (a : Attempt) : World := (result a).1.

Definition errorOf (a : Attempt) : option JsError :=
  match (result a).2 with
  | Ok _ => None
  | Throw e => Some e
  end.

Definition outcome (a : Attempt) : Outcome :=
  match errorOf a with
  | None => Returned
  | Some e => Threw e
  end.

Definition threw (a : Attempt) : bool := didThrow (outcome a).

(** The attempts in which the step failed. *)
Definition failed (attempts : list Attempt) : list Attempt :=
  filter (fun a => threw a = true) attempts.

(** The state in which the loop goes on after an attempt: after the
    pacing delay when the step returned and is not the last, after the
    console line of the failure when it threw. *)
Definition resume (errorPolicy : string) (total : nat) (a : Attempt) : World :=
  match errorOf a with
  | None =>
      if (position a <? total - 1)%nat then tick page Config.stepDelay (after a)
      else after a
  | Some e =>
      emit (if String.eqb errorPolicy "continue"
            then WarnStepIgnored (position a) (Js.message e)
            else ErrorStepFailed (position a) (Js.message e)) (after a)
  end.

(** The attempts of a loop that starts in [w] and ends in [w']: each
    is entered right after its console line, written in the state the
    loop was left in by the attempt before. *)
Fixpoint chained (errorPolicy : string) (total : nat) (w : World)
    (attempts : list Attempt) (w' : World) : Prop :=
  match attempts with
  | [] => w' = w
  | a :: rest =>
      before a = emit (LogStep (position a) total (field (stepOf a) "type")) w
      /\ chained errorPolicy total (resume errorPolicy total a) rest w'
  end.

(** [run] is made of the attempts [attempts]: they are chained from
    the first console line of [executeSteps] to the message it ends
    with, and they take the steps of the list in order, from the
    first on. *)
Definition ran (errorPolicy : string) (steps : list Step) (taskId taskName : string)
    (w : World) (attempts : list Attempt) (run : World * RunOutcome) : Prop :=
  exists w',
    chained errorPolicy (length steps) (emit (LogStart (length steps) errorPolicy) w)
      attempts w'
    /\ run.1 = emit (SendResult taskId taskName (status run.2) (message run.2)
                       (duration run.2)) w'
    /\ stepOf <$> attempts = take (length attempts) steps
    /\ position <$> attempts = seq 0 (length attempts).

(** The polls of a search that found nothing, by the states they began
    in: each is followed by the wait of 100 ms, and the next begins
    where that wait ends; [w'] is where the last wait ends. *)
Fixpoint missed (groups : list JsValue) (w : World) (starts : list World)
    (w' : World) : Prop :=
  match starts with
  | [] => w' = w
  | s :: rest =>
      s = w /\ (pollGroups page groups s).2 = None
      /\ missed groups (tick page 100 (pollGroups page groups s).1) rest w'
  end.

End Attempts.

(** The number of evaluations of an expression among the events. *)
Definition isEvaluation (e : Event) : bool :=
  match e with RunExpression _ => true | _ => false end.

Definition evaluations (evs : list Event) : nat :=
  length (filter (fun e => isEvaluation e = true) evs).

(** A page on which nothing ever matches; its timers are punctual. *)
Definition neverMatches : Page :=
  {| querySelector := fun _ _ => Ok None;
     xpathFirstNode := fun _ _ => Ok None;
     activeElement := fun _ => None;
     runExpression := fun _ _ => Ok false;
     overrun := fun _ _ => 0%N;
     numberOfString := Number |}.

(** A page on which the selector [#a] matches node 7 and nothing else
    matches. *)
Definition onlyA : Page :=
  {| querySelector := fun _ css => if String.eqb css "#a" then Ok (Some 7%nat) else Ok None;
     xpathFirstNode := fun _ _ => Ok None;
     activeElement := fun _ => Some 1%nat;
     runExpression := fun _ _ => Ok false;
     overrun := fun _ _ => 0%N;
     numberOfString := Number |}.

(** A click without selectors (which fails at once), a change of the
    field [#a], and a navigate step. *)
Definition clickNothing : Step :=
  {[ "type" := JStr "click"; "selectors" := JArr [] ]}.

Definition changeA : Step :=
  {[ "type" := JStr "change"; "selectors" := JArr [JArr [JStr "#a"]];
     "value" := JStr "v" ]}.

Definition navigateX : Step :=
  {[ "type" := JStr "navigate"; "url" := JStr "https://x" ]}.

Definition start : World := {| now := 0; trace := [] |}.

End ExecutorSpec.

Module NormalizerSpec.

Import Parser.

(** The canonical shape of selectors: a list of groups, each of which
    is a list. *)
Definition isGroupList (v : JsValue) : Prop :=
  exists groups, v = JArr groups /\ Forall (fun g => isArray g = true) groups.

(** The types [transformStep] has a case for. *)
Definition supported (ty : JsValue) : bool :=
  existsb (fun s => is_str s ty) SUPPORTED_TYPES.

(** The types whose case stores normalized selectors. *)
Definition targeted (ty : JsValue) : bool :=
  existsb (fun s => is_str s ty) ["click"; "doubleClick"; "hover"; "change"; "waitForElement"].

End NormalizerSpec.

Module TaskStoreSpec.

Import Storage TaskStore.

(** The reply of [updateTask] and [deleteTask] for an unknown id. *)
Definition notFound : Reply :=
  {| success := false; error := Some "任务不存在"; task := None |}.

(** The comparison [getLogs] sorts with. *)
Definition newest (a b : LogEntry) : Z := executedAt b - executedAt a.

(** The entries [getLogs] selects from. *)
Definition wanted (taskId : option string) (l : LogEntry) : bool :=
  match taskId with
  | Some i => if String.eqb i EmptyString then true else byTask i l
  | None => true
  end.

(** A small store: two tasks, and a daily alarm for the first. *)
Definition sampleDb : Db :=
  {| tasks := Some [ {[ "id" := JStr "a"; "name" := JStr "old" ]};
                     {[ "id" := JStr "b" ]} ];
     store := {| logs := None; settings := None |};
     alarms := {[ alarmName "a" := {| when := 0; periodInMinutes := 1440 |} ]} |}.

End TaskStoreSpec.

Module ResolverSpec.

Import Executor.

(** The error [handleWaitForExpression] ends with. *)
Definition expressionTimeout : JsError := Error "等待表达式超时".

(** The types whose handler touches the page or waits. *)
Definition acts (ty : JsValue) : bool :=
  existsb (fun s => is_str s ty)
    ["click"; "doubleClick"; "change"; "keyDown"; "keyUp"; "scroll"; "hover";
     "waitForElement"; "waitForExpression"].

End ResolverSpec.

Module RunnerSpec.

Import Executor ExecutorSpec.

(** The messages of the failures the loop recorded, in order. *)
Definition failureMessages (evs : list Event) : list string :=
  omap (fun e => match e with
                 | WarnStepIgnored _ msg | ErrorStepFailed _ msg => Some msg
                 | _ => None
                 end) evs.

(** The errors of the outcomes that threw. *)
Definition thrown (outs : list Outcome) : list JsError :=
  omap (fun o => match o with Threw e => Some e | Returned => None end) outs.

(** The events that are not the message sent at the end. *)
Definition notSent (e : Event) : Prop :=
  match e with SendResult _ _ _ _ _ => False | _ => True end.

End RunnerSpec.

Module ServiceWorkerSpec.

Import Storage TaskStore ServiceWorker.

(** The log the [catch] of [executeTask] writes. *)
Definition failureLog (logId : string) (now : Z) (taskId err : string) : LogEntry :=
  Types.createLog logId now taskId "未知任务" "failed" (Some err) None.

(** The task the popup's import builds from the parser's data
    ([handleFileSelect]): [createTask({ name, url: data.startUrl,
    steps: data.steps, originalJson: data.originalJson })].  The name is
    the recording's title or the file's name, and the user may edit it
    before saving. *)
Definition importedTask (id : string) (created : Z) (name : JsValue)
    (d : Parser.ParsedData) : Task :=
  Types.createTask id created name (Parser.startUrl d) (JArr (Parser.steps d))
    (Parser.originalJson d).

(** The notification [handleExecutionResult] shows for the outcome of a
    run. *)
Definition notice (taskName : string) (o : Executor.RunOutcome) : list (string * string) :=
  match Executor.status o with
  | Executor.SUCCESS => [("执行成功", taskName +:+ " 任务已完成")]
  | Executor.FAILED => [("执行失败", taskName +:+ " 执行失败: " +:+ Executor.message o)]
  | Executor.PARTIAL => []
  end.

(** A recording with one click and no navigation, what [transform]
    makes of it, and a store that holds the task imported from it. *)
Definition sampleRecording : JsValue :=
  JObj {[ "title" := JStr "demo";
          "steps" := JArr [JObj {[ "type" := JStr "click" ]}] ]}.

Definition sampleData : Parser.ParsedData :=
  {| Parser.title := JStr "demo";
     Parser.startUrl := JNull;
     Parser.steps := [JObj {[ "type" := JStr "click"; "index" := JNum 0;
                              "selectors" := JArr [];
                              "offsetX" := JUndefined;
                              "offsetY" := JUndefined;
                              "button" := JUndefined ]}];
     Parser.originalJson := sampleRecording |}.

Definition importedDb : Db :=
  {| tasks := Some [importedTask "t1" 0 (JStr "demo") sampleData];
     store := {| logs := None; settings := None |};
     alarms := ∅ |}.

End ServiceWorkerSpec.

(* ===================================================================== *)
(** * Properties *)
(* ===================================================================== *)

(** ** The parser *)

Module ParserFacts.

Import Parser ParserSpec.

(** *** validate *)

Lemma missingType_not_malformed i : missingType i ∉ malformedMessages.
Proof.
  unfold missingType, malformedMessages. cbn.
  rewrite !elem_of_cons, elem_of_nil. intros [H|[H|[H|[]]]]; discriminate H.
Qed.

Lemma hasKind_obj step :
  hasKind step = true -> exists m ty, step = JObj m /\ m !! "type" = Some ty /\ truthy ty = true.
Proof.
  unfold hasKind. destruct step as [| | | | | |m]; simpl; try discriminate.
  destruct (m !! "type") as [ty|] eqn:E; simpl; [|discriminate].
  intros H. eauto.
Qed.

Lemma validateSteps_valid i steps :
  validateSteps i steps = Ok Valid <-> forallb passable steps = true.
Proof.
  revert i. induction steps as [|s steps IH]; intros i; simpl; [done|].
  unfold getProp, passable, hasKind, nameable.
  destruct (nullish s); simpl; [split; discriminate|].
  destruct (truthy (prop s "type")); simpl; [|split; discriminate].
  destruct (includes SUPPORTED_TYPES (prop s "type")); simpl; [apply IH|].
  destruct (printable (prop s "type")); simpl; [apply IH|split; discriminate].
Qed.

Lemma passable_hasKind steps :
  forallb passable steps = true -> forallb hasKind steps = true.
Proof.
  rewrite !forallb_forall. intros Hall x Hx. specialize (Hall x Hx).
  unfold passable in Hall. by apply andb_true_iff in Hall as [? _].
Qed.

(** Validation reports a malformed document exactly in the three cases,
    and nowhere else. *)
Lemma validate_malformed_iff json :
  (exists e, validate json = Ok (Invalid e) /\ e ∈ malformedMessages)
  <-> notRecord json \/ lacksStepsArray json \/ emptySteps json.
Proof.
  unfold validate, notRecord, lacksStepsArray, emptySteps.
  destruct (truthy json) eqn:Ht, (typeof_object json) eqn:Ho; simpl;
    try (split; [intros _; auto | intros _; eexists; split; [done|set_solver]]).
  destruct (prop json "steps") as [| | | | |l|] eqn:Es; simpl;
    try (split; [intros _; auto | intros _; eexists; split; [done|set_solver]]).
  destruct l as [|s l]; simpl.
  { split; [auto | intros _; eexists; split; [done|set_solver]]. }
  split.
  - intros (e & He & Hin). exfalso.
    assert (Hshape : forall i steps e0, validateSteps i steps = Ok (Invalid e0) ->
                       exists k, e0 = missingType k).
    { clear. intros i steps; revert i.
      induction steps as [|x xs IH]; intros i e0; simpl; [discriminate|].
      destruct (getProp x "type") as [ty|]; [|discriminate].
      destruct (truthy ty); simpl; [|intros [= <-]; by exists i].
      destruct (negb (includes SUPPORTED_TYPES ty) && negb (printable ty));
        [discriminate|apply IH]. }
    apply (Hshape 0%nat (s :: l)) in He as [k ->].
    by apply missingType_not_malformed in Hin.
  - intros [[?|?]|[?|?]]; discriminate.
Qed.

(** A well-formed document whose actions are all objects reports the
    first action without a kind, counted from 1. *)
Lemma validateSteps_missing i pre step post :
  forallb passable pre = true ->
  nullish step = false -> truthy (prop step "type") = false ->
  validateSteps i (pre ++ step :: post) = Ok (Invalid (missingType (i + length pre))).
Proof.
  revert i. induction pre as [|p pre IH]; intros i Hpre Hn Ht; simpl.
  - unfold getProp. rewrite Hn, Ht. simpl. by rewrite Nat.add_0_r.
  - simpl in Hpre. apply andb_true_iff in Hpre as [Hp Hpre].
    unfold passable, hasKind, nameable in Hp.
    apply andb_true_iff in Hp as [Hp Hname].
    apply andb_true_iff in Hp as [Hp1 Hp2].
    unfold getProp. destruct (nullish p); [done|]. rewrite Hp2. simpl.
    assert (Hgo : negb (includes SUPPORTED_TYPES (prop p "type"))
                  && negb (printable (prop p "type")) = false).
    { by destruct (includes SUPPORTED_TYPES (prop p "type")),
           (printable (prop p "type")). }
    rewrite Hgo, IH by done. do 3 f_equal. lia.
Qed.

(** A document that is a record with a non-empty array of actions, each
    of which has a kind and can be named in a warning, passes. *)
Lemma validate_passes json raw :
  truthy json = true -> typeof_object json = true ->
  prop json "steps" = JArr raw -> raw <> [] ->
  forallb passable raw = true ->
  validate json = Ok Valid.
Proof.
  intros Ht Ho Hs Hne Hall. unfold validate. rewrite Ht, Ho, Hs. simpl.
  destruct raw as [|r raw]; [done|].
  change (validateSteps 0 (r :: raw) = Ok Valid). by apply validateSteps_valid.
Qed.

Lemma validate_valid_passable json :
  validate json = Ok Valid ->
  exists m raw, json = JObj m /\ m !! "steps" = Some (JArr raw) /\ raw <> [] /\
                forallb passable raw = true.
Proof.
  unfold validate.
  destruct (truthy json) eqn:Ht, (typeof_object json) eqn:Ho; simpl; try discriminate.
  destruct json as [| | | | |l|m]; simpl in *; try discriminate.
  destruct (m !! "steps") as [[| | | | |raw|]|] eqn:Es; simpl; try discriminate.
  destruct raw as [|r raw]; [discriminate|].
  intros H. exists m, (r :: raw). repeat split; try done.
  by apply (validateSteps_valid 0).
Qed.

Lemma validate_valid_inv json :
  validate json = Ok Valid ->
  exists m raw, json = JObj m /\ m !! "steps" = Some (JArr raw) /\ raw <> [] /\
                forallb hasKind raw = true.
Proof.
  intros Hv. destruct (validate_valid_passable json Hv) as (m & raw & ? & ? & ? & Hall).
  exists m, raw. repeat split; try done. by apply passable_hasKind.
Qed.

(** *** transformStep and transform *)

(** A normalized step keeps the action's [type]; a navigate step also
    keeps its [url]. *)
Lemma transformStep_kind step index :
  hasKind step = true ->
  exists m, transformStep step index = Ok (JObj m)
            /\ m !! "type" = Some (prop step "type")
            /\ (isNavigate step = true -> m !! "url" = Some (prop step "url")).
Proof.
  intros Hk. destruct (hasKind_obj _ Hk) as (m0 & ty & -> & Hty & Htruthy).
  unfold transformStep, getProp, isNavigate. simpl. rewrite Hty. simpl.
  eexists. split; [reflexivity|].
  unfold copyByType. simpl. rewrite Hty. simpl.
  split.
  - repeat case_match; simplify_map_eq; try done.
    all: erewrite lookup_union_Some_l; [done|]; by rewrite lookup_delete_ne.
  - intros Hnav. rewrite Hnav. repeat case_match; by simplify_map_eq.
Qed.

Lemma transformStep_isNavigate step index t :
  hasKind step = true -> transformStep step index = Ok t ->
  isNavigate t = isNavigate step
  /\ (isNavigate step = true -> prop t "url" = prop step "url").
Proof.
  intros Hk Ht. destruct (transformStep_kind step index Hk) as (m & Hm & Htype & Hurl).
  rewrite Hm in Ht. injection Ht as <-.
  unfold isNavigate at 1. simpl. rewrite Htype. simpl. split; [done|].
  intros Hnav. by rewrite (Hurl Hnav).
Qed.

(** Normalizing the actions keeps their number, and the first navigate
    step of the result is the image of the first navigate action. *)
Lemma mapSteps_startUrl index raw :
  forallb hasKind raw = true ->
  exists ts, mapSteps index raw = Ok ts
             /\ length ts = length raw
             /\ extractStartUrl ts = extractStartUrl raw.
Proof.
  revert index. induction raw as [|r raw IH]; intros index Hall; simpl.
  - by exists [].
  - simpl in Hall. apply andb_true_iff in Hall as [Hr Hall].
    destruct (transformStep_kind r index Hr) as (m & Hm & _).
    destruct (transformStep_isNavigate r index _ Hr Hm) as [Hnav Hurl].
    rewrite Hm. destruct (IH (S index) Hall) as (ts & -> & Hlen & Hstart).
    eexists. split; [reflexivity|]. split; [simpl; lia|].
    unfold extractStartUrl in *. simpl. rewrite Hnav.
    destruct (isNavigate r) eqn:E; [by rewrite Hurl|done].
Qed.

(** C10.  For every input text, and whatever [JSON.parse] does with it,
    [parse] returns a result record and never throws: either [success]
    is true and [data] is present, or [success] is false and [error] is
    present. *)
Theorem parse_never_throws (JSON_parse : string -> Exc JsValue) (jsonString : string) :
  exists r, parse JSON_parse jsonString = Ok r
            /\ ((success r = true /\ is_Some (data r) /\ error r = None)
                \/ (success r = false /\ data r = None /\ is_Some (error r))).
Proof.
  unfold parse, tryCatch, parseFailure.
  destruct (JSON_parse jsonString) as [json|e]; [|eexists; split; [done|right; eauto]].
  destruct (validate json) as [[|err]|e];
    [|eexists; split; [done|right; eauto]..].
  destruct (transform json) as [d|e]; eexists; (split; [done|]);
    [left|right]; simpl; eauto.
Qed.

(** C8 (failing input).  On the document whose action list holds a
    single [null], [validate] does not return the missing-type record:
    reading [step.type] throws, and [parse] reports the exception as a
    JSON parse failure. *)
Theorem validate_null_action_throws :
  let doc := JObj {[ "steps" := JArr [JNull] ]} in
  validate doc = Throw (cannotRead JNull "type")
  /\ parse (fun _ => Ok doc) "input" =
     Ok (parseFailure
           "JSON 解析失败: Cannot read properties of null (reading 'type')").
Proof. split; reflexivity. Qed.

(** C7 (counterexample).  A valid document whose first navigate action
    has an empty [url]: the normalized step carries that [url], and
    [startUrl] is [null], not the [url]. *)
Lemma startUrl_differs_on_empty_url :
  let action := JObj {[ "type" := JStr "navigate"; "url" := JStr EmptyString ]} in
  let doc := JObj {[ "steps" := JArr [action] ]} in
  validate doc = Ok Valid
  /\ exists d s, transform doc = Ok d
                 /\ List.find isNavigate (steps d) = Some s
                 /\ prop s "url" = JStr EmptyString
                 /\ startUrl d = JNull
                 /\ startUrl d <> prop s "url".
Proof.
  split; [reflexivity|].
  eexists _, _. split; [reflexivity|]. vm_compute. repeat split; congruence.
Qed.

(** C7 (amended).  For every valid document, normalization succeeds and
    [startUrl] is the [url] of the first navigate step of the normalized
    list when that [url] is truthy (a non-empty string), and [null] when
    it is not or when there is no navigate step; that step is the image
    of the first navigate action of the document, with the same [url]. *)
Theorem transform_startUrl json :
  validate json = Ok Valid ->
  exists d raw,
    transform json = Ok d
    /\ prop json "steps" = JArr raw
    /\ length (steps d) = length raw
    /\ startUrl d =
         match List.find isNavigate (steps d) with
         | Some s => if truthy (prop s "url") then prop s "url" else JNull
         | None => JNull
         end
    /\ startUrl d =
         match List.find isNavigate raw with
         | Some a => if truthy (prop a "url") then prop a "url" else JNull
         | None => JNull
         end.
Proof.
  intros Hv. destruct (validate_valid_inv _ Hv) as (m & raw & -> & Hs & Hne & Hall).
  destruct (mapSteps_startUrl 0 raw Hall) as (ts & Hmap & Hlen & Hstart).
  unfold transform, getProp. simpl. rewrite Hs. simpl. rewrite Hmap.
  eexists _, raw. split; [reflexivity|]. simpl.
  repeat split; done.
Qed.

Lemma transform_startUrl_witness :
  let doc := JObj {[ "steps" := JArr [JObj {[ "type" := JStr "navigate";
                                              "url" := JStr "https://x" ]}] ]} in
  validate doc = Ok Valid
  /\ exists d, transform doc = Ok d /\ startUrl d = JStr "https://x".
Proof.
  intros doc. split; [reflexivity|].
  destruct (transform_startUrl doc eq_refl) as (d & raw & Hd & Hraw & _ & _ & Hs).
  exists d. split; [exact Hd|].
  injection Hraw as <-. exact Hs.
Defined.

End ParserFacts.

(** ** The log store and the schedule *)

Module StorageFacts.

Import Storage StorageSpec.

(** *** addLog *)

Lemma slice0_take {A} (e : Z) (l : list A) :
  0 <= e -> slice0 e l = take (Z.to_nat e) l.
Proof.
  intros He. unfold slice0.
  destruct (e <? 0) eqn:E; [lia|].
  destruct (Z.le_gt_cases e (Z.of_nat (length l))).
  - by rewrite Z.min_l.
  - rewrite Z.min_r by lia. rewrite Nat2Z.id.
    rewrite !take_ge; [done|lia..].
Qed.

(** C9.  With a configured maximum of at least one entry, after
    [addLog] the store holds at most that many entries, the new entry
    is the first of them, and what is kept is a prefix of the new entry
    followed by the old store: what is dropped is the tail of the list,
    only when the list is longer than the maximum, and (the list being
    newest first) no dropped entry is more recent than a kept one. *)
Theorem addLog_retention (log : LogEntry) (st : Store) :
  let limit := maxLogs (default DefaultSettings (settings st)) in
  let before := default [] (logs st) in
  1 <= limit ->
  exists retained dropped,
    logs (addLog log st) = Some retained
    /\ Z.of_nat (length retained) <= limit
    /\ head retained = Some log
    /\ log :: before = retained ++ dropped
    /\ (Z.of_nat (length (log :: before)) <= limit -> dropped = [])
    /\ (dropped <> [] -> Z.of_nat (length retained) = limit)
    /\ (newestFirst (log :: before) ->
        forall r d, r ∈ retained -> d ∈ dropped -> executedAt d <= executedAt r).
Proof.
  intros limit before Hlimit.
  exists (take (Z.to_nat limit) (log :: before)), (drop (Z.to_nat limit) (log :: before)).
  assert (Hpos : exists n, Z.to_nat limit = S n) by (exists (Z.to_nat (limit - 1)); lia).
  destruct Hpos as [n Hn].
  repeat split.
  - unfold addLog. simpl. fold before. fold limit. by rewrite slice0_take by lia.
  - rewrite length_take. lia.
  - by rewrite Hn.
  - by rewrite take_drop.
  - intros Hfit. apply drop_ge. lia.
  - intros Hdrop. rewrite length_take.
    destruct (Nat.le_gt_cases (length (log :: before)) (Z.to_nat limit)) as [Hle|Hgt].
    + by rewrite drop_ge in Hdrop.
    + lia.
  - intros Hsorted r d Hr Hd. unfold newestFirst in Hsorted.
    rewrite <- (take_drop (Z.to_nat limit) (log :: before)) in Hsorted.
    by apply (StronglySorted_app_1_elem_of _ _ _ r d Hsorted).
Qed.

Lemma addLog_retention_witness :
  exists retained dropped,
    logs (addLog (entryAt 3)
            {| logs := Some [entryAt 2; entryAt 1];
               settings := Some {| maxLogs := 2; stepDelay := 500;
                                   elementTimeout := 10000;
                                   notifyOnComplete := true |} |}) = Some retained
    /\ retained = [entryAt 3; entryAt 2] /\ dropped = [entryAt 1].
Proof.
  destruct (addLog_retention (entryAt 3)
              {| logs := Some [entryAt 2; entryAt 1];
                 settings := Some {| maxLogs := 2; stepDelay := 500;
                                     elementTimeout := 10000;
                                     notifyOnComplete := true |} |})
    as (retained & dropped & Hlogs & _ & _ & Happ & _); [simpl; lia|].
  exists retained, dropped. split; [exact Hlogs|].
  vm_compute in Hlogs. injection Hlogs as <-.
  simpl in Happ. injection Happ as <-. done.
Defined.

(** *** setTaskSchedule *)





Section Calendar.

Variable zone : Zone.




End Calendar.


(** In a zone whose clocks never change every local time is read
    back. *)
Lemma fixedZone_readsBack offset local : readsBack (fixedZone offset) local.
Proof. unfold readsBack, LocalTime, UTC. simpl. lia. Qed.

(** Where the zone does not read the local time back: in New York the
    clocks go from 02:00 to 03:00 on the 10th of March 2024, so 02:30
    is no time of that day, and a schedule at 02:30 set at midnight is
    due at the instant that shows 03:30. *)
Example setTaskSchedule_in_a_gap :
  exists alarms' r due,
    setTaskSchedule newYork2024 1710046800000 "a"
      {| enabled := true; time := "02:30"; days := [] |} ∅
    = Some (alarms', r)
    /\ nextRun r = Some due
    /\ localDay newYork2024 due = localDay newYork2024 1710046800000
    /\ getHours newYork2024 due = 3 /\ getMinutes newYork2024 due = 30.
Proof.
  eexists _, _, 1710055800000. split; [vm_compute; reflexivity|].
  split; [reflexivity|]. vm_compute. by repeat split.
Qed.

End StorageFacts.

(** ** The executor *)

Module ExecutorFacts.

Import Executor ExecutorSpec.

(** *** What a run leaves in the trace *)

Lemma extends_refl w : extends w w.
Proof. exists []. by rewrite app_nil_r. Qed.

Lemma extends_trans w1 w2 w3 : extends w1 w2 -> extends w2 w3 -> extends w1 w3.
Proof.
  intros (e1 & H1 & F1) (e2 & H2 & F2). exists (e1 ++ e2).
  rewrite H2, H1, app_assoc. split; [done|]. by apply Forall_app.
Qed.

Lemma extends_emit e w : inner e = true -> extends w (emit e w).
Proof. intros He. exists [e]. split; [done|]. by constructor. Qed.

Lemma extends_tick page ms w : ms <> Config.stepDelay -> extends w (tick page ms w).
Proof.
  intros Hms. exists [Delay ms]. split; [done|]. constructor; [|done].
  simpl. apply negb_true_iff. by apply Z.eqb_neq.
Qed.

Lemma Quiet_ret {A} (a : A) : Quiet (mret a).
Proof. intros w. apply extends_refl. Qed.

Lemma Quiet_throw {A} e : Quiet (@throw A e).
Proof. intros w. apply extends_refl. Qed.

Lemma Quiet_bind {A B} (m : Act A) (f : A -> Act B) :
  Quiet m -> (forall a, Quiet (f a)) -> Quiet (m ≫= f).
Proof.
  intros Hm Hf w. unfold mbind, Act_bind. specialize (Hm w).
  destruct (m w) as [w1 [a|e]]; simpl in *; [|done].
  eapply extends_trans; [done|]. apply Hf.
Qed.

Lemma Quiet_do e : inner e = true -> Quiet (do e).
Proof. intros He w. by apply extends_emit. Qed.

Lemma Quiet_delay page ms : ms <> Config.stepDelay -> Quiet (delay page ms).
Proof. intros Hms w. by apply extends_tick. Qed.

(** Decompose a handler written with [≫=] into its steps. *)
Ltac quiet :=
  repeat first
    [ apply Quiet_bind; [|intros ?]
    | apply Quiet_do; reflexivity
    | apply Quiet_delay; unfold Config.stepDelay; lia
    | apply Quiet_ret
    | apply Quiet_throw
    | case_match ].

Section WithPage.

Variable page : Page.

Lemma Quiet_query css : Quiet (query page css).
Proof. intros w. by apply extends_emit. Qed.

Lemma Quiet_evaluate xpath : Quiet (evaluate page xpath).
Proof. intros w. by apply extends_emit. Qed.

Lemma Quiet_locate selector : Quiet (locate page selector).
Proof.
  unfold locate.
  repeat first [ apply Quiet_query | apply Quiet_evaluate | progress quiet ].
Qed.

Lemma pollGroups_extends groups : forall w, extends w (pollGroups page groups w).1.
Proof.
  induction groups as [|g groups IH]; intros w; simpl; [apply extends_refl|].
  pose proof (Quiet_locate (primary g) w) as Hl.
  destruct (locate page (primary g) w) as [w1 [[el|]|e]]; simpl in *; [done|..].
  - eapply extends_trans; [done|apply IH].
  - eapply extends_trans; [done|]. eapply extends_trans; [|apply IH].
    by apply extends_emit.
Qed.

Lemma findLoop_extends groups startTime timeout w :
  extends w (findLoop page groups startTime timeout w).1.
Proof.
  funelim (findLoop page groups startTime timeout w); simpl.
  - apply extends_refl.
  - pose proof (pollGroups_extends groups w) as Hp.
    by match goal with E : pollGroups _ _ _ = _ |- _ => rewrite E in Hp end.
  - pose proof (pollGroups_extends groups w) as Hp.
    match goal with E : pollGroups _ _ _ = _ |- _ => rewrite E in Hp end.
    simpl in Hp. eapply extends_trans; [done|].
    eapply extends_trans;
      [|by match goal with IH : extends (tick _ _ _) _ |- _ => apply IH end].
    apply extends_tick. unfold Config.stepDelay. lia.
Qed.

Lemma Quiet_findElement selectors timeout : Quiet (findElement page selectors timeout).
Proof.
  intros w. unfold findElement.
  repeat case_match; simpl; try apply extends_refl.
  match goal with E : findLoop _ ?g ?s ?t ?w0 = _ |- _ =>
    pose proof (findLoop_extends g s t w0) as Hf; by rewrite E in Hf end.
Qed.

Lemma Quiet_dispatchKey name key : Quiet (dispatchKey page name key).
Proof.
  intros w. unfold dispatchKey. case_match; simpl;
    [by apply extends_emit|apply extends_refl].
Qed.

Lemma expressionLoop_extends expression startTime timeout w :
  extends w (expressionLoop page expression startTime timeout w).1.
Proof.
  funelim (expressionLoop page expression startTime timeout w); simpl.
  - apply extends_refl.
  - apply (extends_trans _ (emit (RunExpression expression) w)); by apply extends_emit.
  - match goal with IH : extends (tick _ ?ms ?w1) _ |- extends ?w0 _ =>
      apply (extends_trans w0 (tick page ms w1)); [|exact IH];
      apply (extends_trans w0 w1); [by apply extends_emit|];
      apply extends_tick; unfold Config.stepDelay; lia
    end.
  - match goal with IH : extends (tick _ ?ms ?w1) _ |- extends ?w0 _ =>
      apply (extends_trans w0 (tick page ms w1)); [|exact IH];
      apply (extends_trans w0 w1); [by apply extends_emit|];
      apply extends_tick; unfold Config.stepDelay; lia
    end.
Qed.

Lemma Quiet_handleWaitForExpression step : Quiet (handleWaitForExpression page step).
Proof.
  intros w. unfold handleWaitForExpression. repeat case_match; simpl;
    first [apply expressionLoop_extends|apply extends_refl].
Qed.

(** A step handler adds only handler events to the trace: none of the
    loop's console lines, and no wait of the pacing length. *)
Lemma Quiet_executeStep step : Quiet (executeStep page step).
Proof.
  unfold executeStep, handleNavigate, handleClick, handleDoubleClick, handleChange,
    handleKeyDown, handleKeyUp, handleScroll, handleHover, handleWaitForElement.
  repeat first
    [ apply Quiet_findElement | apply Quiet_dispatchKey
    | apply Quiet_handleWaitForExpression | progress quiet ].
Qed.

(** *** The shape of a run *)

Lemma runnerView_app l1 l2 : runnerView (l1 ++ l2) = runnerView l1 ++ runnerView l2.
Proof. apply filter_app. Qed.

Lemma runnerView_inner evs :
  Forall (fun e => inner e = true) evs -> runnerView evs = [].
Proof.
  induction 1 as [|e evs He _ IH]; [done|].
  unfold runnerView in *. rewrite filter_cons, IH.
  case_decide as Hr; [|done].
  exfalso. destruct e; simpl in *; try discriminate.
  rewrite Hr in He. discriminate.
Qed.

Lemma runnerView_afterStep policy total i o :
  runnerView (afterStep policy total i o) = afterStep policy total i o.
Proof. destruct o; simpl; repeat case_match; reflexivity. Qed.

(** What [executeStep] made of a step decides the attempt's outcome and
    the state the loop goes on in. *)
Lemma attempt_returned policy total i step w w1 :
  executeStep page step w = (w1, Ok tt) ->
  let a := {| position := i; stepOf := step; before := w |} in
  outcome page a = Returned
  /\ resume page policy total a
     = if (i <? total - 1)%nat then tick page Config.stepDelay w1 else w1.
Proof.
  intros Hstep a. unfold outcome, resume, errorOf, after, result. simpl.
  by rewrite Hstep.
Qed.

Lemma attempt_threw policy total i step w w1 error :
  executeStep page step w = (w1, Throw error) ->
  let a := {| position := i; stepOf := step; before := w |} in
  outcome page a = Threw error
  /\ resume page policy total a
     = emit (if String.eqb policy "continue"
             then WarnStepIgnored i (Js.message error)
             else ErrorStepFailed i (Js.message error)) w1.
Proof.
  intros Hstep a. unfold outcome, resume, errorOf, after, result. simpl.
  by rewrite Hstep.
Qed.

(** The loop attempts the steps in order, each by a call of
    [executeStep] in the state the loop has reached; between the
    console line of a step and what follows it, only the handler's
    events occur. *)
Lemma runLoop_shape policy total steps : forall i st w,
  exists attempts evs,
    chained page policy total w attempts (runLoop page policy total i steps st w).2
    /\ stepOf <$> attempts = take (length attempts) steps
    /\ position <$> attempts = seq i (length attempts)
    /\ trace (runLoop page policy total i steps st w).2 = trace w ++ evs
    /\ runnerView evs = blocks policy total i steps (outcome page <$> attempts)
    /\ fits policy steps (outcome page <$> attempts)
    /\ (runLoop page policy total i steps st w).1
       = foldl (record policy) st (outcome page <$> attempts).
Proof.
  induction steps as [|step steps IH]; intros i st w; simpl.
  { exists [], []. simpl. by rewrite app_nil_r. }
  pose proof (Quiet_executeStep step (emit (LogStep i total (field step "type")) w))
    as (inner_evs & Hinner & Hquiet).
  destruct (executeStep page step _) as [w1 [[]|error]] eqn:Hstep; simpl in Hinner.
  - destruct (attempt_returned policy total i step _ _ Hstep) as [Hout Hresume].
    match goal with |- context [runLoop page policy total (S i) steps ?st1 ?w2] =>
      destruct (IH (S i) st1 w2)
        as (attempts & evs & Hchain & Hsteps & Hpos & Htrace & Hview & Hfits & Hstate) end.
    eexists ({| position := i; stepOf := step;
                before := emit (LogStep i total (field step "type")) w |} :: attempts).
    eexists (LogStep i total (field step "type") :: inner_evs
             ++ afterStep policy total i Returned ++ evs).
    rewrite !fmap_cons, !Hout.
    split; [|split; [|split; [|split; [|split; [|split]]]]]; try done.
    + simpl. split; [done|]. by rewrite Hresume.
    + simpl. by rewrite Hsteps.
    + simpl. by rewrite Hpos.
    + rewrite Htrace. simpl. case_match; simpl; rewrite Hinner; simpl;
        by rewrite <- ?app_assoc.
    + simpl blocks. rewrite <- Hview.
      change (LogStep i total (field step "type") :: ?l) with ([LogStep i total (field step "type")] ++ l).
      rewrite !runnerView_app, (runnerView_inner inner_evs Hquiet).
      by rewrite runnerView_afterStep.
  - destruct (attempt_threw policy total i step _ _ _ Hstep) as [Hout Hresume].
    destruct (String.eqb policy "continue") eqn:Hpol.
    + match goal with |- context [runLoop page policy total (S i) steps ?st1 ?w2] =>
        destruct (IH (S i) st1 w2)
          as (attempts & evs & Hchain & Hsteps & Hpos & Htrace & Hview & Hfits & Hstate) end.
      eexists ({| position := i; stepOf := step;
                  before := emit (LogStep i total (field step "type")) w |} :: attempts).
      eexists (LogStep i total (field step "type") :: inner_evs
               ++ afterStep policy total i (Threw error) ++ evs).
      rewrite !fmap_cons, !Hout.
      split; [|split; [|split; [|split; [|split; [|split]]]]].
      * simpl. split; [done|]. by rewrite Hresume.
      * simpl. by rewrite Hsteps.
      * simpl. by rewrite Hpos.
      * rewrite Htrace. simpl. rewrite Hinner, ?Hpol. simpl. by rewrite <- ?app_assoc.
      * simpl blocks. rewrite <- Hview.
        change (LogStep i total (field step "type") :: ?l) with ([LogStep i total (field step "type")] ++ l).
        rewrite !runnerView_app, (runnerView_inner inner_evs Hquiet).
        by rewrite runnerView_afterStep.
      * simpl. by rewrite ?Hpol.
      * rewrite Hstate. simpl. by rewrite ?Hpol.
    + eexists [{| position := i; stepOf := step;
                  before := emit (LogStep i total (field step "type")) w |}].
      eexists (LogStep i total (field step "type") :: inner_evs
               ++ afterStep policy total i (Threw error)).
      rewrite !list_fmap_singleton, !Hout.
      split; [|split; [|split; [|split; [|split; [|split]]]]].
      * simpl. split; [done|]. by rewrite Hresume.
      * done.
      * done.
      * simpl. rewrite Hinner, ?Hpol. simpl. by rewrite <- ?app_assoc.
      * change (LogStep i total (field step "type") :: ?l) with ([LogStep i total (field step "type")] ++ l).
        rewrite !runnerView_app, (runnerView_inner inner_evs Hquiet).
        rewrite runnerView_afterStep. simpl. rewrite ?Hpol.
        destruct steps; by rewrite ?app_nil_r.
      * simpl. by rewrite ?Hpol.
      * simpl. by rewrite ?Hpol.
Qed.

Lemma attempted_app l1 l2 : attempted (l1 ++ l2) = attempted l1 ++ attempted l2.
Proof. apply omap_app. Qed.

Lemma failures_app l1 l2 : failures (l1 ++ l2) = failures l1 ++ failures l2.
Proof. apply omap_app. Qed.

Lemma attempted_runnerView evs : attempted (runnerView evs) = attempted evs.
Proof.
  induction evs as [|e evs IH]; [done|].
  unfold runnerView in *. rewrite filter_cons.
  case_decide as Hr; simpl; rewrite IH; [done|].
  destruct e; simpl in *; done.
Qed.

Lemma failures_runnerView evs : failures (runnerView evs) = failures evs.
Proof.
  induction evs as [|e evs IH]; [done|].
  unfold runnerView in *. rewrite filter_cons.
  case_decide as Hr; simpl; rewrite IH; [done|].
  destruct e; simpl in *; done.
Qed.

Lemma attempted_afterStep policy total i o : attempted (afterStep policy total i o) = [].
Proof. destruct o; simpl; repeat case_match; reflexivity. Qed.

Lemma failures_afterStep policy total i o :
  failures (afterStep policy total i o) = if didThrow o then [i] else [].
Proof. destruct o; simpl; repeat case_match; reflexivity. Qed.

Lemma attempted_blocks policy total steps : forall i outs,
  fits policy steps outs ->
  attempted (blocks policy total i steps outs) = seq i (length outs).
Proof.
  induction steps as [|step steps IH]; intros i [|o outs] Hfits; simpl in *; try done.
  rewrite attempted_app, attempted_afterStep. simpl. f_equal.
  destruct o; [by apply IH|].
  destruct (String.eqb policy "continue"); [by apply IH|].
  subst outs. by destruct steps.
Qed.

Lemma failures_blocks policy total steps : forall i outs,
  fits policy steps outs ->
  failures (blocks policy total i steps outs) = failedAt i outs.
Proof.
  induction steps as [|step steps IH]; intros i [|o outs] Hfits; simpl in *; try done.
  rewrite failures_app, failures_afterStep.
  destruct o; simpl; [by apply IH|]. f_equal.
  destruct (String.eqb policy "continue"); [by apply IH|].
  subst outs. by destruct steps.
Qed.

Lemma fits_length policy steps : forall outs,
  fits policy steps outs -> (length outs <= length steps)%nat.
Proof.
  induction steps as [|step steps IH]; intros [|o outs] Hfits; simpl in *; try done; try lia.
  destruct o; [apply IH in Hfits; lia|].
  destruct (String.eqb policy "continue"); [apply IH in Hfits; lia|].
  subst outs. simpl. lia.
Qed.

Lemma fits_continue steps : forall outs,
  fits "continue" steps outs -> length outs = length steps.
Proof.
  induction steps as [|step steps IH]; intros [|o outs] Hfits; simpl in *; try done.
  destruct o; f_equal; by apply IH.
Qed.

(** Under a policy other than [continue], either no step threw and all
    were attempted, or exactly one did and it was the last attempted. *)
Lemma fits_stop policy steps : String.eqb policy "continue" = false ->
  forall i outs, fits policy steps outs ->
  (failedAt i outs = [] /\ length outs = length steps)
  \/ (exists k, failedAt i outs = [(i + k)%nat] /\ length outs = S k
                /\ (k < length steps)%nat).
Proof.
  intros Hpol. induction steps as [|step steps IH]; intros i [|o outs] Hfits;
    simpl in *; try done; [by left|].
  destruct o.
  - destruct (IH (S i) outs Hfits) as [[Hnone Hlen]|(k & Hone & Hlen & Hk)].
    + left. split; [done|]. by rewrite Hlen.
    + right. exists (S k). rewrite Hone, Hlen. repeat split; [f_equal; lia|lia].
  - rewrite Hpol in Hfits. subst outs. right. exists 0%nat. simpl.
    repeat split; [f_equal; lia|lia].
Qed.

Lemma completed_foldl policy outs : forall i st,
  (completed (foldl (record policy) st outs) + length (failedAt i outs)
   = completed st + length outs)%nat.
Proof.
  induction outs as [|o outs IH]; intros i st; simpl; [lia|].
  pose proof (IH (S i) (record policy st o)) as Hrest.
  destruct o; simpl in *; lia.
Qed.

Lemma lastError_foldl policy outs : forall i st,
  lastError (foldl (record policy) st outs) = None
  <-> lastError st = None /\ failedAt i outs = [].
Proof.
  induction outs as [|o outs IH]; intros i st; simpl.
  - split; [by intros ->|by intros [-> _]].
  - destruct o; rewrite (IH (S i)); simpl; [done|].
    split; intros [? ?]; discriminate.
Qed.

Lemma hasFailedSteps_foldl policy outs : forall i st,
  hasFailedSteps (foldl (record policy) st outs)
  = hasFailedSteps st || (String.eqb policy "continue" && anyFailed i outs).
Proof.
  unfold anyFailed.
  induction outs as [|o outs IH]; intros i st; simpl.
  - by rewrite andb_false_r, orb_false_r.
  - destruct o; rewrite (IH (S i)); simpl; [done|].
    destruct (String.eqb policy "continue"), (hasFailedSteps st),
      (failedAt (S i) outs); done.
Qed.

(** The indices of the outcomes that threw are the positions of the
    attempts that failed. *)
Lemma failedAt_failed attempts : forall i,
  position <$> attempts = seq i (length attempts) ->
  failedAt i (outcome page <$> attempts) = position <$> failed page attempts.
Proof.
  induction attempts as [|a attempts IH]; intros i Hpos; [done|].
  simpl in Hpos. injection Hpos as Hi Hpos.
  unfold failed in *. rewrite fmap_cons, filter_cons.
  assert (Hthrew : threw page a = didThrow (outcome page a)) by done.
  destruct (outcome page a) eqn:Hout; simpl in *.
  - rewrite decide_False by (by rewrite Hthrew). by apply IH.
  - rewrite decide_True by done. rewrite fmap_cons, Hi. f_equal. by apply IH.
Qed.

Lemma threw_lookup attempts k a :
  attempts !! k = Some a -> threw page a = true -> a ∈ failed page attempts.
Proof.
  intros Hk Ht. unfold failed. apply list_elem_of_filter. split; [done|].
  by eapply list_elem_of_lookup_2.
Qed.

(** [executeSteps] as a whole: the attempts it is made of, the events of
    the run, the loop's view of them, and the result in terms of the
    outcomes of the attempts. *)
Lemma executeSteps_shape steps taskId taskName policy w :
  exists attempts evs,
    let run := executeSteps page steps taskId taskName policy w in
    let outs := outcome page <$> attempts in
    let st := foldl (record policy) initial outs in
    ran page policy steps taskId taskName w attempts run
    /\ trace run.1 = trace w ++ evs
    /\ runnerView evs = blocks policy (length steps) 0 steps outs
    /\ fits policy steps outs
    /\ totalSteps run.2 = length steps
    /\ completedSteps run.2 = completed st
    /\ status run.2 =
         (if bool_decide (is_Some (lastError st)) && String.eqb policy "stop" then FAILED
          else if hasFailedSteps st then PARTIAL
          else if (completed st <? length steps)%nat then PARTIAL
          else SUCCESS)
    /\ message run.2 = match lastError st with
                       | Some e => Js.message e
                       | None => "执行完成"
                       end
    /\ duration run.2 = now run.1 - now w.
Proof.
  unfold executeSteps, ran.
  destruct (runLoop_shape policy (length steps) steps 0 initial
              (emit (LogStart (length steps) policy) w))
    as (attempts & evs & Hchain & Hsteps & Hpos & Htrace & Hview & Hfits & Hstate).
  fold initial.
  destruct (runLoop page policy (length steps) 0 steps initial _) as [st' w'].
  simpl in *. subst st'.
  exists attempts. eexists (LogStart (length steps) policy :: evs ++ [SendResult _ _ _ _ _]).
  split; [|split; [|split; [|split; [|split; [|split; [|split; [|split]]]]]]]; try done.
  - by exists w'.
  - rewrite Htrace. by rewrite <- !app_assoc.
  - change (LogStart (length steps) policy :: ?l)
      with ([LogStart (length steps) policy] ++ l).
    rewrite !runnerView_app, Hview. simpl. by rewrite app_nil_r.
Qed.

(** The loop's own lines name the attempts: a line for each, a failure
    line for each that threw. *)
Lemma run_lines steps policy attempts evs :
  position <$> attempts = seq 0 (length attempts) ->
  runnerView evs = blocks policy (length steps) 0 steps (outcome page <$> attempts) ->
  fits policy steps (outcome page <$> attempts) ->
  attempted evs = position <$> attempts
  /\ failures evs = position <$> failed page attempts.
Proof.
  intros Hpos Hview Hfits. split.
  - rewrite <- attempted_runnerView, Hview, (attempted_blocks _ _ _ _ _ Hfits).
    by rewrite length_fmap, Hpos.
  - rewrite <- failures_runnerView, Hview, (failures_blocks _ _ _ _ _ Hfits).
    by apply failedAt_failed.
Qed.

Lemma position_lookup attempts : forall i k a,
  position <$> attempts = seq i (length attempts) ->
  attempts !! k = Some a -> position a = (i + k)%nat.
Proof.
  induction attempts as [|x attempts IH]; intros i k a Hpos Hk; [done|].
  simpl in Hpos. injection Hpos as Hi Hpos.
  destruct k as [|k]; simpl in Hk.
  - injection Hk as <-. lia.
  - rewrite (IH (S i) k a Hpos Hk). lia.
Qed.

(** In a chain, an attempt is entered right after its console line,
    written in the state the loop went on in after the attempt before. *)
Lemma chained_next policy total attempts : forall w w' k a b,
  chained page policy total w attempts w' ->
  attempts !! k = Some a -> attempts !! S k = Some b ->
  before b = emit (LogStep (position b) total (field (stepOf b) "type"))
               (resume page policy total a).
Proof.
  induction attempts as [|x attempts IH]; intros w w' k a b Hchain Ha Hb; [done|].
  destruct Hchain as [_ Hchain].
  destruct k as [|k]; simpl in Ha, Hb.
  - injection Ha as <-. destruct attempts as [|y attempts]; [done|].
    injection Hb as <-. by destruct Hchain as [Hy _].
  - by apply (IH _ w' k a b Hchain).
Qed.

(** The failure recorded last is the error of the last attempt that
    failed. *)
Lemma lastError_failed policy attempts : forall st,
  lastError (foldl (record policy) st (outcome page <$> attempts))
  = match last (failed page attempts) with
    | Some a => errorOf page a
    | None => lastError st
    end.
Proof.
  unfold failed.
  induction attempts as [|a attempts IH]; intros st; [done|].
  rewrite fmap_cons, filter_cons.
  change (foldl (record policy) st (outcome page a :: (outcome page <$> attempts)))
    with (foldl (record policy) (record policy st (outcome page a))
            (outcome page <$> attempts)).
  rewrite IH.
  assert (Hthrew : threw page a = didThrow (outcome page a)) by done.
  unfold outcome in *.
  destruct (errorOf page a) as [e|] eqn:He; simpl in *.
  - rewrite decide_True by done.
    destruct (filter _ attempts) as [|b l] eqn:Hl; simpl; [by rewrite He|].
    destruct (last (b :: l)) eqn:Hlast; [done|]. by apply last_None in Hlast.
  - by rewrite decide_False by (by rewrite Hthrew).
Qed.

(** Under a policy other than [continue], an attempt that threw is the
    only one to fail and the last of the run. *)
Lemma first_failure_is_last policy steps attempts evs :
  String.eqb policy "continue" = false ->
  stepOf <$> attempts = take (length attempts) steps ->
  position <$> attempts = seq 0 (length attempts) ->
  runnerView evs = blocks policy (length steps) 0 steps (outcome page <$> attempts) ->
  fits policy steps (outcome page <$> attempts) ->
  failed page attempts <> [] ->
  exists k a,
    attempts !! k = Some a /\ threw page a = true
    /\ steps !! k = Some (stepOf a)
    /\ failed page attempts = [a]
    /\ length attempts = S k
    /\ failures evs = [k]
    /\ attempted evs = seq 0 (S k)
    /\ (k < length steps)%nat
    /\ completed (foldl (record policy) initial (outcome page <$> attempts)) = k
    /\ is_Some (lastError (foldl (record policy) initial (outcome page <$> attempts))).
Proof.
  intros Hpol Hsteps Hpos Hview Hfits Hsome.
  destruct (run_lines steps policy attempts evs Hpos Hview Hfits) as [Hatt Hfail].
  pose proof (completed_foldl policy (outcome page <$> attempts) 0 initial) as Hcount.
  pose proof (failedAt_failed attempts 0 Hpos) as Hfailed.
  destruct (fits_stop policy steps Hpol 0 _ Hfits)
    as [[Hnone _]|(k & Hone & Hlen & Hk)].
  { rewrite Hfailed in Hnone. by destruct (failed page attempts). }
  rewrite length_fmap in Hlen.
  rewrite Hfailed in Hone. simpl in Hone.
  destruct (failed page attempts) as [|a [|a' l]] eqn:Hlist; try discriminate.
  injection Hone as Hposa.
  assert (Hin : a ∈ failed page attempts) by (rewrite Hlist; set_solver).
  unfold failed in Hin. apply list_elem_of_filter in Hin as [Hthrew Hin].
  apply list_elem_of_lookup_1 in Hin as [j Hj].
  pose proof (position_lookup attempts 0 j a Hpos Hj) as Hpj. simpl in Hpj.
  replace j with k in Hj by lia.
  exists k, a. split; [done|]. split; [done|]. split.
  { assert (Hk' : (stepOf <$> attempts) !! k = Some (stepOf a))
      by (by rewrite list_lookup_fmap, Hj).
    rewrite Hsteps, lookup_take_lt in Hk' by lia. done. }
  split; [done|]. split; [done|].
  rewrite Hfail, Hatt, Hpos, Hlen. simpl. rewrite Hposa.
  split; [done|]. split; [done|]. split; [done|].
  rewrite Hfailed, !length_fmap, Hlen in Hcount. simpl in Hcount.
  split; [lia|].
  apply not_eq_None_Some. intros Hnone.
  apply (lastError_foldl policy _ 0) in Hnone as [_ Hnone].
  by rewrite Hfailed in Hnone.
Qed.

(** When no attempt threw, every step was attempted and completed. *)
Lemma no_failure_all_done policy steps attempts :
  stepOf <$> attempts = take (length attempts) steps ->
  position <$> attempts = seq 0 (length attempts) ->
  fits policy steps (outcome page <$> attempts) ->
  failed page attempts = [] ->
  length attempts = length steps
  /\ stepOf <$> attempts = steps
  /\ completed (foldl (record policy) initial (outcome page <$> attempts)) = length steps
  /\ lastError (foldl (record policy) initial (outcome page <$> attempts)) = None
  /\ hasFailedSteps (foldl (record policy) initial (outcome page <$> attempts)) = false.
Proof.
  intros Hsteps Hpos Hfits Hnone.
  pose proof (completed_foldl policy (outcome page <$> attempts) 0 initial) as Hcount.
  pose proof (failedAt_failed attempts 0 Hpos) as Hfailed.
  rewrite Hnone in Hfailed. simpl in Hfailed.
  rewrite Hfailed, length_fmap in Hcount. simpl in Hcount.
  assert (Hlen : length attempts = length steps).
  { destruct (String.eqb policy "continue") eqn:Hpol.
    - apply String.eqb_eq in Hpol. subst policy.
      pose proof (fits_continue _ _ Hfits) as Hl. by rewrite length_fmap in Hl.
    - destruct (fits_stop policy steps Hpol 0 _ Hfits) as [[_ Hl]|(k & Hone & _)].
      + by rewrite length_fmap in Hl.
      + rewrite Hfailed in Hone. discriminate. }
  split; [done|]. split; [by rewrite Hsteps, Hlen, firstn_all|].
  split; [lia|]. split.
  - apply (lastError_foldl policy _ 0). by rewrite Hfailed.
  - rewrite (hasFailedSteps_foldl policy _ 0). unfold anyFailed. rewrite Hfailed.
    simpl. by rewrite andb_false_r.
Qed.

End WithPage.

(** *** C1: the [continue] policy *)

(** C1 (counterexample).  The scenario of the specification, [click]
    failing and [change] succeeding under [continue]: both steps are
    attempted and the status is [partial], but [completedSteps] is 1,
    not 2. *)
Lemma continue_counts_successes_only :
  let run := executeSteps onlyA [clickNothing; changeA] "task" "name" "continue" start in
  attempted (trace run.1) = [0; 1]%nat
  /\ failures (trace run.1) = [0%nat]
  /\ status run.2 = PARTIAL
  /\ totalSteps run.2 = 2%nat
  /\ completedSteps run.2 = 1%nat
  /\ completedSteps run.2 <> totalSteps run.2.
Proof. vm_compute. repeat split; congruence. Qed.

(** C1 (amended).  Under the [continue] policy the run is made of one
    attempt for each step, in order, each a call of [executeStep] in
    the state the loop has reached; [totalSteps] is the number of steps
    and [completedSteps] the number of attempts in which [executeStep]
    did not throw (so the two are equal exactly when none threw); the
    status is [partial] if and only if at least one attempt threw, and
    [success] otherwise.  The failures the loop writes to the console
    are those of the attempts that threw. *)
Theorem executeSteps_continue (page : Page) (steps : list Step)
    (taskId taskName : string) (w : World) :
  let run := executeSteps page steps taskId taskName "continue" w in
  exists attempts evs,
    ran page "continue" steps taskId taskName w attempts run
    /\ stepOf <$> attempts = steps
    /\ position <$> attempts = seq 0 (length steps)
    /\ trace run.1 = trace w ++ evs
    /\ attempted evs = seq 0 (length steps)
    /\ failures evs = position <$> failed page attempts
    /\ totalSteps run.2 = length steps
    /\ (completedSteps run.2 + length (failed page attempts) = totalSteps run.2)%nat
    /\ (status run.2 = PARTIAL <-> failed page attempts <> [])
    /\ (status run.2 = SUCCESS <-> failed page attempts = []).
Proof.
  intros run.
  destruct (executeSteps_shape page steps taskId taskName "continue" w)
    as (attempts & evs & Hran & Htrace & Hview & Hfits & Htotal & Hdone & Hstatus & _).
  fold run in Hran, Htrace, Htotal, Hdone, Hstatus.
  exists attempts, evs. split; [done|].
  pose proof (fits_continue _ _ Hfits) as Hlen. rewrite length_fmap in Hlen.
  destruct Hran as (w' & _ & _ & Hsteps & Hpos).
  rewrite Hlen in Hsteps, Hpos. rewrite firstn_all in Hsteps.
  destruct (run_lines page steps "continue" attempts evs) as [Hatt Hfail];
    [by rewrite Hlen|done..|].
  split; [done|]. split; [done|]. split; [done|]. split; [by rewrite Hatt|].
  split; [done|]. split; [done|].
  pose proof (completed_foldl "continue" (outcome page <$> attempts) 0 initial) as Hcount.
  rewrite (hasFailedSteps_foldl "continue" _ 0) in Hstatus.
  unfold anyFailed in Hstatus.
  rewrite (failedAt_failed page attempts 0) in Hcount, Hstatus by (by rewrite Hlen).
  rewrite !length_fmap in Hcount. simpl in Hstatus, Hcount.
  rewrite andb_false_r in Hstatus.
  rewrite Htotal, Hdone, Hstatus.
  split; [lia|].
  destruct (failed page attempts) as [|a l] eqn:Hk; simpl in *.
  - assert (Hall : (completed (foldl (record "continue") initial (outcome page <$> attempts))
                    <? length steps)%nat = false) by (apply Nat.ltb_ge; lia).
    rewrite Hall. split; split; done.
  - split; split; done.
Qed.

(** On a page where only [#a] matches, a click without a target and a
    change of [#a]: the click is the one attempt that threw. *)
Lemma executeSteps_continue_witness :
  let run := executeSteps onlyA [clickNothing; changeA] "task" "name" "continue" start in
  exists attempts,
    ran onlyA "continue" [clickNothing; changeA] "task" "name" start attempts run
    /\ stepOf <$> attempts = [clickNothing; changeA]
    /\ position <$> failed onlyA attempts = [0%nat]
    /\ status run.2 = PARTIAL /\ completedSteps run.2 = 1%nat.
Proof.
  intros run.
  destruct (executeSteps_continue onlyA [clickNothing; changeA] "task" "name" start)
    as (attempts & evs & Hran & Hsteps & _ & Htrace & _ & Hfail & _ & Hcount & Hpartial & _).
  exists attempts. split; [exact Hran|]. split; [exact Hsteps|].
  fold run in Htrace, Hfail, Hcount, Hpartial.
  vm_compute in Htrace. subst evs.
  change (failures _) with [0%nat] in Hfail.
  split; [by rewrite <- Hfail|]. split.
  - apply Hpartial. intros Hnone. rewrite Hnone in Hfail. discriminate Hfail.
  - vm_compute. reflexivity.
Defined.

(** *** C2: the [stop] policy *)



(** The failing step may be the last one. *)
Example stop_on_last_step :
  let run := executeSteps onlyA [changeA; clickNothing] "task" "name" "stop" start in
  status run.2 = FAILED /\ completedSteps run.2 = 1%nat /\ totalSteps run.2 = 2%nat.
Proof. vm_compute. done. Qed.

(** *** C5: pacing under the [continue] policy *)

Lemma blocks_head total i steps outs :
  fits "continue" steps outs -> steps <> [] ->
  exists ty l, blocks "continue" total i steps outs = LogStep i total ty :: l.
Proof.
  destruct steps as [|step steps], outs as [|o outs]; simpl; try done.
  intros _ _. eauto.
Qed.

(** In the loop's view, the warning of a failed step that is not the
    last is directly followed by the line of the next step. *)
Lemma blocks_after_warning total steps : forall i outs l1 j msg l2,
  fits "continue" steps outs -> (i + length steps = total)%nat ->
  blocks "continue" total i steps outs = l1 ++ WarnStepIgnored j msg :: l2 ->
  (S j < total)%nat ->
  exists ty l3, l2 = LogStep (S j) total ty :: l3.
Proof.
  induction steps as [|step steps IH]; intros i [|o outs] l1 j msg l2 Hfits Htotal Heq Hj;
    simpl in Heq, Hfits; try (by destruct l1).
  destruct l1 as [|x l1]; simpl in Heq; [discriminate|].
  injection Heq as _ Heq. simpl in Htotal.
  assert (Hrest : fits "continue" steps outs) by (by destruct o).
  destruct o; simpl in Heq.
  - destruct (i <? total - 1)%nat; simpl in Heq.
    + destruct l1 as [|y l1]; simpl in Heq; [discriminate|].
      injection Heq as _ Heq. eapply (IH (S i)); eauto; lia.
    + eapply (IH (S i)); eauto; lia.
  - destruct l1 as [|y l1]; simpl in Heq.
    + injection Heq as -> _ Heq. subst l2.
      apply blocks_head; [done|]. destruct steps; simpl in *; [lia|done].
    + injection Heq as _ Heq. eapply (IH (S i)); eauto; lia.
Qed.

(** A pacing delay stands directly between the line of a step and the
    line of the next: no warning precedes it, the step returned. *)
Lemma blocks_around_delay total steps : forall i outs l1 l2,
  fits "continue" steps outs -> (i + length steps = total)%nat ->
  blocks "continue" total i steps outs = l1 ++ Delay Config.stepDelay :: l2 ->
  exists l0 j ty ty' l3,
    l1 = l0 ++ [LogStep j total ty] /\ l2 = LogStep (S j) total ty' :: l3.
Proof.
  induction steps as [|step steps IH]; intros i [|o outs] l1 l2 Hfits Htotal Heq;
    simpl in Heq, Hfits; try (by destruct l1).
  destruct l1 as [|x l1]; simpl in Heq; [discriminate|].
  injection Heq as Hx Heq. subst x. simpl in Htotal.
  assert (Hrest : fits "continue" steps outs) by (by destruct o).
  assert (Hdeeper : forall l1', blocks "continue" total (S i) steps outs
                                = l1' ++ Delay Config.stepDelay :: l2 ->
            forall pre, exists l0 j ty ty' l3,
              LogStep i total (field step "type") :: pre ++ l1'
                = l0 ++ [LogStep j total ty] /\ l2 = LogStep (S j) total ty' :: l3).
  { intros l1' Heq' pre.
    destruct (IH (S i) outs l1' l2 Hrest ltac:(lia) Heq') as (l0 & j & ty & ty' & l3 & -> & ->).
    exists (LogStep i total (field step "type") :: pre ++ l0), j, ty, ty', l3.
    split; [|done]. simpl. by rewrite <- app_assoc. }
  destruct o; simpl in Heq.
  - destruct (i <? total - 1)%nat eqn:Hlast; simpl in Heq.
    + destruct l1 as [|y l1]; simpl in Heq.
      * injection Heq as Heq. subst l2.
        apply Nat.ltb_lt in Hlast.
        destruct (blocks_head total (S i) steps outs Hrest) as (ty' & l3 & ->).
        { destruct steps; simpl in *; [lia|done]. }
        by exists [], i, (field step "type"), ty', l3.
      * injection Heq as Hy Heq. subst y. apply (Hdeeper l1 Heq [Delay Config.stepDelay]).
    + apply (Hdeeper l1 Heq []).
  - destruct l1 as [|y l1]; simpl in Heq; [discriminate|].
    injection Heq as Hy Heq. subst y.
    apply (Hdeeper l1 Heq [WarnStepIgnored i (Js.message e)]).
Qed.

(** The line of a step that is not the last is directly followed by its
    warning, if it failed, and by the pacing delay otherwise. *)
Lemma blocks_after_step total steps : forall i outs l1 j ty l2,
  fits "continue" steps outs -> (i + length steps = total)%nat ->
  blocks "continue" total i steps outs = l1 ++ LogStep j total ty :: l2 ->
  (S j < total)%nat ->
  (exists msg l3, l2 = WarnStepIgnored j msg :: l3)
  \/ (exists l3, l2 = Delay Config.stepDelay :: l3).
Proof.
  induction steps as [|step steps IH]; intros i [|o outs] l1 j ty l2 Hfits Htotal Heq Hj;
    simpl in Heq, Hfits; try (by destruct l1).
  simpl in Htotal.
  assert (Hrest : fits "continue" steps outs) by (by destruct o).
  destruct l1 as [|x l1]; simpl in Heq.
  - injection Heq as -> _ Heq. subst l2.
    destruct o; simpl.
    + right. assert (Hlast : (j <? total - 1)%nat = true) by (apply Nat.ltb_lt; lia).
      rewrite Hlast. simpl. eauto.
    + left. eauto.
  - injection Heq as _ Heq.
    destruct o; simpl in Heq.
    + destruct (i <? total - 1)%nat; simpl in Heq.
      * destruct l1 as [|y l1]; simpl in Heq; [discriminate|].
        injection Heq as _ Heq. eapply (IH (S i)); eauto; lia.
      * eapply (IH (S i)); eauto; lia.
    + destruct l1 as [|y l1]; simpl in Heq; [discriminate|].
      injection Heq as _ Heq. eapply (IH (S i)); eauto; lia.
Qed.

(** C5 (counterexample).  Under [continue], a first step that fails is
    followed by the second step at once: the run holds no delay at all
    and the clock has not moved, whereas after a first step that
    succeeds the pacing delay of 500 ms is held. *)
Lemma no_pacing_after_failed_step :
  let failing := executeSteps neverMatches [clickNothing; navigateX]
                   "task" "name" "continue" start in
  let passing := executeSteps neverMatches [navigateX; navigateX]
                   "task" "name" "continue" start in
  runnerView (trace failing.1)
    = [ LogStep 0 2 (JStr "click"); WarnStepIgnored 0 "找不到点击目标元素";
        LogStep 1 2 (JStr "navigate") ]
  /\ (Delay Config.stepDelay ∉ trace failing.1)
  /\ now failing.1 = now start
  /\ runnerView (trace passing.1)
     = [ LogStep 0 2 (JStr "navigate"); Delay Config.stepDelay;
         LogStep 1 2 (JStr "navigate") ]
  /\ now passing.1 = now start + Config.stepDelay.
Proof.
  vm_compute. repeat split; try reflexivity.
  intros Hin. repeat (apply elem_of_cons in Hin as [Hin|Hin]; [discriminate Hin|]).
  by apply elem_of_nil in Hin.
Qed.

(** C5 (amended).  Under the [continue] policy the run is made of one
    attempt for each step, and the pacing delay is held after an
    attempt in which [executeStep] returned, unless it is the last, and
    only there.  After an attempt that threw, the next one is entered
    at once: between the state [executeStep] left and the call on the
    next step there is only the console line of the failure and that of
    the next step, and the clock has not moved.  After an attempt that
    returned, the next one is entered after the pacing delay, the
    clock showing at least 500 ms more.  In the sequence of the loop's
    own events (the line of each step, the warning of each failure, the
    pacing delays): the warning of a failed step that is not the last
    is directly followed by the line of the next step, with no delay;
    every pacing delay stands directly between the line of a step and
    the line of the next; and the line of a step that is not the last
    is directly followed by that step's warning or by the pacing
    delay. *)
Theorem pacing_under_continue (page : Page) (steps : list Step)
    (taskId taskName : string) (w : World) :
  let run := executeSteps page steps taskId taskName "continue" w in
  let total := length steps in
  exists attempts evs,
    ran page "continue" steps taskId taskName w attempts run
    /\ stepOf <$> attempts = steps
    /\ (forall k a b,
          attempts !! k = Some a -> attempts !! S k = Some b ->
          match errorOf page a with
          | Some e =>
              before b = emit (LogStep (S k) total (field (stepOf b) "type"))
                           (emit (WarnStepIgnored k (Js.message e)) (after page a))
              /\ now (before b) = now (after page a)
          | None =>
              before b = emit (LogStep (S k) total (field (stepOf b) "type"))
                           (tick page Config.stepDelay (after page a))
              /\ now (after page a) + Config.stepDelay <= now (before b)
          end)
    /\ trace run.1 = trace w ++ evs
    /\ (forall l1 i msg l2,
          runnerView evs = l1 ++ WarnStepIgnored i msg :: l2 -> (S i < total)%nat ->
          exists ty l3, l2 = LogStep (S i) total ty :: l3)
    /\ (forall l1 l2,
          runnerView evs = l1 ++ Delay Config.stepDelay :: l2 ->
          exists l0 i ty ty' l3,
            l1 = l0 ++ [LogStep i total ty] /\ l2 = LogStep (S i) total ty' :: l3)
    /\ (forall l1 i ty l2,
          runnerView evs = l1 ++ LogStep i total ty :: l2 -> (S i < total)%nat ->
          (exists msg l3, l2 = WarnStepIgnored i msg :: l3)
          \/ (exists l3, l2 = Delay Config.stepDelay :: l3)).
Proof.
  intros run total.
  destruct (executeSteps_shape page steps taskId taskName "continue" w)
    as (attempts & evs & Hran & Htrace & Hview & Hfits & _).
  exists attempts, evs. split; [exact Hran|].
  pose proof (fits_continue _ _ Hfits) as Hlen. rewrite length_fmap in Hlen.
  destruct Hran as (w' & Hchain & _ & Hsteps & Hpos).
  split; [by rewrite Hsteps, Hlen, firstn_all|]. split.
  { intros k a b Ha Hb.
    pose proof (chained_next page "continue" total attempts _ _ k a b Hchain Ha Hb) as Hnext.
    pose proof (position_lookup attempts 0 k a Hpos Ha) as Hpa.
    pose proof (position_lookup attempts 0 (S k) b Hpos Hb) as Hpb.
    simpl in Hpa, Hpb. rewrite Hpb in Hnext.
    apply lookup_lt_Some in Hb. rewrite Hlen in Hb. fold total in Hb.
    unfold resume in Hnext. rewrite Hpa in Hnext.
    destruct (errorOf page a) as [e|]; simpl in Hnext.
    - split; [done|]. by rewrite Hnext.
    - assert (Hlast : (k <? total - 1)%nat = true) by (apply Nat.ltb_lt; lia).
      rewrite Hlast in Hnext. split; [done|]. rewrite Hnext. simpl.
      pose proof (N2Z.is_nonneg (overrun page (after page a) Config.stepDelay)). lia. }
  split; [exact Htrace|]. rewrite Hview. split; [|split].
  - intros l1 i msg l2 Heq Hi.
    by apply (blocks_after_warning total steps 0 (outcome page <$> attempts) l1 i msg l2).
  - intros l1 l2 Heq.
    by apply (blocks_around_delay total steps 0 (outcome page <$> attempts) l1 l2).
  - intros l1 i ty l2 Heq Hi.
    by apply (blocks_after_step total steps 0 (outcome page <$> attempts) l1 i ty l2).
Qed.

(** On a page where only [#a] matches, a click without a target and a
    change of [#a]: the change is entered at the instant the click
    failed. *)
Lemma pacing_under_continue_witness :
  let run := executeSteps onlyA [clickNothing; changeA] "task" "name" "continue" start in
  exists a b,
    ran onlyA "continue" [clickNothing; changeA] "task" "name" start [a; b] run
    /\ stepOf a = clickNothing /\ stepOf b = changeA
    /\ is_Some (errorOf onlyA a)
    /\ now (before b) = now (after onlyA a).
Proof.
  intros run.
  destruct (pacing_under_continue onlyA [clickNothing; changeA] "task" "name" start)
    as (attempts & evs & Hran & Hsteps & Hnext & _).
  fold run in Hran.
  destruct attempts as [|a [|b [|c l]]]; try discriminate Hsteps.
  injection Hsteps as Ha Hb.
  exists a, b. split; [exact Hran|]. split; [exact Ha|]. split; [exact Hb|].
  destruct Hran as (w' & [Hbefore _] & _ & _ & Hpos). injection Hpos as Hpa _.
  specialize (Hnext 0%nat a b eq_refl eq_refl).
  assert (Herr : is_Some (errorOf onlyA a)).
  { destruct a as [i s w0]. simpl in *. subst i s w0. by eexists. }
  destruct Herr as [e He]. rewrite He in Hnext.
  split; [by eexists|]. apply Hnext.
Defined.

(** *** C3: waiting for an element *)

Section WaitForElement.

Variable page : Page.

(** [handleWaitForElement] never reads the step's [timeout]. *)
Lemma handleWaitForElement_ignores_timeout (step : Step) (v : JsValue) (w : World) :
  handleWaitForElement page (<["timeout" := v]> step) w
  = handleWaitForElement page step w.
Proof.
  unfold handleWaitForElement, field. by rewrite lookup_insert_ne.
Qed.

(** It returns normally whatever [findElement] found, for any list of
    selector groups. *)
Lemma handleWaitForElement_silent (step : Step) (groups : list JsValue) (w : World) :
  field step "selectors" = JArr groups ->
  (handleWaitForElement page step w).2 = Ok tt.
Proof.
  intros Hsel. unfold handleWaitForElement, mbind, Act_bind. rewrite Hsel.
  unfold findElement. simpl.
  destruct (Z.of_nat (length groups) =? 0); simpl; [done|].
  by destruct (findLoop page groups (now w) Config.elementTimeout w).
Qed.

End WaitForElement.

(** C3 (failing input).  A wait for [#missing] with a timeout of 1000 ms
    of its own, on a page where nothing ever matches: the step returns
    normally, after the configured 10000 ms, with the console line
    "Element found"; run on its own under [stop], the step counts as
    completed and the run as a success. *)
Theorem waitForElement_timeout_is_silent :
  let step : Step :=
    {[ "type" := JStr "waitForElement";
       "selectors" := JArr [JArr [JStr "#missing"]];
       "timeout" := JNum 1000 ]} in
  let outcome := executeStep neverMatches step start in
  let run := executeSteps neverMatches [step] "task" "name" "stop" start in
  outcome.2 = Ok tt
  /\ now outcome.1 = now start + 10000
  /\ last (trace outcome.1) = Some (Log "Element found")
  /\ status run.2 = SUCCESS
  /\ completedSteps run.2 = 1%nat.
Proof. vm_compute. done. Qed.

(** *** C4: one poll of the selector groups *)

Section Poll.

Variable page : Page.

Lemma pollGroups_primary groups : forall groups' w,
  primary <$> groups = primary <$> groups' ->
  pollGroups page groups w = pollGroups page groups' w.
Proof.
  induction groups as [|g groups IH]; intros [|g' groups'] w Heq; simpl in *; try done.
  injection Heq as Hg Hrest. rewrite Hg.
  destruct (locate page (primary g') w) as [w1 [[el|]|e]]; [done|by apply IH..].
Qed.



(** The search is a sequence of polls: those that found nothing, each
    begun before the time was up and followed by a wait, and then
    either the time is up or one more poll, which finds the node. *)
Lemma findLoop_polls groups startTime timeout w :
  exists starts wl,
    missed page groups w starts wl
    /\ Forall (fun s => now s - startTime < timeout) starts
    /\ ((timeout <= now wl - startTime
         /\ findLoop page groups startTime timeout w = (wl, None))
        \/ (now wl - startTime < timeout
            /\ exists w' el, pollGroups page groups wl = (w', Some el)
                             /\ findLoop page groups startTime timeout w
                                = (w', Some el))).
Proof.
  funelim (findLoop page groups startTime timeout w).
  - exists [], w. split; [done|]. split; [constructor|]. left. split; [lia|done].
  - exists [], w. split; [done|]. split; [constructor|]. right. split; [done|].
    by eexists _, _.
  - match goal with IH : exists _ _, _ |- _ =>
      destruct IH as (starts & wl & Hmissed & Hall & Hend) end.
    match goal with E : pollGroups _ _ _ = _ |- _ => rename E into Hpoll end.
    exists (w :: starts), wl. split; [|split; [by constructor|exact Hend]].
    simpl. rewrite Hpoll. by repeat split.
Qed.


End Poll.


End ExecutorFacts.

(** ** More on the parser *)

Module NormalizerFacts.

Import Parser ParserSpec NormalizerSpec ParserFacts.

(** *** normalizeSelectors *)

Lemma normalizeSelectors_groups raw :
  exists groups,
    normalizeSelectors (JArr raw) = JArr groups
    /\ Forall (fun g => isArray g = true) groups
    /\ length groups = length raw
    /\ Executor.primary <$> groups = Executor.primary <$> raw
    /\ normalizeSelectors (JArr groups) = JArr groups.
Proof.
  simpl. eexists. split; [reflexivity|]. repeat split.
  - apply Forall_fmap, Forall_true. intros g. by destruct g.
  - apply length_fmap.
  - rewrite <- list_fmap_compose. apply list_fmap_ext. intros _ g _. by destruct g.
  - f_equal. rewrite <- list_fmap_compose. apply list_fmap_ext. intros _ g _.
    by destruct g.
Qed.

(** X1.  [normalizeSelectors] always returns a list of groups each of
    which is a list; on a list it keeps the number of groups and the
    first alternative of each; on anything else it returns the empty
    list; and normalizing twice changes nothing. *)
Theorem normalizeSelectors_canonical (selectors : JsValue) :
  isGroupList (normalizeSelectors selectors)
  /\ normalizeSelectors (normalizeSelectors selectors) = normalizeSelectors selectors
  /\ (isArray selectors = false -> normalizeSelectors selectors = JArr [])
  /\ (forall raw, selectors = JArr raw ->
        exists groups, normalizeSelectors selectors = JArr groups
                       /\ length groups = length raw
                       /\ Executor.primary <$> groups = Executor.primary <$> raw).
Proof.
  destruct (isArray selectors) eqn:Harr.
  - destruct selectors as [| | | | |raw|]; try discriminate.
    destruct (normalizeSelectors_groups raw) as (groups & Hn & Hall & Hlen & Hprim & Hidem).
    rewrite Hn. repeat split; try done.
    + by exists groups.
    + intros raw' [= <-]. by exists groups.
  - assert (Hn : normalizeSelectors selectors = JArr []) by (by destruct selectors).
    rewrite Hn. repeat split; try done.
    + exists []. by split.
    + intros raw ->. discriminate.
Qed.

(** *** validate and parse *)

Lemma validateSteps_unnameable i pre step post :
  forallb passable pre = true ->
  hasKind step = true -> nameable step = false ->
  validateSteps i (pre ++ step :: post) = Throw notPrimitive.
Proof.
  revert i. induction pre as [|p pre IH]; intros i Hpre Hk Hn; simpl.
  - unfold hasKind in Hk. apply andb_true_iff in Hk as [Hk1 Hk2].
    unfold nameable in Hn. apply orb_false_iff in Hn as [Hn1 Hn2].
    unfold getProp. destruct (nullish step); [done|]. by rewrite Hk2, Hn1, Hn2.
  - simpl in Hpre. apply andb_true_iff in Hpre as [Hp Hpre].
    unfold passable, hasKind, nameable in Hp.
    apply andb_true_iff in Hp as [Hp Hname].
    apply andb_true_iff in Hp as [Hp1 Hp2].
    unfold getProp. destruct (nullish p); [done|]. rewrite Hp2. simpl.
    assert (Hgo : negb (includes SUPPORTED_TYPES (prop p "type"))
                  && negb (printable (prop p "type")) = false).
    { by destruct (includes SUPPORTED_TYPES (prop p "type")),
           (printable (prop p "type")). }
    rewrite Hgo. by apply IH.
Qed.

(** X2.  [validate] accepts a document exactly when it is an object
    whose [steps] is a non-empty array of actions that are not [null],
    have a truthy [type] and, when the type is not a supported one, a
    type that converts to a string.  At the first action whose type is
    truthy, unsupported and does not convert, it throws instead of
    returning a record. *)
Theorem validate_valid_iff (json : JsValue) :
  (validate json = Ok Valid
   <-> exists m raw, json = JObj m /\ m !! "steps" = Some (JArr raw) /\ raw <> []
                     /\ forallb passable raw = true)
  /\ (forall m pre step post,
        json = JObj m -> m !! "steps" = Some (JArr (pre ++ step :: post)) ->
        forallb passable pre = true -> hasKind step = true -> nameable step = false ->
        validate json = Throw notPrimitive).
Proof.
  split.
  - split; [apply validate_valid_passable|].
    intros (m & raw & -> & Hsteps & Hne & Hall).
    apply (validate_passes _ raw); try done. simpl. by rewrite Hsteps.
  - intros m pre step post -> Hsteps Hpre Hk Hn.
    assert (Hlen : (length (pre ++ step :: post) =? 0)%nat = false).
    { rewrite length_app. simpl. by rewrite Nat.add_succ_r. }
    unfold validate. cbn [truthy typeof_object negb orb prop]. rewrite Hsteps.
    cbn [default from_option]. unfold Datatypes.id. rewrite Hlen.
    by apply validateSteps_unnameable.
Qed.

(** The type of the action is an object with a [toString] property of
    its own: it is truthy, not supported, and does not convert. *)
Lemma validate_valid_iff_witness :
  validate (JObj {[ "steps" := JArr [JObj {[ "type" := JObj {[ "toString" := JNum 1 ]} ]}] ]})
  = Throw notPrimitive.
Proof.
  apply (proj2 (validate_valid_iff _)
           {[ "steps" := JArr [JObj {[ "type" := JObj {[ "toString" := JNum 1 ]} ]}] ]}
           [] (JObj {[ "type" := JObj {[ "toString" := JNum 1 ]} ]}) []);
    reflexivity.
Defined.

(** X3.  When the actions before the first one without a truthy [type]
    are all well-formed (not [null], with a truthy type that is
    supported or converts to a string) and that action is not [null],
    [validate] names it by its position counted from 1, and [parse]
    returns that error. *)
Theorem validate_reports_first_missing_type (JSON_parse : string -> Exc JsValue)
    (jsonString : string) (m : gmap string JsValue) (pre post : list JsValue)
    (step : JsValue) :
  JSON_parse jsonString = Ok (JObj m) ->
  m !! "steps" = Some (JArr (pre ++ step :: post)) ->
  forallb passable pre = true ->
  nullish step = false ->
  truthy (prop step "type") = false ->
  validate (JObj m) = Ok (Invalid (missingType (length pre)))
  /\ parse JSON_parse jsonString = Ok (parseFailure (missingType (length pre))).
Proof.
  intros Hparse Hsteps Hpre Hnull Htype.
  assert (Hv : validate (JObj m) = Ok (Invalid (missingType (length pre)))).
  { assert (Hlen : (length (pre ++ step :: post) =? 0)%nat = false).
    { rewrite length_app. simpl. by rewrite Nat.add_succ_r. }
    unfold validate. cbn [truthy typeof_object negb orb prop]. rewrite Hsteps.
    cbn [default id]. rewrite Hlen.
    by rewrite (validateSteps_missing 0 pre step post). }
  split; [exact Hv|].
  unfold parse, tryCatch. by rewrite Hparse, Hv.
Qed.

Lemma validate_reports_first_missing_type_witness :
  parse (fun _ => Ok (JObj {[ "steps" := JArr [JObj {[ "type" := JStr "click" ]};
                                                JObj {[ "url" := JStr "u" ]}] ]}))
    "text"
  = Ok (parseFailure "步骤 2 缺少 type 属性").
Proof.
  apply (validate_reports_first_missing_type _ "text"
           {[ "steps" := JArr [JObj {[ "type" := JStr "click" ]};
                               JObj {[ "url" := JStr "u" ]}] ]}
           [JObj {[ "type" := JStr "click" ]}] [] (JObj {[ "url" := JStr "u" ]}));
    reflexivity.
Defined.

Lemma mapSteps_length index raw :
  forallb hasKind raw = true ->
  exists ts, mapSteps index raw = Ok ts /\ length ts = length raw.
Proof.
  intros Hall. destruct (mapSteps_startUrl index raw Hall) as (ts & H1 & H2 & _). eauto.
Qed.

(** X4.  [parse] succeeds exactly when the text decodes to a document
    that [validate] accepts; the data then carries that document, and
    as many steps as the document has actions. *)
Theorem parse_success_iff (JSON_parse : string -> Exc JsValue) (jsonString : string) :
  ((exists r, parse JSON_parse jsonString = Ok r /\ success r = true)
   <-> (exists json, JSON_parse jsonString = Ok json /\ validate json = Ok Valid))
  /\ (forall r d, parse JSON_parse jsonString = Ok r -> data r = Some d ->
        JSON_parse jsonString = Ok (originalJson d)
        /\ validate (originalJson d) = Ok Valid
        /\ exists raw, prop (originalJson d) "steps" = JArr raw
                       /\ length (steps d) = length raw).
Proof.
  assert (Hvalid : forall json, validate json = Ok Valid ->
            exists d raw, transform json = Ok d /\ originalJson d = json
                          /\ prop json "steps" = JArr raw
                          /\ length (steps d) = length raw).
  { intros json Hv. destruct (validate_valid_inv _ Hv) as (m & raw & -> & Hs & _ & Hall).
    destruct (mapSteps_length 0 raw Hall) as (ts & Hmap & Hlen).
    unfold transform, getProp. simpl. rewrite Hs. simpl. rewrite Hmap.
    eexists _, raw. by repeat split. }
  unfold parse, tryCatch, parseFailure. split; [split|].
  - intros (r & Hr & Hok).
    destruct (JSON_parse jsonString) as [json|e]; [|by injection Hr as <-].
    exists json. split; [done|].
    destruct (validate json) as [[|err]|e]; [done|by injection Hr as <-..].
  - intros (json & -> & Hv). rewrite Hv.
    destruct (Hvalid json Hv) as (d & raw & -> & _). by eexists.
  - intros r d Hr Hd.
    destruct (JSON_parse jsonString) as [json|e]; [|by injection Hr as <-].
    destruct (validate json) as [[|err]|e] eqn:Hv; [|by injection Hr as <-..].
    destruct (Hvalid json Hv) as (d' & raw & Ht & Ho & Hs & Hlen).
    rewrite Ht in Hr. injection Hr as <-. simpl in Hd. injection Hd as <-.
    rewrite Ho. repeat split; try done. by exists raw.
Qed.

(** *** transformStep *)

Lemma supported_false ty :
  supported ty = false ->
  is_str "navigate" ty = false /\ is_str "click" ty = false
  /\ is_str "doubleClick" ty = false /\ is_str "change" ty = false
  /\ is_str "keyDown" ty = false /\ is_str "keyUp" ty = false
  /\ is_str "scroll" ty = false /\ is_str "hover" ty = false
  /\ is_str "waitForElement" ty = false /\ is_str "waitForExpression" ty = false
  /\ is_str "setViewport" ty = false.
Proof.
  unfold supported, SUPPORTED_TYPES. simpl. rewrite !orb_false_iff. tauto.
Qed.

Lemma copyByType_unsupported step transformed :
  supported (prop step "type") = false ->
  copyByType step transformed = delete "__proto__" (ownProps step) ∪ transformed.
Proof.
  intros Hs. apply supported_false in Hs.
  destruct Hs as (H1 & H2 & H3 & H4 & H5 & H6 & H7 & H8 & H9 & H10 & H11).
  unfold copyByType. by rewrite H1, H2, H3, H4, H5, H6, H7, H8, H9, H10, H11.
Qed.

Lemma copyByType_index step transformed :
  supported (prop step "type") = true ->
  copyByType step transformed !! "index" = transformed !! "index".
Proof.
  intros Hs. unfold copyByType.
  repeat case_match; simplify_map_eq; try done.
  exfalso. unfold supported, SUPPORTED_TYPES in Hs. simpl in Hs.
  repeat match goal with
         | H : _ || _ = false |- _ => apply orb_false_iff in H as [? ?]
         end.
  repeat match goal with H : is_str _ _ = false |- _ => rewrite H in Hs end.
  discriminate.
Qed.

(** What [transformStep] adds after the [switch] leaves every property
    other than [timeout] and [assertedEvents] alone. *)
Lemma transformStep_lookup step index k :
  nullish step = false -> k <> "timeout" -> k <> "assertedEvents" ->
  exists mt, transformStep step index = Ok (JObj mt)
             /\ mt !! k = copyByType step
                            (<["index" := JNum (Z.of_nat index)]>
                               (<["type" := prop step "type"]> ∅)) !! k.
Proof.
  intros Hn Hk1 Hk2. unfold transformStep, getProp. rewrite Hn.
  eexists. split; [reflexivity|].
  repeat case_match; by rewrite ?lookup_insert_ne.
Qed.

(** X5.  The step made from an action keeps the action's [type]; its
    [index] is the position it was given whenever the type is one of
    the supported ones, or the action has no [index] property of its
    own. *)
Theorem transformStep_index (step : JsValue) (index : nat) (t : JsValue) :
  hasKind step = true ->
  transformStep step index = Ok t ->
  supported (prop step "type") = true \/ ownProps step !! "index" = None ->
  prop t "type" = prop step "type" /\ prop t "index" = JNum (Z.of_nat index).
Proof.
  intros Hk Ht Hcase.
  destruct (transformStep_kind step index Hk) as (m & Hm & Htype & _).
  assert (Hn : nullish step = false) by (by destruct step).
  destruct (transformStep_lookup step index "index" Hn) as (mt & Hmt & Hidx); [done..|].
  rewrite Hm in Ht. injection Ht as <-. rewrite Hm in Hmt. injection Hmt as <-.
  simpl. rewrite Htype. split; [done|]. rewrite Hidx.
  destruct (supported (prop step "type")) eqn:Hs.
  - rewrite copyByType_index by done. by rewrite lookup_insert_eq.
  - destruct Hcase as [?|Hnone]; [done|].
    rewrite copyByType_unsupported by done.
    rewrite lookup_union_r by (by rewrite lookup_delete_ne).
    by rewrite lookup_insert_eq.
Qed.

Lemma transformStep_index_witness :
  exists t, transformStep (JObj {[ "type" := JStr "navigate"; "index" := JNum 9 ]}) 3 = Ok t
            /\ prop t "index" = JNum 3.
Proof.
  eexists. split; [reflexivity|].
  apply (transformStep_index (JObj {[ "type" := JStr "navigate"; "index" := JNum 9 ]}) 3);
    [reflexivity|reflexivity|left; reflexivity].
Defined.

(** An action of an unsupported type that carries an [index] of its own
    keeps that one. *)
Example transformStep_own_index :
  exists t, transformStep (JObj {[ "type" := JStr "emulate"; "index" := JNum 9 ]}) 3 = Ok t
            /\ prop t "index" = JNum 9.
Proof. eexists. split; [reflexivity|]. vm_compute. reflexivity. Qed.

(** X6.  An action of an unsupported type loses nothing but a property
    named [__proto__]: every other property it has is a property of the
    step, with the same value, and the step has no property of that
    name, whatever the action held there. *)
Theorem transformStep_unsupported_lossless (m : gmap string JsValue) (index : nat) :
  hasKind (JObj m) = true ->
  supported (prop (JObj m) "type") = false ->
  exists mt, transformStep (JObj m) index = Ok (JObj mt)
             /\ (forall k v, k <> "__proto__" -> m !! k = Some v -> mt !! k = Some v)
             /\ mt !! "__proto__" = None.
Proof.
  intros Hk Hs. unfold transformStep, getProp. simpl nullish. cbn iota.
  rewrite copyByType_unsupported by done. simpl ownProps.
  eexists. split; [reflexivity|]. split.
  - intros k v Hproto Hkv.
    repeat case_match;
      repeat (rewrite lookup_insert; case_decide;
              [subst k; simpl; by rewrite Hkv|]);
      apply lookup_union_Some_l; by rewrite lookup_delete_ne.
  - repeat case_match; rewrite ?lookup_insert_ne by done;
      apply lookup_union_None_2; by simplify_map_eq.
Qed.

Lemma transformStep_unsupported_lossless_witness :
  exists mt, transformStep (JObj {[ "type" := JStr "emulate"; "x" := JNum 1;
                                    "__proto__" := JNum 5 ]}) 0
             = Ok (JObj mt)
             /\ mt !! "x" = Some (JNum 1) /\ mt !! "__proto__" = None.
Proof.
  destruct (transformStep_unsupported_lossless
              {[ "type" := JStr "emulate"; "x" := JNum 1; "__proto__" := JNum 5 ]} 0)
    as (mt & Hmt & Hall & Hproto); [reflexivity..|].
  exists mt. split; [exact Hmt|]. split; [|exact Hproto]. by apply Hall.
Defined.

Lemma normalizeSelectors_isGroupList v : isGroupList (normalizeSelectors v).
Proof.
  destruct (isArray v) eqn:Harr.
  - destruct v as [| | | | |raw|]; try discriminate.
    destruct (normalizeSelectors_groups raw) as (groups & Hn & Hall & _).
    rewrite Hn. by exists groups.
  - assert (Hn : normalizeSelectors v = JArr []) by (by destruct v).
    rewrite Hn. exists []. by split.
Qed.

(** X7.  Every step of a type that needs a target (click, doubleClick,
    hover, change, waitForElement) has [selectors] in the canonical
    shape, a list of lists, whatever the action held there; a scroll
    step has either that or [null]. *)
Theorem transformStep_selectors (step : JsValue) (index : nat) (t : JsValue) :
  hasKind step = true ->
  transformStep step index = Ok t ->
  (targeted (prop t "type") = true -> isGroupList (prop t "selectors"))
  /\ (is_str "scroll" (prop t "type") = true ->
      prop t "selectors" = JNull \/ isGroupList (prop t "selectors")).
Proof.
  intros Hk Ht.
  destruct (transformStep_kind step index Hk) as (m & Hm & Htype & _).
  assert (Hn : nullish step = false) by (by destruct step).
  destruct (transformStep_lookup step index "selectors" Hn) as (mt & Hmt & Hsel); [done..|].
  rewrite Hm in Ht. injection Ht as <-. rewrite Hm in Hmt. injection Hmt as <-.
  simpl. rewrite Htype, Hsel. simpl. clear Hsel Hm Htype.
  assert (Hstr : forall lit v, is_str lit v = true -> v = JStr lit).
  { intros lit [| | | |s| |] H; try discriminate. simpl in H.
    by apply String.eqb_eq in H as ->. }
  unfold targeted. simpl existsb. split.
  - intros Htarget. rewrite !orb_true_iff in Htarget.
    destruct Htarget as [H|[H|[H|[H|[H|H]]]]]; try discriminate;
      apply Hstr in H; unfold copyByType; rewrite H; simpl;
      simplify_map_eq; apply normalizeSelectors_isGroupList.
  - intros Hscroll. apply Hstr in Hscroll. unfold copyByType. rewrite Hscroll. simpl.
    simplify_map_eq. case_match; [right; apply normalizeSelectors_isGroupList|by left].
Qed.

Lemma transformStep_selectors_witness :
  exists t, transformStep (JObj {[ "type" := JStr "click"; "selectors" := JStr "#a" ]}) 0
            = Ok t
            /\ isGroupList (prop t "selectors").
Proof.
  eexists. split; [reflexivity|].
  apply (transformStep_selectors
           (JObj {[ "type" := JStr "click"; "selectors" := JStr "#a" ]}) 0);
    reflexivity.
Defined.

End NormalizerFacts.

(** ** The task store *)

Module TaskStoreFacts.

Import Storage StorageSpec TaskStore TaskStoreSpec.

(** *** Finding tasks *)

Lemma hasId_inj id id' (t : Task) : hasId id t = true -> hasId id' t = true -> id = id'.
Proof.
  unfold hasId. destruct (default JUndefined (t !! "id")) as [| | | |s| |]; simpl; try done.
  intros H1 H2. apply String.eqb_eq in H1, H2. congruence.
Qed.

Lemma findIndex_Some {A} (p : A -> bool) l i :
  findIndex p l = Some i ->
  exists x, l !! i = Some x /\ p x = true /\ List.find p l = Some x
            /\ forall j y, (j < i)%nat -> l !! j = Some y -> p y = false.
Proof.
  revert i. induction l as [|a l IH]; intros i; simpl; [done|].
  destruct (p a) eqn:Hp.
  - intros [= <-]. exists a. repeat split; try done. intros j y Hj. lia.
  - destruct (findIndex p l) as [k|]; simpl; [|done].
    intros [= <-]. destruct (IH k eq_refl) as (x & Hx & Hpx & Hfind & Hbefore).
    exists x. repeat split; try done.
    intros [|j] y Hj; simpl; [by intros [= <-]|]. apply Hbefore. lia.
Qed.

Lemma findIndex_None {A} (p : A -> bool) l :
  findIndex p l = None <-> List.find p l = None.
Proof.
  induction l as [|a l IH]; simpl; [done|].
  destruct (p a); [done|]. destruct (findIndex p l); simpl; [|done].
  split; [done|]. intros H. apply IH in H. done.
Qed.

Lemma find_append {A} (p : A -> bool) l1 l2 :
  List.find p (l1 ++ l2)
  = match List.find p l1 with Some x => Some x | None => List.find p l2 end.
Proof. induction l1 as [|a l1 IH]; simpl; [done|]. by destruct (p a). Qed.

Lemma find_insert_other {A} (p : A -> bool) l i x y :
  l !! i = Some x -> p x = false -> p y = false ->
  List.find p (<[i := y]> l) = List.find p l.
Proof.
  revert i. induction l as [|a l IH]; intros [|i] Hi Hx Hy; simpl in *; try done.
  - injection Hi as ->. by rewrite Hx, Hy.
  - destruct (p a); [done|]. by apply IH.
Qed.

Lemma find_insert_first {A} (p : A -> bool) l i x y :
  l !! i = Some x -> p y = true ->
  (forall j z, (j < i)%nat -> l !! j = Some z -> p z = false) ->
  List.find p (<[i := y]> l) = Some y.
Proof.
  revert i. induction l as [|a l IH]; intros [|i] Hi Hy Hbefore; simpl in *; try done.
  - by rewrite Hy.
  - rewrite (Hbefore 0%nat a) by (done || lia). apply IH; try done.
    intros j z Hj Hz. apply (Hbefore (S j) z); [lia|done].
Qed.

Lemma find_filter_neg {A} (p q : A -> bool) l :
  (forall x, p x = true -> q x = false) ->
  List.find p (List.filter (fun x => negb (q x)) l) = List.find p l.
Proof.
  intros Hpq. induction l as [|a l IH]; simpl; [done|].
  destruct (q a) eqn:Hq; simpl.
  - destruct (p a) eqn:Hp; [|done]. apply Hpq in Hp. congruence.
  - by rewrite IH.
Qed.

Lemma find_filter_same {A} (q : A -> bool) l :
  List.find q (List.filter (fun x => negb (q x)) l) = None.
Proof.
  induction l as [|a l IH]; simpl; [done|].
  destruct (q a) eqn:Hq; simpl; [done|]. by rewrite Hq.
Qed.

Lemma filter_length_same {A} (q : A -> bool) l :
  length (List.filter (fun x => negb (q x)) l) = length l <-> List.find q l = None.
Proof.
  induction l as [|a l IH]; simpl; [done|].
  pose proof (List.filter_length_le (fun x => negb (q x)) l) as Hle.
  destruct (q a); simpl.
  - split; [lia|done].
  - rewrite <- IH. split; lia.
Qed.

(** X8.  [saveTask] appends: the tasks already stored stay where they
    are and are still found; the new task is the one found under its id
    only if the id was free. *)
Theorem saveTask_getTask (t : Task) (id : string) (db : Db) :
  hasId id t = true ->
  let db' := (saveTask t db).1 in
  getAllTasks db' = getAllTasks db ++ [t]
  /\ (getTask id db = None -> getTask id db' = Some t)
  /\ (forall t0, getTask id db = Some t0 -> getTask id db' = Some t0)
  /\ (forall id', id' <> id -> getTask id' db' = getTask id' db)
  /\ store db' = store db /\ alarms db' = alarms db.
Proof.
  intros Hid db'.
  assert (Hall : getAllTasks db' = getAllTasks db ++ [t]) by reflexivity.
  unfold getTask. rewrite Hall. repeat split.
  - intros Hnone. rewrite find_append, Hnone. simpl. by rewrite Hid.
  - intros t0 Hsome. by rewrite find_append, Hsome.
  - intros id' Hne. rewrite find_append.
    destruct (List.find (hasId id') (getAllTasks db)); [done|]. simpl.
    destruct (hasId id' t) eqn:Hid'; [|done].
    by pose proof (hasId_inj _ _ _ Hid' Hid).
Qed.

Lemma saveTask_getTask_witness :
  getTask "a" (saveTask {[ "id" := JStr "a" ]}
                 {| tasks := None; store := {| logs := None; settings := None |};
                    alarms := ∅ |}).1
  = Some {[ "id" := JStr "a" ]}.
Proof.
  destruct (saveTask_getTask {[ "id" := JStr "a" ]} "a"
              {| tasks := None; store := {| logs := None; settings := None |};
                 alarms := ∅ |}) as (_ & Hnew & _); [reflexivity|].
  apply Hnew. reflexivity.
Defined.

(** X9.  [updateTask] on an id that no task has fails and writes
    nothing.  Otherwise it rewrites the first task with that id: every
    property comes from [updates] when [updates] has it and from the
    task otherwise, except [updatedAt], which is the time of the call;
    the number of tasks, the tasks found under other ids, the logs and
    the alarms are as before. *)
Theorem updateTask_merges (now : Z) (id : string) (updates : gmap string JsValue) (db : Db) :
  (getTask id db = None -> updateTask now id updates db = (db, notFound))
  /\ (forall t, getTask id db = Some t ->
        exists merged : Task,
          let r := updateTask now id updates db in
          r.2 = {| success := true; error := None; task := Some merged |}
          /\ (forall k, merged !! k =
                if decide (k = "updatedAt") then Some (JNum now)
                else match updates !! k with Some v => Some v | None => t !! k end)
          /\ length (getAllTasks r.1) = length (getAllTasks db)
          /\ (hasId id merged = true -> getTask id r.1 = Some merged)
          /\ (forall id', id' <> id -> hasId id' merged = false ->
                getTask id' r.1 = getTask id' db)
          /\ store r.1 = store db /\ alarms r.1 = alarms db).
Proof.
  unfold getTask, updateTask. split.
  - intros Hnone. apply findIndex_None in Hnone. by rewrite Hnone.
  - intros t Hsome.
    destruct (findIndex (hasId id) (getAllTasks db)) as [i|] eqn:Hi.
    2:{ apply findIndex_None in Hi. congruence. }
    destruct (findIndex_Some _ _ _ Hi) as (x & Hx & Hpx & Hfind & Hbefore).
    assert (x = t) by congruence. subst x. rewrite Hx. simpl.
    eexists. split; [reflexivity|]. repeat split.
    + intros k. rewrite lookup_insert. case_decide; [by subst; rewrite decide_True|].
      rewrite decide_False by done. rewrite lookup_union.
      by destruct (updates !! k), (t !! k).
    + unfold getAllTasks at 1. simpl. by rewrite length_insert.
    + intros Hid. unfold getAllTasks at 1. simpl.
      by apply (find_insert_first _ _ _ t).
    + intros id' Hne Hid'. unfold getAllTasks at 1. simpl.
      apply (find_insert_other _ _ _ t); try done.
      destruct (hasId id' t) eqn:Ht; [|done].
      by pose proof (hasId_inj _ _ _ Ht Hpx).
Qed.

Lemma updateTask_merges_witness :
  exists merged : Task,
    (updateTask 5 "a" {[ "name" := JStr "new" ]} sampleDb).2
    = {| success := true; error := None; task := Some merged |}
    /\ merged !! "name" = Some (JStr "new")
    /\ merged !! "id" = Some (JStr "a")
    /\ merged !! "updatedAt" = Some (JNum 5).
Proof.
  destruct (proj2 (updateTask_merges 5 "a" {[ "name" := JStr "new" ]} sampleDb)
              {[ "id" := JStr "a"; "name" := JStr "old" ]})
    as (merged & Hr & Hk & _); [reflexivity|].
  exists merged. split; [exact Hr|].
  rewrite !Hk. repeat split.
Defined.

(** X10.  [deleteTask] on an id that no task has fails and writes
    nothing, the alarms included.  Otherwise no task is found under the
    id afterwards, the tasks under other ids are found as before, the
    alarm of the task is gone and no other alarm is touched; the logs
    stay. *)
Theorem deleteTask_removes (id : string) (db : Db) :
  (getTask id db = None -> deleteTask id db = (db, notFound))
  /\ (forall t, getTask id db = Some t ->
        let r := deleteTask id db in
        r.2 = {| success := true; error := None; task := None |}
        /\ getTask id r.1 = None
        /\ (forall id', id' <> id -> getTask id' r.1 = getTask id' db)
        /\ alarms r.1 !! alarmName id = None
        /\ (forall name, name <> alarmName id -> alarms r.1 !! name = alarms db !! name)
        /\ store r.1 = store db).
Proof.
  unfold getTask, deleteTask. split.
  - intros Hnone. apply filter_length_same in Hnone.
    by rewrite Hnone, Nat.eqb_refl.
  - intros t Hsome.
    destruct (length (List.filter (fun t0 => negb (hasId id t0)) (getAllTasks db))
              =? length (getAllTasks db))%nat eqn:Hlen.
    { apply Nat.eqb_eq, filter_length_same in Hlen. congruence. }
    simpl. repeat split.
    + apply find_filter_same.
    + intros id' Hne. apply find_filter_neg. intros x Hx.
      destruct (hasId id x) eqn:Hid; [|done].
      by pose proof (hasId_inj _ _ _ Hx Hid).
    + apply lookup_delete_eq.
    + intros name Hne. by apply lookup_delete_ne.
Qed.

Lemma deleteTask_removes_witness :
  let r := deleteTask "a" sampleDb in
  getTask "a" r.1 = None /\ alarms r.1 !! alarmName "a" = None
  /\ getTask "b" r.1 = Some {[ "id" := JStr "b" ]}.
Proof.
  intros r.
  destruct (proj2 (deleteTask_removes "a" sampleDb)
              {[ "id" := JStr "a"; "name" := JStr "old" ]})
    as (_ & Hgone & Hother & Halarm & _); [reflexivity|].
  fold r in Hgone, Hother, Halarm.
  split; [exact Hgone|]. split; [exact Halarm|].
  rewrite Hother; [reflexivity|discriminate].
Defined.

(** *** The log queries *)

Lemma insertBy_perm {A} (compare : A -> A -> Z) x l : insertBy compare x l ≡ₚ x :: l.
Proof.
  induction l as [|y l IH]; simpl; [done|].
  destruct (compare x y <=? 0); [done|]. rewrite IH. apply Permutation_swap.
Qed.

Lemma sortBy_perm {A} (compare : A -> A -> Z) l : sortBy compare l ≡ₚ l.
Proof.
  induction l as [|x l IH]; simpl; [done|]. by rewrite insertBy_perm, IH.
Qed.

Lemma insertBy_newestFirst x l :
  newestFirst l -> newestFirst (insertBy newest x l).
Proof.
  unfold newestFirst, newest. induction 1 as [|y l Hl IH Hy]; simpl.
  - repeat constructor.
  - destruct (Z.leb_spec (executedAt y - executedAt x) 0) as [Hle|Hgt].
    + constructor; [by constructor|]. constructor; [lia|].
      eapply Forall_impl; [exact Hy|]. simpl. intros z Hz. lia.
    + constructor; [done|]. rewrite insertBy_perm. constructor; [lia|done].
Qed.

Lemma sortBy_newestFirst l : newestFirst (sortBy newest l).
Proof.
  induction l as [|x l IH]; simpl; [constructor|]. by apply insertBy_newestFirst.
Qed.

(** The sort is stable: a list that is already newest first is left as
    it is, entries of equal time included. *)
Lemma sortBy_newestFirst_id l : newestFirst l -> sortBy newest l = l.
Proof.
  unfold newestFirst. induction 1 as [|x l Hl IH Hx]; simpl; [done|].
  rewrite IH. destruct l as [|y l]; simpl; [done|].
  apply Forall_cons in Hx as [Hxy _]. unfold newest.
  destruct (Z.leb_spec (executedAt y - executedAt x) 0); [done|lia].
Qed.

Lemma getLogs_unfold taskId limit db :
  getLogs taskId limit db
  = slice0 limit (sortBy newest (List.filter (wanted taskId) (default [] (logs (store db))))).
Proof.
  unfold getLogs, wanted. f_equal. f_equal. destruct taskId as [i|].
  - destruct (String.eqb i EmptyString); [|done].
    induction (default [] (logs (store db))) as [|a l IH]; simpl; [done|]. by f_equal.
  - induction (default [] (logs (store db))) as [|a l IH]; simpl; [done|]. by f_equal.
Qed.

(** X11.  [getLogs] with a limit that is not negative returns at most
    [limit] entries, newest first, all of them stored entries of the
    task asked for (of any task when the id is absent or empty); what
    it leaves out of those is no more recent than anything it returns,
    and it leaves something out only when the limit is reached. *)
Theorem getLogs_newest (taskId : option string) (limit : Z) (db : Db) :
  0 <= limit ->
  let result := getLogs taskId limit db in
  let stored := default [] (logs (store db)) in
  newestFirst result
  /\ Z.of_nat (length result) <= limit
  /\ (forall l, l ∈ result -> l ∈ stored /\ wanted taskId l = true)
  /\ exists rest,
       result ++ rest ≡ₚ List.filter (wanted taskId) stored
       /\ (forall r x, r ∈ result -> x ∈ rest -> executedAt x <= executedAt r)
       /\ (rest <> [] -> Z.of_nat (length result) = limit).
Proof.
  intros Hlimit result stored. unfold result. rewrite getLogs_unfold. fold stored.
  rewrite StorageFacts.slice0_take by done.
  set (sorted := sortBy newest (List.filter (wanted taskId) stored)).
  assert (Hsorted : newestFirst sorted) by apply sortBy_newestFirst.
  assert (Hperm : sorted ≡ₚ List.filter (wanted taskId) stored) by apply sortBy_perm.
  rewrite <- (take_drop (Z.to_nat limit) sorted) in Hsorted, Hperm.
  repeat split.
  - by apply StronglySorted_app_1_l in Hsorted.
  - rewrite length_take. lia.
  - assert (Hin : l ∈ List.filter (wanted taskId) stored).
    { rewrite <- Hperm. apply elem_of_app. by left. }
    apply list_elem_of_In, List.filter_In in Hin as [Hin _]. by apply list_elem_of_In.
  - assert (Hin : l ∈ List.filter (wanted taskId) stored).
    { rewrite <- Hperm. apply elem_of_app. by left. }
    by apply list_elem_of_In, List.filter_In in Hin as [_ Hin].
  - exists (drop (Z.to_nat limit) sorted). repeat split; [done|..].
    + intros r x Hr Hx. by apply (StronglySorted_app_1_elem_of _ _ _ r x Hsorted).
    + intros Hrest. rewrite length_take.
      destruct (Nat.le_gt_cases (length sorted) (Z.to_nat limit)) as [Hle|Hgt]; [|lia].
      by rewrite drop_ge in Hrest.
Qed.

Lemma getLogs_newest_witness :
  getLogs (Some "t") 1
    {| tasks := None;
       store := {| logs := Some [entryAt 1; entryAt 3; entryAt 2]; settings := None |};
       alarms := ∅ |}
  = [entryAt 3].
Proof.
  destruct (getLogs_newest (Some "t") 1
              {| tasks := None;
                 store := {| logs := Some [entryAt 1; entryAt 3; entryAt 2];
                             settings := None |};
                 alarms := ∅ |}) as (_ & _ & _ & _); [lia|].
  vm_compute. reflexivity.
Defined.

Lemma filter_byTask_cleared id id' l :
  id' <> id ->
  List.filter (byTask id') (List.filter (fun x => negb (byTask id x)) l)
  = List.filter (byTask id') l.
Proof.
  intros Hne. induction l as [|a l IH]; simpl; [done|].
  unfold byTask in *. destruct (String.eqb_spec (Storage.taskId a) id) as [Ha|Ha]; simpl.
  - destruct (String.eqb_spec (Storage.taskId a) id'); [congruence|done].
  - by rewrite IH.
Qed.

Lemma filter_byTask_same id l :
  List.filter (byTask id) (List.filter (fun x => negb (byTask id x)) l) = [].
Proof.
  induction l as [|a l IH]; simpl; [done|].
  destruct (byTask id a) eqn:Ha; simpl; [done|]. by rewrite Ha.
Qed.

(** X12.  After [clearTaskLogs] the logs of the task are gone: a query
    for that task (with a non-empty id) returns nothing, a query for any
    other task returns what it returned before, and the entries that
    remain keep their order.  Tasks, settings and alarms are untouched. *)
Theorem clearTaskLogs_clears (id : string) (limit : Z) (db : Db) :
  id <> EmptyString ->
  let db' := clearTaskLogs id db in
  getLogs (Some id) limit db' = []
  /\ (forall id', id' <> id -> id' <> EmptyString ->
        getLogs (Some id') limit db' = getLogs (Some id') limit db)
  /\ default [] (logs (store db'))
     = List.filter (fun l => negb (String.eqb (Storage.taskId l) id))
         (default [] (logs (store db)))
  /\ tasks db' = tasks db /\ settings (store db') = settings (store db)
  /\ alarms db' = alarms db.
Proof.
  intros Hid db'. repeat split; try done.
  - unfold getLogs. simpl. apply String.eqb_neq in Hid. rewrite Hid.
    rewrite filter_byTask_same. unfold slice0. simpl. apply take_nil.
  - intros id' Hne Hid'. unfold getLogs. simpl. apply String.eqb_neq in Hid'.
    rewrite Hid'. by rewrite filter_byTask_cleared.
Qed.

Lemma clearTaskLogs_clears_witness :
  getLogs (Some "t") 50
    (clearTaskLogs "t"
       {| tasks := None;
          store := {| logs := Some [entryAt 1; entryAt 3]; settings := None |};
          alarms := ∅ |})
  = [].
Proof.
  apply (clearTaskLogs_clears "t" 50). discriminate.
Defined.

(** X13.  [initialize] gives every key a value and destroys nothing:
    the tasks, the logs and the settings that were stored read the same
    afterwards, and running it again changes nothing. *)
Theorem initialize_keeps_data (db : Db) :
  let db' := initialize db in
  is_Some (tasks db') /\ is_Some (logs (store db')) /\ is_Some (settings (store db'))
  /\ (forall ts, tasks db = Some ts -> tasks db' = Some ts)
  /\ (forall ls, logs (store db) = Some ls -> logs (store db') = Some ls)
  /\ (forall s, settings (store db) = Some s -> settings (store db') = Some s)
  /\ (forall id, getTask id db' = getTask id db)
  /\ (forall taskId limit, getLogs taskId limit db' = getLogs taskId limit db)
  /\ (forall log, default [] (logs (store (addLogDb log db')))
                  = default [] (logs (store (addLogDb log db))))
  /\ alarms db' = alarms db
  /\ initialize db' = db'.
Proof.
  destruct db as [ts [ls s] al]. simpl.
  repeat split; try done; try (by eexists).
  all: by intros ? ->.
Qed.

(** X14.  When the new entry is at least as recent as every stored one
    and the store is newest first, [addLog] keeps the store newest
    first, and a query for all logs returns the store as it stands,
    cut at the limit: the new entry comes first. *)
Theorem addLog_then_getLogs (log : LogEntry) (limit : Z) (db : Db) :
  let before := default [] (logs (store db)) in
  let maximum := maxLogs (default DefaultSettings (settings (store db))) in
  let db' := addLogDb log db in
  newestFirst (log :: before) ->
  1 <= maximum ->
  1 <= limit ->
  newestFirst (default [] (logs (store db')))
  /\ getLogs None limit db' = take (Z.to_nat (Z.min limit maximum)) (log :: before)
  /\ head (getLogs None limit db') = Some log.
Proof.
  intros before maximum db' Hsorted Hmax Hlimit.
  assert (Hlogs : default [] (logs (store db')) = take (Z.to_nat maximum) (log :: before)).
  { unfold db', addLogDb, addLog. simpl. fold before. fold maximum.
    by rewrite StorageFacts.slice0_take by lia. }
  assert (Hkept : newestFirst (take (Z.to_nat maximum) (log :: before))).
  { unfold newestFirst in *.
    rewrite <- (take_drop (Z.to_nat maximum) (log :: before)) in Hsorted.
    by apply StronglySorted_app_1_l in Hsorted. }
  assert (Hget : getLogs None limit db'
                 = take (Z.to_nat (Z.min limit maximum)) (log :: before)).
  { rewrite getLogs_unfold, Hlogs. simpl wanted.
    assert (Hall : forall l : list LogEntry, List.filter (fun _ => true) l = l).
    { induction l as [|a l IH]; simpl; [done|]. by f_equal. }
    rewrite Hall, (sortBy_newestFirst_id _ Hkept), StorageFacts.slice0_take by lia.
    rewrite take_take. f_equal. lia. }
  split; [by rewrite Hlogs|]. split; [exact Hget|].
  rewrite Hget.
  assert (Hpos : exists n, Z.to_nat (Z.min limit maximum) = S n)
    by (exists (Z.to_nat (Z.min limit maximum - 1)); lia).
  destruct Hpos as [n ->]. reflexivity.
Qed.

Lemma addLog_then_getLogs_witness :
  head (getLogs None 50
          (addLogDb (entryAt 3)
             {| tasks := None;
                store := {| logs := Some [entryAt 2; entryAt 1]; settings := None |};
                alarms := ∅ |}))
  = Some (entryAt 3).
Proof.
  apply (addLog_then_getLogs (entryAt 3) 50
           {| tasks := None;
              store := {| logs := Some [entryAt 2; entryAt 1]; settings := None |};
              alarms := ∅ |}).
  - unfold newestFirst. simpl. repeat constructor; simpl; lia.
  - simpl. lia.
  - lia.
Defined.

(** *** Settings *)

(** X30.  [updateSettings] changes the settings it is given and no
    other, and never the logs: entries beyond a lowered maximum stay
    until the next [addLog], which then keeps the new entry and cuts
    the store at the new maximum.  The settings read back are the ones
    returned, and applying the same update again changes nothing. *)
Theorem updateSettings_then_addLog (updates : SettingsUpdate) (st : Store)
    (log : LogEntry) (maximum : Z) :
  setMaxLogs updates = Some maximum ->
  1 <= maximum ->
  let r := updateSettings updates st in
  logs r.1 = logs st
  /\ getSettings r.1 = r.2
  /\ maxLogs r.2 = maximum
  /\ (setStepDelay updates = None -> stepDelay r.2 = stepDelay (getSettings st))
  /\ (setElementTimeout updates = None ->
      elementTimeout r.2 = elementTimeout (getSettings st))
  /\ (setNotifyOnComplete updates = None ->
      notifyOnComplete r.2 = notifyOnComplete (getSettings st))
  /\ logs (addLog log r.1)
     = Some (take (Z.to_nat maximum) (log :: default [] (logs st)))
  /\ head (default [] (logs (addLog log r.1))) = Some log
  /\ updateSettings updates r.1 = r.
Proof.
  intros Hmax Hpos r. unfold r, updateSettings, getSettings. simpl. rewrite Hmax. simpl.
  split; [done|]. split; [done|]. split; [done|].
  split; [by intros ->|]. split; [by intros ->|]. split; [by intros ->|].
  unfold addLog. simpl. rewrite StorageFacts.slice0_take by lia.
  split; [done|]. split.
  - simpl. destruct (Z.to_nat maximum) as [|n] eqn:Hn; [lia|done].
  - by destruct (setStepDelay updates), (setElementTimeout updates),
         (setNotifyOnComplete updates).
Qed.

Lemma updateSettings_then_addLog_witness :
  logs (addLog (entryAt 3)
          (updateSettings
             {| setMaxLogs := Some 2; setStepDelay := None; setElementTimeout := None;
                setNotifyOnComplete := None |}
             {| logs := Some [entryAt 2; entryAt 1]; settings := None |}).1)
  = Some [entryAt 3; entryAt 2].
Proof.
  destruct (updateSettings_then_addLog
              {| setMaxLogs := Some 2; setStepDelay := None; setElementTimeout := None;
                 setNotifyOnComplete := None |}
              {| logs := Some [entryAt 2; entryAt 1]; settings := None |}
              (entryAt 3) 2) as (_ & _ & _ & _ & _ & _ & Hlogs & _);
    [reflexivity|lia|].
  rewrite Hlogs. reflexivity.
Defined.

End TaskStoreFacts.

(** ** More on the executor *)

Module ResolverFacts.

Import Executor ExecutorSpec ExecutorFacts ResolverSpec.

Section WithPage.

Variable page : Page.

(** *** The clock during a search *)

Lemma locate_now selector w : now (locate page selector w).1 = now w.
Proof.
  destruct selector as [| | | |s| |]; simpl; try done.
  repeat case_match; simpl; try done.
  unfold mbind, Act_bind, query; simpl. repeat case_match; simpl; done.
Qed.

Lemma pollGroups_now groups : forall w, now (pollGroups page groups w).1 = now w.
Proof.
  induction groups as [|g groups IH]; intros w; simpl; [done|].
  pose proof (locate_now (primary g) w) as Hl.
  destruct (locate page (primary g) w) as [w1 [[el|]|e]]; simpl in *;
    rewrite ?IH; simpl; done.
Qed.

(** The loop of [findElement], one turn unfolded. *)
Lemma findLoop_unfold groups startTime timeout w :
  findLoop page groups startTime timeout w
  = if decide (now w - startTime < timeout) then
      match pollGroups page groups w with
      | (w1, Some element) => (w1, Some element)
      | (w1, None) => findLoop page groups startTime timeout (tick page 100 w1)
      end
    else (w, None).
Proof.
  funelim (findLoop page groups startTime timeout w).
  - by rewrite decide_False.
  - rewrite decide_True by done.
    by match goal with E : pollGroups _ _ _ = _ |- _ => rewrite E end.
  - rewrite decide_True by done.
    by match goal with E : pollGroups _ _ _ = _ |- _ => rewrite E end.
Qed.

(** Every wait of a search lasts 100 ms at least: after the polls that
    found nothing the clock shows as many times 100 ms more, and the
    last of them was begun before the time was up. *)
Lemma missed_bound groups starts : forall w wl startTime timeout,
  missed page groups w starts wl ->
  Forall (fun s => now s - startTime < timeout) starts ->
  now w + 100 * Z.of_nat (length starts) <= now wl
  /\ (starts <> [] ->
      now w - startTime + 100 * (Z.of_nat (length starts) - 1) < timeout).
Proof.
  induction starts as [|s rest IH]; intros w wl startTime timeout Hmissed Hall.
  - simpl in Hmissed. subst wl. split; [simpl; lia|done].
  - destruct Hmissed as (-> & _ & Hrest). apply Forall_cons in Hall as [Hs Hall].
    destruct (IH _ wl startTime timeout Hrest Hall) as [Hclock Hlast].
    simpl in Hclock. rewrite pollGroups_now in Hclock.
    pose proof (N2Z.is_nonneg (overrun page (pollGroups page groups w).1 100)) as Hover.
    change (length (w :: rest)) with (S (length rest)). rewrite Nat2Z.inj_succ.
    split; [lia|]. intros _.
    destruct rest as [|s' rest']; [simpl; lia|].
    specialize (Hlast ltac:(done)). simpl in Hlast.
    rewrite pollGroups_now in Hlast. cbn [length]. lia.
Qed.

(** X15.  A selector that matches when [findElement] is called is
    found on the first poll: no wait, the clock where it was.  With a
    timeout that is not positive there is no poll at all, and the
    element is not found even if it is there. *)
Theorem findElement_first_poll (groups : list JsValue) (timeout : Z) (w w1 : World)
    (el : Element) :
  pollGroups page groups w = (w1, Some el) ->
  (0 < timeout ->
     findElement page (JArr groups) timeout w = (w1, Ok (Some el)) /\ now w1 = now w)
  /\ (timeout <= 0 -> findElement page (JArr groups) timeout w = (w, Ok None)).
Proof.
  intros Hpoll.
  assert (Hne : (Z.of_nat (length groups) =? 0) = false).
  { destruct groups; [discriminate|]. simpl. done. }
  unfold findElement. simpl. rewrite Hne. simpl.
  rewrite findLoop_unfold, Z.sub_diag, Hpoll. split.
  - intros Hpos. rewrite decide_True by done. split; [done|].
    pose proof (pollGroups_now groups w) as Hnow. by rewrite Hpoll in Hnow.
  - intros Hneg. by rewrite decide_False by lia.
Qed.

(** X16.  [findElement] on a non-empty list of groups, with a positive
    timeout: every poll that finds nothing is followed by a wait that
    lasts 100 ms at least, and there are at most as many of them as the
    timeout holds periods of 100 ms, rounded up.  It gives up only
    after a poll, when the timeout has passed; and it returns a node
    from a poll that was begun before the timeout had passed. *)
Theorem findElement_elapsed (groups : list JsValue) (timeout : Z) (w : World) :
  groups <> [] ->
  0 < timeout ->
  let res := findElement page (JArr groups) timeout w in
  exists starts wl,
    missed page groups w starts wl
    /\ 100 * Z.of_nat (length starts) <= now wl - now w
    /\ Z.of_nat (length starts) <= (timeout + 99) / 100
    /\ (res.2 = Ok None ->
        res.1 = wl /\ timeout <= now wl - now w /\ starts <> [])
    /\ (forall el, res.2 = Ok (Some el) ->
        pollGroups page groups wl = (res.1, Some el)
        /\ now wl - now w < timeout).
Proof.
  intros Hne Hpos.
  assert (Hlen : (Z.of_nat (length groups) =? 0) = false) by (by destruct groups).
  unfold findElement. simpl. rewrite Hlen. simpl.
  destruct (findLoop_polls page groups (now w) timeout w)
    as (starts & wl & Hmissed & Hall & Hend).
  destruct (missed_bound groups starts w wl (now w) timeout Hmissed Hall) as [Hclock Hlast].
  exists starts, wl. split; [done|]. split; [lia|]. split.
  { destruct starts as [|s rest]; [simpl; apply Z.div_pos; lia|].
    specialize (Hlast ltac:(done)).
    apply Z.div_le_lower_bound; lia. }
  destruct Hend as [[Hup ->]|(Hin & w' & el & Hpoll & ->)]; simpl.
  - split; [|done]. intros _. split; [done|]. split; [done|].
    intros ->. simpl in Hmissed. subst wl. lia.
  - split; [done|]. intros el' [= <-]. done.
Qed.

(** *** Normalized selectors *)

Lemma findLoop_primary groups groups' startTime timeout w :
  primary <$> groups = primary <$> groups' ->
  findLoop page groups startTime timeout w = findLoop page groups' startTime timeout w.
Proof.
  intros Hprim.
  funelim (findLoop page groups startTime timeout w);
    rewrite (findLoop_unfold groups');
    rewrite <- (pollGroups_primary page groups groups') by done.
  - by rewrite decide_False.
  - rewrite decide_True by done.
    by match goal with E : pollGroups _ _ _ = _ |- _ => rewrite E end.
  - rewrite decide_True by done.
    match goal with E : pollGroups _ _ _ = _ |- _ => rewrite E end.
    by match goal with IH : forall _, _ -> findLoop _ _ _ _ _ = _ |- _ => apply IH end.
Qed.

(** X17.  Normalizing a list of selector groups does not change what
    [findElement] does with it: the same queries, the same waits, the
    same result. *)
Theorem findElement_normalized (raw : list JsValue) (timeout : Z) (w : World) :
  findElement page (Parser.normalizeSelectors (JArr raw)) timeout w
  = findElement page (JArr raw) timeout w.
Proof.
  destruct (NormalizerFacts.normalizeSelectors_groups raw)
    as (groups & -> & _ & Hlen & Hprim & _).
  unfold findElement. simpl. rewrite Hlen.
  destruct (Z.of_nat (length raw) =? 0); simpl; [done|].
  by rewrite (findLoop_primary groups raw).
Qed.

(** *** Waiting for an expression *)

Lemma evaluations_app l1 l2 : evaluations (l1 ++ l2) = (evaluations l1 + evaluations l2)%nat.
Proof. unfold evaluations. by rewrite filter_app, length_app. Qed.

(** One more turn of the loop in front of a run of it: one evaluation
    more, and a wait of 100 ms at least. *)
Lemma expression_retry expression startTime timeout w (res : World * Exc unit) :
  now w - startTime < timeout ->
  (exists evs,
     trace res.1 = trace (tick page 100 (emit (RunExpression expression) w)) ++ evs
     /\ (res.2 = Ok tt
         \/ (res.2 = Throw expressionTimeout /\ timeout <= now res.1 - startTime))
     /\ (evaluations evs <> 0%nat ->
         now (tick page 100 (emit (RunExpression expression) w)) - startTime
         + 100 * (Z.of_nat (evaluations evs) - 1) < timeout)) ->
  exists evs,
    trace res.1 = trace w ++ evs
    /\ (res.2 = Ok tt
        \/ (res.2 = Throw expressionTimeout /\ timeout <= now res.1 - startTime))
    /\ (evaluations evs <> 0%nat ->
        now w - startTime + 100 * (Z.of_nat (evaluations evs) - 1) < timeout).
Proof.
  intros Hin (evs & Htrace & Hend & Hcount).
  exists (RunExpression expression :: Delay 100 :: evs).
  split; [rewrite Htrace; simpl; by rewrite <- !app_assoc|]. split; [exact Hend|].
  intros _.
  change (RunExpression expression :: Delay 100 :: evs)
    with ([RunExpression expression; Delay 100] ++ evs).
  rewrite evaluations_app.
  change (evaluations [RunExpression expression; Delay 100]) with 1%nat.
  destruct (evaluations evs) as [|n] eqn:Hn; [simpl; lia|].
  specialize (Hcount ltac:(done)). simpl in Hcount.
  pose proof (N2Z.is_nonneg (overrun page (emit (RunExpression expression) w) 100)).
  lia.
Qed.

Lemma expressionLoop_outcome expression startTime timeout w :
  let res := expressionLoop page expression startTime timeout w in
  exists evs,
    trace res.1 = trace w ++ evs
    /\ (res.2 = Ok tt
        \/ (res.2 = Throw expressionTimeout /\ timeout <= now res.1 - startTime))
    /\ (evaluations evs <> 0%nat ->
        now w - startTime + 100 * (Z.of_nat (evaluations evs) - 1) < timeout).
Proof.
  funelim (expressionLoop page expression startTime timeout w); simpl.
  - exists []. rewrite app_nil_r. split; [done|]. split; [right; split; [done|lia]|done].
  - exists [RunExpression expression; Log "Expression evaluated to true"].
    split; [simpl; by rewrite <- app_assoc|]. split; [by left|].
    intros _. change (evaluations _) with 1%nat. lia.
  - apply (expression_retry expression); [done|]. assumption.
  - apply (expression_retry expression); [done|]. assumption.
Qed.

(** An expression that is truthy at the first evaluation ends the loop
    there. *)
Lemma expressionLoop_first expression startTime timeout w :
  now w - startTime < timeout ->
  runExpression page w expression = Ok true ->
  expressionLoop page expression startTime timeout w
  = (emit (Log "Expression evaluated to true") (emit (RunExpression expression) w), Ok tt).
Proof.
  intros Hin Hrun. simp expressionLoop.
  destruct (Z_lt_dec (now w - startTime) timeout) as [Hc|Hc]; [|lia].
  simpl. by rewrite Hrun.
Qed.

(** X18.  A wait for an expression uses the step's own timeout when it
    is a positive number, and the configured 10000 ms when the step has
    none.  It either returns or throws the timeout error, and that only
    once the timeout has passed: an exception of the expression itself
    is never passed on.  The expression is evaluated at most as many
    times as the timeout holds periods of 100 ms, rounded up.  An
    expression that is truthy when the step starts returns at once,
    after that one evaluation and without a wait. *)
Theorem handleWaitForExpression_outcome (step : Step) (w : World) (limit : Z) :
  (field step "timeout" = JNum limit /\ 0 < limit)
  \/ (truthy (field step "timeout") = false /\ limit = Config.elementTimeout) ->
  let res := handleWaitForExpression page step w in
  exists evs,
    trace res.1 = trace w ++ evs
    /\ (res.2 = Ok tt
        \/ (res.2 = Throw expressionTimeout /\ limit <= now res.1 - now w))
    /\ Z.of_nat (evaluations evs) <= (limit + 99) / 100
    /\ (runExpression page w (field step "expression") = Ok true ->
        res = (emit (Log "Expression evaluated to true")
                 (emit (RunExpression (field step "expression")) w), Ok tt)).
Proof.
  intros Hlimit.
  assert (Hnum : toNumber page (or_else (field step "timeout") (JNum Config.elementTimeout))
                 = Ok (Some limit) /\ 0 < limit).
  { destruct Hlimit as [[-> Hpos]|[Hfalsy ->]].
    - unfold or_else. simpl. destruct (Z.eqb_spec limit 0); [lia|done].
    - unfold or_else. by rewrite Hfalsy. }
  destruct Hnum as [Hnum Hpos].
  unfold handleWaitForExpression. rewrite Hnum. simpl.
  destruct (expressionLoop_outcome (field step "expression") (now w) limit w)
    as (evs & Htrace & Hend & Hcount).
  exists evs. split; [done|]. split; [done|]. split.
  - destruct (evaluations evs) as [|n] eqn:Hn; [simpl; apply Z.div_pos; lia|].
    specialize (Hcount ltac:(done)).
    apply Z.div_le_lower_bound; lia.
  - intros Hrun. apply expressionLoop_first; [lia|done].
Qed.

(** *** Steps that do nothing, and scrolling *)

(** X19.  A step whose type is navigate, setViewport, or none of the
    types the executor knows (whatever value [type] holds) always
    returns: it writes one line to the console and does nothing else,
    no query, no page action, no wait. *)
Theorem executeStep_inert (step : Step) (w : World) :
  acts (field step "type") = false ->
  exists line, executeStep page step w = (emit (Log line) w, Ok tt).
Proof.
  unfold acts. simpl. rewrite !orb_false_iff.
  intros (H1 & H2 & H3 & H4 & H5 & H6 & H7 & H8 & H9 & _).
  unfold executeStep. rewrite H1, H2, H3, H4, H5, H6, H7, H8, H9.
  repeat case_match; by eexists.
Qed.



End WithPage.

Lemma handleWaitForExpression_outcome_witness :
  (handleWaitForExpression neverMatches
     {[ "type" := JStr "waitForExpression"; "expression" := JStr "ready";
        "timeout" := JNum 300 ]} start).2
  = Throw expressionTimeout.
Proof.
  destruct (handleWaitForExpression_outcome neverMatches
              {[ "type" := JStr "waitForExpression"; "expression" := JStr "ready";
                 "timeout" := JNum 300 ]} start 300)
    as (evs & _ & [Hok|[Hthrow _]] & _).
  - left. split; [reflexivity|lia].
  - vm_compute in Hok. discriminate Hok.
  - exact Hthrow.
Defined.

Lemma executeStep_inert_witness :
  exists line,
    executeStep neverMatches {[ "type" := JStr "emulateNetworkConditions" ]} start
    = (emit (Log line) start, Ok tt).
Proof.
  apply (executeStep_inert neverMatches). reflexivity.
Defined.

Lemma findElement_first_poll_witness :
  findElement onlyA (JArr [JArr [JStr "#a"]]) 10000 start
  = ({| now := 0; trace := [QuerySelector "#a"] |}, Ok (Some 7%nat)).
Proof.
  apply (findElement_first_poll onlyA [JArr [JStr "#a"]] 10000 start); [reflexivity|lia].
Defined.

(** With a timeout of 250 ms and punctual timers, on a page where
    nothing matches: at most three polls, and the search gives up at
    300 ms. *)
Lemma findElement_elapsed_witness :
  exists starts,
    starts <> [] /\ (length starts <= 3)%nat
    /\ missed neverMatches [JArr [JStr "#a"]] start starts
         (findElement neverMatches (JArr [JArr [JStr "#a"]]) 250 start).1
    /\ now (findElement neverMatches (JArr [JArr [JStr "#a"]]) 250 start).1 = 300.
Proof.
  destruct (findElement_elapsed neverMatches [JArr [JStr "#a"]] 250 start)
    as (starts & wl & Hmissed & Hclock & Hcount & Hnone & _); [discriminate|lia|].
  destruct Hnone as (Hwl & Hup & Hsome); [reflexivity|].
  exists starts. rewrite Hwl. split; [exact Hsome|].
  split; [|split; [exact Hmissed|by rewrite <- Hwl]].
  change ((250 + 99) / 100) with 3 in Hcount. lia.
Defined.


End ResolverFacts.

(** ** More on the run as a whole *)

Module RunnerFacts.

Import Executor ExecutorSpec ExecutorFacts RunnerSpec.

Lemma failureMessages_app l1 l2 :
  failureMessages (l1 ++ l2) = failureMessages l1 ++ failureMessages l2.
Proof. apply omap_app. Qed.

Lemma failureMessages_runnerView evs :
  failureMessages (runnerView evs) = failureMessages evs.
Proof.
  induction evs as [|e evs IH]; [done|].
  unfold runnerView in *. rewrite filter_cons.
  case_decide as Hr; simpl; rewrite IH; [done|].
  destruct e; simpl in *; done.
Qed.

Lemma failureMessages_blocks policy total steps : forall i outs,
  fits policy steps outs ->
  failureMessages (blocks policy total i steps outs) = Js.message <$> thrown outs.
Proof.
  induction steps as [|step steps IH]; intros i [|o outs] Hfits; simpl in *; try done.
  rewrite failureMessages_app.
  destruct o; simpl.
  - destruct (i <? total - 1)%nat; simpl; by apply IH.
  - destruct (String.eqb policy "continue"); simpl; f_equal; [by apply IH|].
    subst outs. by destruct steps.
Qed.

Lemma lastError_thrown policy outs : forall st,
  lastError (foldl (record policy) st outs)
  = match last (thrown outs) with Some e => Some e | None => lastError st end.
Proof.
  induction outs as [|o outs IH]; intros st; [done|].
  change (foldl (record policy) st (o :: outs))
    with (foldl (record policy) (record policy st o) outs).
  rewrite IH. destruct o.
  - by change (thrown (Returned :: outs)) with (thrown outs).
  - change (thrown (Threw e :: outs)) with (e :: thrown outs).
    destruct (thrown outs) as [|e' l]; [done|]. rewrite last_cons_cons.
    destruct (last (e' :: l)) eqn:Hlast; [done|]. by apply last_None in Hlast.
Qed.

Lemma failedAt_thrown outs : forall i, length (failedAt i outs) = length (thrown outs).
Proof.
  induction outs as [|o outs IH]; intros i; simpl; [done|].
  destruct o; simpl; by rewrite (IH (S i)).
Qed.

Lemma fits_all_returned policy steps : forall outs,
  fits policy steps outs -> thrown outs = [] -> length outs = length steps.
Proof.
  induction steps as [|step steps IH]; intros [|o outs] Hfits Hnone; simpl in *; try done.
  destruct o; [|done]. f_equal. by apply IH.
Qed.

Section WithPage.

Variable page : Page.

(** The loop adds handler events and events of its own, never the
    message to the service worker. *)
Lemma runLoop_notSent policy total steps : forall i st w,
  exists evs,
    trace (runLoop page policy total i steps st w).2 = trace w ++ evs
    /\ Forall notSent evs.
Proof.
  assert (Hinner : forall evs, Forall (fun e => inner e = true) evs -> Forall notSent evs).
  { intros evs Hall. eapply Forall_impl; [exact Hall|]. by intros []. }
  induction steps as [|step steps IH]; intros i st w; simpl.
  { exists []. by rewrite app_nil_r. }
  pose proof (Quiet_executeStep page step (emit (LogStep i total (field step "type")) w))
    as (inner_evs & Htrace & Hquiet).
  apply Hinner in Hquiet.
  destruct (executeStep page step _) as [w1 [[]|error]]; simpl in Htrace.
  - match goal with |- context [runLoop page policy total (S i) steps ?st1 ?w2] =>
      destruct (IH (S i) st1 w2) as (evs & Hevs & Hall) end.
    rewrite Hevs. destruct (i <? total - 1)%nat; simpl; rewrite Htrace; simpl.
    + eexists. rewrite <- !app_assoc. split; [reflexivity|].
      rewrite !Forall_app, !Forall_singleton. repeat split; done.
    + eexists. rewrite <- !app_assoc. split; [reflexivity|].
      rewrite !Forall_app, !Forall_singleton. repeat split; done.
  - destruct (String.eqb policy "continue").
    + match goal with |- context [runLoop page policy total (S i) steps ?st1 ?w2] =>
        destruct (IH (S i) st1 w2) as (evs & Hevs & Hall) end.
      rewrite Hevs. simpl. rewrite Htrace. simpl.
      eexists. rewrite <- !app_assoc. split; [reflexivity|].
      rewrite !Forall_app, !Forall_singleton. repeat split; done.
    + simpl. rewrite Htrace. simpl.
      eexists. rewrite <- !app_assoc. split; [reflexivity|].
      rewrite !Forall_app, !Forall_singleton. repeat split; done.
Qed.

(** Every field of the result of [executeSteps], and the events of the
    run between its first console line and the message it ends with. *)
Lemma executeSteps_result steps taskId taskName policy w :
  exists outs evs,
    let run := executeSteps page steps taskId taskName policy w in
    let st := foldl (record policy) initial outs in
    trace run.1
    = trace w ++ LogStart (length steps) policy :: evs
        ++ [SendResult taskId taskName (status run.2) (message run.2) (duration run.2)]
    /\ Forall notSent evs
    /\ runnerView evs = blocks policy (length steps) 0 steps outs
    /\ fits policy steps outs
    /\ totalSteps run.2 = length steps
    /\ completedSteps run.2 = completed st
    /\ status run.2 =
         (if bool_decide (is_Some (lastError st)) && String.eqb policy "stop" then FAILED
          else if hasFailedSteps st then PARTIAL
          else if (completed st <? length steps)%nat then PARTIAL
          else SUCCESS)
    /\ success run.2 = isSuccess (status run.2)
    /\ message run.2 = match lastError st with
                       | Some e => Js.message e
                       | None => "执行完成"
                       end
    /\ duration run.2 = now run.1 - now w.
Proof.
  unfold executeSteps.
  destruct (runLoop_shape page policy (length steps) steps 0 initial
              (emit (LogStart (length steps) policy) w))
    as (attempts & evs & _ & _ & _ & Htrace & Hview & Hfits & Hstate).
  destruct (runLoop_notSent policy (length steps) steps 0 initial
              (emit (LogStart (length steps) policy) w))
    as (evs' & Htrace' & Hall).
  rewrite Htrace in Htrace'. apply app_inv_head in Htrace'. subst evs'.
  fold initial.
  destruct (runLoop page policy (length steps) 0 steps initial _) as [st' w'].
  simpl in *. subst st'.
  exists (outcome page <$> attempts), evs. rewrite Htrace. rewrite <- !app_assoc. simpl.
  repeat split; done.
Qed.

(** The [success] flag of the result is computed from its status. *)
Lemma executeSteps_flag steps taskId taskName policy w :
  let run := executeSteps page steps taskId taskName policy w in
  success run.2 = isSuccess (status run.2).
Proof.
  intros run. unfold run, executeSteps.
  by destruct (runLoop page policy (length steps) 0 steps _ _).
Qed.

(** The failure messages the loop writes are those of the errors that
    [executeStep] threw, in order. *)
Lemma failureMessages_attempts policy steps attempts evs :
  runnerView evs = blocks policy (length steps) 0 steps (outcome page <$> attempts) ->
  fits policy steps (outcome page <$> attempts) ->
  failureMessages evs = Js.message <$> thrown (outcome page <$> attempts).
Proof.
  intros Hview Hfits.
  by rewrite <- failureMessages_runnerView, Hview,
       (failureMessages_blocks _ _ _ _ _ Hfits).
Qed.

(** X21.  Under every policy, the status is [success] exactly when
    [executeStep] threw in none of the attempts of the run, and so is
    the [success] flag; there is then one attempt for each step, in
    order, all are completed, and the message is the fixed completion
    text.  In particular an empty list of steps is a success. *)
Theorem executeSteps_success_iff (steps : list Step) (taskId taskName policy : string)
    (w : World) :
  let run := executeSteps page steps taskId taskName policy w in
  exists attempts evs,
    ran page policy steps taskId taskName w attempts run
    /\ trace run.1 = trace w ++ evs
    /\ failures evs = position <$> failed page attempts
    /\ (status run.2 = SUCCESS <-> failed page attempts = [])
    /\ (success run.2 = true <-> failed page attempts = [])
    /\ (failed page attempts = [] ->
        stepOf <$> attempts = steps
        /\ attempted evs = seq 0 (length steps)
        /\ completedSteps run.2 = length steps
        /\ totalSteps run.2 = length steps
        /\ message run.2 = "执行完成")
    /\ (steps = [] -> attempts = []).
Proof.
  intros run.
  destruct (executeSteps_shape page steps taskId taskName policy w)
    as (attempts & evs & Hran & Htrace & Hview & Hfits & Htotal & Hdone & Hstatus
        & Hmsg & _).
  pose proof (executeSteps_flag steps taskId taskName policy w) as Hsuccess.
  fold run in Hran, Htrace, Htotal, Hdone, Hstatus, Hmsg, Hsuccess.
  exists attempts, evs. split; [done|]. split; [done|].
  destruct Hran as (w' & _ & _ & Hsteps & Hpos).
  destruct (run_lines page steps policy attempts evs Hpos Hview Hfits) as [Hatt Hfail].
  split; [done|].
  set (st := foldl (record policy) initial (outcome page <$> attempts)) in *.
  assert (Hiff : status run.2 = SUCCESS <-> failed page attempts = []).
  { split.
    - intros Hok. destruct (failed page attempts) as [|a l] eqn:Hlist; [done|].
      exfalso.
      destruct (String.eqb policy "continue") eqn:Hpol.
      + pose proof (hasFailedSteps_foldl policy (outcome page <$> attempts) 0 initial)
          as Hflag.
        fold st in Hflag. unfold anyFailed in Hflag.
        rewrite (failedAt_failed page attempts 0 Hpos), Hlist, Hpol in Hflag.
        simpl in Hflag. rewrite Hstatus, Hflag in Hok.
        by destruct (bool_decide _ && _).
      + destruct (first_failure_is_last page policy steps attempts evs Hpol
                    Hsteps Hpos Hview Hfits)
          as (k & b & _ & _ & _ & _ & _ & _ & _ & Hlt & Hcount & Herr);
          [by rewrite Hlist|].
        fold st in Hcount, Herr. rewrite Hstatus, Hcount in Hok.
        assert (Hshort : (k <? length steps)%nat = true) by (by apply Nat.ltb_lt).
        rewrite Hshort in Hok.
        by destruct (bool_decide _ && _), (hasFailedSteps st).
    - intros Hnone.
      destruct (no_failure_all_done page policy steps attempts Hsteps Hpos Hfits Hnone)
        as (_ & _ & Hcount & Herr & Hflag).
      fold st in Hcount, Herr, Hflag.
      rewrite Hstatus, Herr, Hflag, Hcount, Nat.ltb_irrefl.
      by rewrite bool_decide_false by (by intros [? ?]). }
  split; [exact Hiff|]. split.
  { rewrite Hsuccess, <- Hiff. by destruct (status run.2). }
  split.
  - intros Hnone.
    destruct (no_failure_all_done page policy steps attempts Hsteps Hpos Hfits Hnone)
      as (Hlen & Hall & Hcount & Herr & _).
    fold st in Hcount, Herr.
    rewrite Hatt, Hpos, Hlen, Hdone, Hmsg, Herr. by repeat split.
  - intros ->. pose proof (fits_length _ _ _ Hfits) as Hle.
    rewrite length_fmap in Hle. simpl in Hle. destruct attempts; [done|simpl in Hle; lia].
Qed.

(** X22.  Under a policy that is neither [continue] nor [stop], the
    first attempt in which [executeStep] throws ends the run as under
    [stop]: it is the only one that failed and the last of the run, and
    [completedSteps] is its index; but the status is [partial], not
    [failed]. *)
Theorem executeSteps_other_policy (steps : list Step) (taskId taskName policy : string)
    (w : World) :
  let run := executeSteps page steps taskId taskName policy w in
  policy <> "continue" ->
  policy <> "stop" ->
  exists attempts evs,
    ran page policy steps taskId taskName w attempts run
    /\ trace run.1 = trace w ++ evs
    /\ attempted evs = position <$> attempts
    /\ failures evs = position <$> failed page attempts
    /\ (failed page attempts <> [] ->
        exists k a,
          attempts !! k = Some a /\ threw page a = true
          /\ steps !! k = Some (stepOf a)
          /\ failed page attempts = [a]
          /\ length attempts = S k
          /\ failures evs = [k]
          /\ attempted evs = seq 0 (S k)
          /\ (k < length steps)%nat
          /\ completedSteps run.2 = k
          /\ status run.2 = PARTIAL).
Proof.
  intros run Hcont Hstop.
  apply String.eqb_neq in Hcont, Hstop.
  destruct (executeSteps_shape page steps taskId taskName policy w)
    as (attempts & evs & Hran & Htrace & Hview & Hfits & _ & Hdone & Hstatus & _).
  fold run in Hran, Htrace, Hdone, Hstatus.
  exists attempts, evs. split; [done|]. split; [done|].
  destruct Hran as (w' & _ & _ & Hsteps & Hpos).
  destruct (run_lines page steps policy attempts evs Hpos Hview Hfits) as [Hatt Hfail].
  split; [done|]. split; [done|].
  intros Hsome.
  destruct (first_failure_is_last page policy steps attempts evs Hcont
              Hsteps Hpos Hview Hfits Hsome)
    as (k & a & Ha & Hthrew & Hstep & Hlist & Hlen & Hk & Hseq & Hlt & Hcount & Herr).
  exists k, a.
  pose proof (hasFailedSteps_foldl policy (outcome page <$> attempts) 0 initial) as Hflag.
  rewrite Hcont in Hflag. simpl in Hflag.
  rewrite Hdone, Hstatus, Hcount, Hflag, Hstop, andb_false_r.
  assert (Hshort : (k <? length steps)%nat = true) by (by apply Nat.ltb_lt).
  rewrite Hshort. by repeat split.
Qed.

(** X23.  The message of the result is the message of the error that
    [executeStep] threw in the last attempt that failed (under
    [continue] there may be several), which is also the last failure
    message written to the console; it is the fixed completion text
    when no attempt failed. *)
Theorem executeSteps_message (steps : list Step) (taskId taskName policy : string)
    (w : World) :
  let run := executeSteps page steps taskId taskName policy w in
  exists attempts evs,
    ran page policy steps taskId taskName w attempts run
    /\ trace run.1 = trace w ++ evs
    /\ match last (failed page attempts) with
       | Some a => exists e, errorOf page a = Some e /\ message run.2 = Js.message e
       | None => message run.2 = "执行完成"
       end
    /\ message run.2 = default "执行完成" (last (failureMessages evs)).
Proof.
  intros run.
  destruct (executeSteps_shape page steps taskId taskName policy w)
    as (attempts & evs & Hran & Htrace & Hview & Hfits & _ & _ & _ & Hmsg & _).
  fold run in Hran, Htrace, Hmsg.
  exists attempts, evs. split; [done|]. split; [done|]. split.
  - rewrite (lastError_failed page policy attempts initial) in Hmsg.
    destruct (last (failed page attempts)) as [a|] eqn:Hlast; [|done].
    assert (Hin : a ∈ failed page attempts).
    { apply last_Some in Hlast as [l ->]. set_solver. }
    unfold failed in Hin. apply list_elem_of_filter in Hin as [Hthrew _].
    unfold threw, outcome in Hthrew.
    destruct (errorOf page a) as [e|]; [|discriminate]. by exists e.
  - rewrite Hmsg, (failureMessages_attempts policy steps attempts evs Hview Hfits).
    rewrite fmap_last, (lastError_thrown policy _ initial). simpl.
    by destruct (last (thrown _)).
Qed.

End WithPage.

(** Under a policy called [abort], a change of [#a], a click without a
    target and a navigation: the click is the attempt that threw, the
    navigation is not attempted. *)
Lemma executeSteps_other_policy_witness :
  let run := executeSteps onlyA [changeA; clickNothing; navigateX]
               "task" "name" "abort" start in
  exists attempts a,
    ran onlyA "abort" [changeA; clickNothing; navigateX] "task" "name" start attempts run
    /\ attempts !! 1%nat = Some a /\ stepOf a = clickNothing /\ threw onlyA a = true
    /\ length attempts = 2%nat
    /\ status run.2 = PARTIAL /\ completedSteps run.2 = 1%nat.
Proof.
  intros run.
  destruct (executeSteps_other_policy onlyA [changeA; clickNothing; navigateX]
              "task" "name" "abort" start)
    as (attempts & evs & Hran & Htrace & _ & Hfail & Hsome); [discriminate..|].
  fold run in Htrace, Hfail, Hsome.
  vm_compute in Htrace. subst evs.
  change (failures _) with [1%nat] in Hfail.
  destruct Hsome as (k & a & Ha & Hthrew & Hstep & _ & Hlen & Hk & _ & _ & Hdone & Hstatus).
  { intros Hnone. rewrite Hnone in Hfail. discriminate Hfail. }
  change (failures _) with [1%nat] in Hk. injection Hk as <-.
  exists attempts, a. injection Hstep as <-. split; [exact Hran|]. by repeat split.
Defined.

End RunnerFacts.

(** ** The service worker *)

Module ServiceWorkerFacts.

Import Storage StorageSpec TaskStore TaskStoreSpec TaskStoreFacts ServiceWorker
  ServiceWorkerSpec.

(** *** The start URL *)

Lemma findNavigate_find steps :
  Forall (fun s => nullish s = false) steps ->
  findNavigate steps = Ok (List.find Parser.isNavigate steps).
Proof.
  induction 1 as [|s steps Hs _ IH]; simpl; [done|].
  unfold getProp, Parser.isNavigate. rewrite Hs.
  destruct (is_str "navigate" (prop s "type")); [done|exact IH].
Qed.

Lemma getStartUrl_same steps :
  Forall (fun s => nullish s = false) steps ->
  getStartUrl (JArr steps) = Ok (Parser.extractStartUrl steps).
Proof.
  intros Hall. unfold getStartUrl, Parser.extractStartUrl. simpl.
  destruct steps as [|s steps]; [done|].
  change (Z.of_nat (length (s :: steps)) =? 0) with false. cbv iota.
  rewrite (findNavigate_find _ Hall).
  by destruct (List.find Parser.isNavigate (s :: steps)).
Qed.

(** X24.  On a list of steps none of which is [null], the service
    worker's [getStartUrl] and the parser's [extractStartUrl] give the
    same answer, the empty list included; on a [steps] that is missing
    or [null] the service worker answers [null]. *)
Theorem getStartUrl_agrees (steps : list JsValue) :
  Forall (fun s => nullish s = false) steps ->
  getStartUrl (JArr steps) = Ok (Parser.extractStartUrl steps)
  /\ getStartUrl JUndefined = Ok JNull
  /\ getStartUrl JNull = Ok JNull.
Proof.
  intros Hall. split; [by apply getStartUrl_same|done].
Qed.

Lemma getStartUrl_agrees_witness :
  getStartUrl (JArr [JObj {[ "type" := JStr "click" ]};
                     JObj {[ "type" := JStr "navigate"; "url" := JStr "https://x" ]}])
  = Ok (JStr "https://x").
Proof.
  destruct (getStartUrl_agrees
              [JObj {[ "type" := JStr "click" ]};
               JObj {[ "type" := JStr "navigate"; "url" := JStr "https://x" ]}])
    as [Hsame _]; [by repeat constructor|].
  rewrite Hsame. reflexivity.
Defined.

(** *** The alarm names *)

Lemma prefix_task name :
  String.prefix "task_" name = true -> exists rest, name = "task_" +:+ rest.
Proof.
  intros H.
  do 5 (destruct name as [|? name]; simpl in H; [discriminate|];
        match type of H with
        | (if ?d then _ else _) = true => destruct d; [subst|discriminate]
        end).
  by exists name.
Qed.

Lemma removeFirst_task rest :
  String.prefix "task_" ("task_" +:+ rest) = true
  /\ removeFirst "task_" ("task_" +:+ rest) = rest.
Proof. by destruct rest; vm_compute. Qed.

(** X25.  The id the alarm listener reads off an alarm name is the id
    [setTaskSchedule] and [deleteTask] built the name from, whatever the
    id is; and a name the listener accepts is the name of the id it
    reads. *)
Theorem alarmTaskId_alarmName (taskId name : string) :
  alarmTaskId (alarmName taskId) = Some taskId
  /\ (alarmTaskId name = Some taskId -> name = alarmName taskId)
  /\ (String.prefix "task_" name = false -> alarmTaskId name = None).
Proof.
  unfold alarmTaskId, alarmName. split; [|split].
  - destruct (removeFirst_task taskId) as [-> ->]. done.
  - destruct (String.prefix "task_" name) eqn:Hp; [|done].
    destruct (prefix_task name Hp) as [rest ->].
    destruct (removeFirst_task rest) as [_ ->]. by intros [= <-].
  - by intros ->.
Qed.

Lemma alarmTaskId_alarmName_witness :
  alarmName "1700000000000-task_9" = "task_1700000000000-task_9"
  /\ alarmTaskId "task_1700000000000-task_9" = Some "1700000000000-task_9".
Proof.
  destruct (alarmTaskId_alarmName "1700000000000-task_9" "task_1700000000000-task_9")
    as (Hfrom & Hto & _).
  split; [symmetry; apply Hto; reflexivity|reflexivity].
Defined.

(** *** executeTask *)

(** X26.  [executeTask] opens the page only for a stored task with a
    start URL: the task's own [url] when it is truthy, and otherwise
    the one derived from its steps.  Then the content script's response
    is returned and nothing is written.  In every other case (no such
    task, no URL, a failure of the browser) the result is a failure
    with the error's message, and one failure log carrying that message
    is added, under the name "未知任务" even when the task is known;
    tasks and alarms are untouched. *)
Theorem executeTask_outcomes (Response : Type) (runInTab : JsValue -> Task -> Exc Response)
    (logId : string) (now : Z) (taskId : string) (db : Db) :
  let r := executeTask Response runInTab logId now taskId db in
  (forall response, r.2 = Responded response ->
     r.1 = db
     /\ exists t startUrl,
          getTask taskId db = Some t
          /\ truthy startUrl = true
          /\ runInTab startUrl t = Ok response
          /\ (if truthy (default JUndefined (t !! "url"))
              then startUrl = default JUndefined (t !! "url")
              else getStartUrl (default JUndefined (t !! "steps")) = Ok startUrl))
  /\ (forall err, r.2 = Failed err ->
        r.1 = addLogDb (failureLog logId now taskId err) db
        /\ tasks r.1 = tasks db /\ alarms r.1 = alarms db)
  /\ (getTask taskId db = None -> r.2 = Failed "任务不存在")
  /\ (forall t, getTask taskId db = Some t ->
        truthy (default JUndefined (t !! "url")) = false ->
        getStartUrl (default JUndefined (t !! "steps")) = Ok JNull ->
        r.2 = Failed "无法确定起始 URL").
Proof.
  unfold executeTask, attempt, getTask. simpl.
  destruct (List.find (hasId taskId) (getAllTasks db)) as [t|] eqn:Hfind.
  2:{ simpl. split; [by intros ? [=]|]. split; [by intros ? [= <-]|].
      split; [done|]. by intros ? [=]. }
  destruct (truthy (default JUndefined (t !! "url"))) eqn:Hurl.
  - simpl. rewrite Hurl. simpl.
    destruct (runInTab (default JUndefined (t !! "url")) t) as [resp|e] eqn:Hrun; simpl.
    + split; [|split; [by intros ? [=]|split; [done|intros ? [= <-] Hf; congruence]]].
      intros response [= <-]. split; [done|].
      exists t, (default JUndefined (t !! "url")). by rewrite Hurl.
    + split; [by intros ? [=]|]. split; [by intros ? [= <-]|].
      split; [done|]. intros ? [= <-] Hf; congruence.
  - destruct (getStartUrl (default JUndefined (t !! "steps"))) as [u|e] eqn:Hstart; simpl.
    + destruct (truthy u) eqn:Hu; simpl.
      * destruct (runInTab u t) as [resp|e] eqn:Hrun; simpl.
        -- split; [|split; [by intros ? [=]|split; [done|]]].
           ++ intros response [= <-]. split; [done|]. exists t, u. by rewrite Hurl.
           ++ intros ? [= <-] _ Hnull. rewrite Hstart in Hnull.
              injection Hnull as Hnull. subst u. discriminate.
        -- split; [by intros ? [=]|]. split; [by intros ? [= <-]|].
           split; [done|]. intros ? [= <-] _ Hnull. rewrite Hstart in Hnull.
           injection Hnull as Hnull. subst u. discriminate.
      * split; [by intros ? [=]|]. split; [by intros ? [= <-]|].
        split; [done|]. done.
    + split; [by intros ? [=]|]. split; [by intros ? [= <-]|].
      split; [done|]. intros ? [= <-] _ Hnull. rewrite Hstart in Hnull. discriminate.
Qed.

Lemma executeTask_outcomes_witness :
  (executeTask unit (fun _ _ => Ok tt) "log" 5 "b" sampleDb).2
  = Failed "无法确定起始 URL".
Proof.
  destruct (executeTask_outcomes unit (fun _ _ => Ok tt) "log" 5 "b" sampleDb)
    as (_ & _ & _ & Hnone).
  apply (Hnone {[ "id" := JStr "b" ]}); reflexivity.
Defined.

(** *** handleExecutionResult *)

Lemma updateTask_found now id (updates : gmap string JsValue) db (t : Task) :
  getTask id db = Some t ->
  updates !! "id" = None ->
  let merged : Task := <["updatedAt" := JNum now]> (updates ∪ t) in
  let db' := (updateTask now id updates db).1 in
  getTask id db' = Some merged
  /\ store db' = store db /\ alarms db' = alarms db.
Proof.
  intros Hsome Hid merged db'. unfold db', getTask, updateTask in *.
  destruct (findIndex (hasId id) (getAllTasks db)) as [i|] eqn:Hi.
  2:{ apply findIndex_None in Hi. congruence. }
  destruct (findIndex_Some _ _ _ Hi) as (x & Hx & Hpx & Hfind & Hbefore).
  assert (x = t) by congruence. subst x. rewrite Hx. simpl.
  split; [|done]. unfold getAllTasks at 1. simpl.
  apply (find_insert_first _ _ _ t); try done.
  unfold merged, hasId in *. rewrite lookup_insert_ne by done.
  rewrite lookup_union_r by done. done.
Qed.

Lemma updateTask_missing now id (updates : gmap string JsValue) db :
  getTask id db = None -> (updateTask now id updates db).1 = db.
Proof.
  unfold getTask, updateTask. intros Hnone. apply findIndex_None in Hnone.
  by rewrite Hnone.
Qed.

(** X27.  [handleExecutionResult] always adds the log of the run (it
    heads the store when at least one log is kept); it shows exactly
    one notification for a success and for a failure and none for any
    other status, [partial] included; when the task is stored, its
    [lastStatus] and [lastExecutedAt] are set and its other properties
    kept, and when it is not, the tasks are left as they are. *)
Theorem handleExecutionResult_effects (logId : string) (now : Z) (m : ResultMessage)
    (h : Host) :
  let h' := handleExecutionResult logId now m h in
  let entry := Types.createLog logId now (taskId m) (taskName m) (status m)
                 (Some (message m)) (Some (duration m)) in
  (1 <= maxLogs (default DefaultSettings (settings (store (db h)))) ->
     head (default [] (logs (store (db h')))) = Some entry)
  /\ (status m = "success" ->
      notifications h' = notifications h ++ [("执行成功", taskName m +:+ " 任务已完成")])
  /\ (status m = "failed" ->
      notifications h'
      = notifications h ++ [("执行失败", taskName m +:+ " 执行失败: " +:+ message m)])
  /\ (status m <> "success" -> status m <> "failed" -> notifications h' = notifications h)
  /\ (forall t : Task, getTask (taskId m) (db h) = Some t ->
        exists t' : Task,
          getTask (taskId m) (db h') = Some t'
          /\ t' !! "lastStatus" = Some (JStr (status m))
          /\ t' !! "lastExecutedAt" = Some (JNum now)
          /\ t' !! "updatedAt" = Some (JNum now)
          /\ forall k, k <> "lastStatus" -> k <> "lastExecutedAt" -> k <> "updatedAt" ->
               t' !! k = t !! k)
  /\ (getTask (taskId m) (db h) = None -> tasks (db h') = tasks (db h))
  /\ alarms (db h') = alarms (db h).
Proof.
  intros h' entry. unfold h', handleExecutionResult. simpl. fold entry.
  set (updates := <["lastExecutedAt" := JNum now]> (<["lastStatus" := JStr (status m)]> ∅)
                  : gmap string JsValue).
  split; [|split; [|split; [|split; [|split; [|split]]]]].
  - intros Hmax.
    assert (Hstore : store (updateTask now (taskId m) updates (addLogDb entry (db h))).1
                     = addLog entry (store (db h))).
    { unfold updateTask. by destruct (findIndex _ _). }
    rewrite Hstore. unfold addLog. simpl.
    rewrite StorageFacts.slice0_take by lia.
    destruct (Z.to_nat (maxLogs (default DefaultSettings (settings (store (db h))))))
      as [|n] eqn:Hn; [lia|done].
  - intros ->. done.
  - intros ->. done.
  - intros Hs Hf. apply String.eqb_neq in Hs, Hf. rewrite Hs, Hf. apply app_nil_r.
  - intros t Ht.
    destruct (updateTask_found now (taskId m) updates (addLogDb entry (db h)) t Ht)
      as (Hget & _); [done|].
    eexists. split; [exact Hget|]. unfold updates.
    repeat split.
    + rewrite lookup_insert_ne by done. rewrite lookup_union_l'; [|by eexists].
      by rewrite lookup_insert_ne, lookup_insert_eq.
    + rewrite lookup_insert_ne by done. rewrite lookup_union_l'; [|by eexists].
      by rewrite lookup_insert_eq.
    + by rewrite lookup_insert_eq.
    + intros k H1 H2 H3. rewrite lookup_insert_ne by done.
      rewrite lookup_union_r; [done|]. by rewrite !lookup_insert_ne.
  - intros Hnone.
    by rewrite (updateTask_missing now (taskId m) updates (addLogDb entry (db h)) Hnone).
  - unfold updateTask. by destruct (findIndex _ _).
Qed.

Lemma handleExecutionResult_effects_witness :
  notifications
    (handleExecutionResult "log" 5
       {| taskId := "a"; taskName := "n"; status := "partial"; message := "m";
          duration := 1 |}
       {| db := sampleDb; notifications := [] |})
  = [].
Proof.
  destruct (handleExecutionResult_effects "log" 5
              {| taskId := "a"; taskName := "n"; status := "partial"; message := "m";
                 duration := 1 |}
              {| db := sampleDb; notifications := [] |}) as (_ & _ & _ & Hnone & _).
  apply Hnone; discriminate.
Defined.

(** *** From the content script to the service worker *)

Lemma omap_sentMessage_notSent evs :
  Forall RunnerSpec.notSent evs -> omap sentMessage evs = [].
Proof.
  induction 1 as [|e evs He _ IH]; [done|].
  destruct e; simpl in *; try done; exact IH.
Qed.

(** X28.  Every run of [executeSteps] sends the service worker exactly
    one result message, as the last thing it does, carrying the task's
    id and name and the status, message and duration it also returns.
    Handling that message shows one notification when the run succeeded
    or failed and none when it was partial. *)
Theorem run_is_reported (page : Executor.Page) (steps : list Executor.Step)
    (id name policy : string) (w : Executor.World) (logId : string) (now : Z)
    (h : Host) :
  let run := Executor.executeSteps page steps id name policy w in
  let m := {| taskId := id; taskName := name;
              status := statusName (Executor.status run.2);
              message := Executor.message run.2;
              duration := Executor.duration run.2 |} in
  exists evs,
    Executor.trace run.1 = Executor.trace w ++ evs
    /\ omap sentMessage evs = [m]
    /\ last evs ≫= sentMessage = Some m
    /\ notifications (handleExecutionResult logId now m h)
       = notifications h ++ notice name run.2.
Proof.
  intros run m.
  destruct (RunnerFacts.executeSteps_result page steps id name policy w)
    as (outs & evs & Htrace & Hquiet & _).
  fold run in Htrace. cbv zeta in Htrace.
  exists (Executor.LogStart (length steps) policy :: evs
          ++ [Executor.SendResult id name (Executor.status run.2)
                (Executor.message run.2) (Executor.duration run.2)]).
  split; [exact Htrace|]. split; [|split].
  - change (omap sentMessage (Executor.LogStart (length steps) policy :: ?l))
      with (omap sentMessage l).
    by rewrite omap_app, (omap_sentMessage_notSent _ Hquiet).
  - rewrite app_comm_cons, last_snoc. done.
  - unfold handleExecutionResult, notice, m. simpl.
    by destruct (Executor.status run.2).
Qed.

(** *** From the import to the execution *)

Lemma mapSteps_objects raw : forall i steps,
  Parser.mapSteps i raw = Ok steps -> Forall (fun s => nullish s = false) steps.
Proof.
  induction raw as [|step raw IH]; intros i steps; simpl.
  - by intros [= <-].
  - unfold Parser.transformStep.
    destruct (getProp step "type") as [ty|e]; [|done].
    destruct (Parser.mapSteps (S i) raw) as [ts|e] eqn:Hrest; [|done].
    intros [= <-]. constructor; [done|]. by apply (IH (S i)).
Qed.

Lemma transform_data json d :
  Parser.transform json = Ok d ->
  Parser.startUrl d = Parser.extractStartUrl (Parser.steps d)
  /\ Forall (fun s => nullish s = false) (Parser.steps d).
Proof.
  unfold Parser.transform.
  destruct (getProp json "title") as [t|e]; [|done].
  destruct (prop json "steps") as [| | | | |raw|]; try done.
  destruct (Parser.mapSteps 0 raw) as [steps|e] eqn:Hmap; [|done].
  intros [= <-]. simpl. split; [done|]. by apply (mapSteps_objects raw 0).
Qed.

Lemma extractStartUrl_falsy steps :
  truthy (Parser.extractStartUrl steps) = false -> Parser.extractStartUrl steps = JNull.
Proof.
  unfold Parser.extractStartUrl, or_else.
  destruct (List.find Parser.isNavigate steps) as [s|]; [|done].
  destruct (truthy (prop s "url")) eqn:Hu; [congruence|done].
Qed.

(** X29.  A task imported from a recording is opened at the start URL
    the parser extracted whenever that URL is truthy.  When it is not
    (no navigate step, or the first one has no usable [url]),
    [executeTask] never reaches the browser: the fallback over the
    task's steps finds nothing either, the call fails with
    "无法确定起始 URL", and a failure log is written. *)
Theorem imported_task_start (Response : Type) (runInTab : JsValue -> Task -> Exc Response)
    (json : JsValue) (d : Parser.ParsedData) (id : string) (created : Z) (name : JsValue)
    (logId : string) (now : Z) (db : Db) :
  Parser.transform json = Ok d ->
  getTask id db = Some (importedTask id created name d) ->
  executeTask Response runInTab logId now id db
  = if truthy (Parser.startUrl d) then
      match runInTab (Parser.startUrl d) (importedTask id created name d) with
      | Ok response => (db, Responded response)
      | Throw e => (addLogDb (failureLog logId now id (Js.message e)) db,
                    Failed (Js.message e))
      end
    else (addLogDb (failureLog logId now id "无法确定起始 URL") db,
          Failed "无法确定起始 URL").
Proof.
  intros Htransform Hget.
  destruct (transform_data json d Htransform) as [Hstart Hobjects].
  unfold executeTask, attempt. unfold getTask in Hget. rewrite Hget.
  assert (Hurl : importedTask id created name d !! "url"
                 = Some (or_else (Parser.startUrl d) (JStr EmptyString))).
  { unfold importedTask, Types.createTask. by simplify_map_eq. }
  assert (Hsteps : importedTask id created name d !! "steps"
                   = Some (JArr (Parser.steps d))).
  { unfold importedTask, Types.createTask. by simplify_map_eq. }
  rewrite Hurl, Hsteps. cbn [default from_option]. unfold or_else, Datatypes.id.
  destruct (truthy (Parser.startUrl d)) eqn:Htruthy.
  - rewrite Htruthy. simpl. rewrite Htruthy. simpl.
    by destruct (runInTab _ _).
  - change (truthy (JStr EmptyString)) with false. cbv iota.
    rewrite (getStartUrl_same (Parser.steps d) Hobjects).
    rewrite Hstart in Htruthy.
    apply extractStartUrl_falsy in Htruthy. rewrite Htruthy. done.
Qed.

Lemma imported_task_start_witness :
  Parser.transform sampleRecording = Ok sampleData
  /\ (executeTask unit (fun _ _ => Ok tt) "log" 5 "t1" importedDb).2
     = Failed "无法确定起始 URL".
Proof.
  assert (Htransform : Parser.transform sampleRecording = Ok sampleData)
    by (vm_compute; reflexivity).
  split; [exact Htransform|].
  rewrite (imported_task_start unit (fun _ _ => Ok tt) sampleRecording sampleData
             "t1" 0 (JStr "demo") "log" 5 importedDb Htransform); reflexivity.
Defined.

End ServiceWorkerFacts.
